(** * Tri-colour marking, sweeping and write barriers of the GC chapter

    A shallow embedding of the Go simulation code of the chapter on
    tri-colour marking: [markPhase], [sweepPhase], [createObjectGraph],
    [initializeColors], the recursive [markObject], and the three write
    barriers [dijkstraWriteBarrier], [yuasaWriteBarrier] and
    [hybridWriteBarrier].

    Go pointers [*Object] are addresses into a finite heap; a nil pointer is
    an address at which nothing is allocated, and dereferencing it panics.
    The program's [fmt.Printf] lines are kept as a trace of events. *)

From Stdlib Require Import ZArith Strings.Byte.
From stdpp Require Import base option list gmap fin_maps.

Local Open Scope Z_scope.
Local Open Scope nat_scope.

(** ** Data model *)

(** [type Color int] with [White = iota], [Gray], [Black]. *)
Inductive Color := White | Gray | Black.

#[global] Instance Color_eq_dec : EqDecision Color.
Proof. solve_decision. Defined.

(** The numeric value of a colour constant. *)
Definition rank (c : Color) : nat :=
  match c with White => 0 | Gray => 1 | Black => 2 end.

(** Forward order on colours: White, then Gray, then Black. *)
Definition color_le (c d : Color) : Prop := rank c ≤ rank d.

(** Addresses of heap objects (the values of [*Object]). *)
Abbreviation loc := nat.

(** [type Object struct { id int; color Color; data []byte; children []*Object }].
    [GCObject], [DijkstraObject], [YuasaObject] and [HybridObject] have the
    same [id], [color] and [children] fields (the barrier objects also carry
    a mutex, which guards one call and is not modelled); one record stands
    for all of them. *)
Record Object := mkObject {
  id : Z;
  color : Color;
  data : list byte;
  children : list loc
}.

Definition with_color (c : Color) (o : Object) : Object :=
  mkObject (id o) c (data o) (children o).

Definition with_children (cs : list loc) (o : Object) : Object :=
  mkObject (id o) (color o) (data o) cs.

(** What the [switch obj.color] of [sweepPhase] prints for an object. *)
Inductive Verdict :=
| Reclaimed   (* White: "被回收" *)
| Abnormal    (* Gray: "异常状态" *)
| Live.       (* Black: "存活" *)

Definition classify (c : Color) : Verdict :=
  match c with White => Reclaimed | Gray => Abnormal | Black => Live end.

Inductive Barrier := Dijkstra | Yuasa | Hybrid.

(** One event per [fmt.Printf]/[fmt.Println] of the modelled functions.  An
    event records the address of the object together with the [id] that the
    program prints. *)
Inductive Event :=
| EvBanner (phase : nat)
| EvCreated (root_id orphan_id : Z)
| EvInitialized
| EvMarkStart (l : loc) (i : Z)
| EvProcess (l : loc) (i : Z)
| EvChildGray (l : loc) (i : Z)
| EvBlack (l : loc) (i : Z)
| EvMarkDone
| EvSweepStart
| EvSweep (l : loc) (i : Z) (v : Verdict)
| EvMarkGray (l : loc) (i : Z)
| EvMarkBlack (l : loc) (i : Z)
| EvBarrier (b : Barrier) (holder child : Z)
| EvShade (b : Barrier) (holder_color : Color) (l : loc) (i : Z).

(** ** A state monad with panics, fuel and output *)

Inductive outcome (A : Type) :=
| Done (a : A)
| Panic         (* nil pointer dereference *)
| OutOfFuel.    (* the step budget of the model ran out *)
Arguments Done {A} a.
Arguments Panic {A}.
Arguments OutOfFuel {A}.

(** What running a computation on a heap gives: its outcome, the heap it
    stopped in (kept also when the computation panics or is cut off) and
    what it printed. *)
Record Run (A : Type) := mkRun {
  result : outcome A;
  final : gmap nat Object;
  trace : list Event
}.
Arguments mkRun {A} _ _ _.
Arguments result {A} _.
Arguments final {A} _.
Arguments trace {A} _.

Definition M (A : Type) : Type := gmap nat Object → Run A.

Definition ret {A} (a : A) : M A := λ h, mkRun (Done a) h [].

Definition bind {A B} (m : M A) (f : A → M B) : M B := λ h,
  let r := m h in
  match result r with
  | Done a =>
    let r' := f a (final r) in
    mkRun (result r') (final r') (trace r ++ trace r')
  | Panic => mkRun Panic (final r) (trace r)
  | OutOfFuel => mkRun OutOfFuel (final r) (trace r)
  end.

#[global] Instance M_ret : MRet M := @ret.
#[global] Instance M_bind : MBind M := λ A B f m, bind m f.

Definition timeout {A} : M A := λ h, mkRun OutOfFuel h [].

(** Read the object a pointer refers to. *)
Definition deref (l : loc) : M Object := λ h,
  match h !! l with
  | Some o => mkRun (Done o) h []
  | None => mkRun Panic h []
  end.

(** [p.color = c]. *)
Definition set_color (l : loc) (c : Color) : M unit := λ h,
  match h !! l with
  | Some o => mkRun (Done tt) (<[l := with_color c o]> h) []
  | None => mkRun Panic h []
  end.

(** [p.children = cs]. *)
Definition set_children (l : loc) (cs : list loc) : M unit := λ h,
  match h !! l with
  | Some o => mkRun (Done tt) (<[l := with_children cs o]> h) []
  | None => mkRun Panic h []
  end.

(** [&Object{...}]: allocate at an unused address. *)
Definition alloc (o : Object) : M loc := λ h,
  let l := fresh (dom h) in
  mkRun (Done l) (<[l := o]> h) [].

Definition emit (e : Event) : M unit := λ h, mkRun (Done tt) h [e].

(** [for _, x := range xs { body x }]. *)
Fixpoint forM_ {A} (body : A → M unit) (xs : list A) : M unit :=
  match xs with
  | [] => ret tt
  | x :: xs' => body x;; forM_ body xs'
  end.

(** A range loop that updates a local variable [acc]. *)
Fixpoint foldM {A B} (body : B → A → M B) (acc : B) (xs : list A) : M B :=
  match xs with
  | [] => ret acc
  | x :: xs' => acc' ← body acc x; foldM body acc' xs'
  end.

(** ** The program *)

(** [createObjectGraph]: a root with two children sharing one grandchild,
    and an orphan that nothing refers to. *)
Definition createObjectGraph : M loc :=
  root ← alloc (mkObject 1 White [] []);
  child1 ← alloc (mkObject 2 White [] []);
  child2 ← alloc (mkObject 3 White [] []);
  child3 ← alloc (mkObject 4 White [] []);
  orphan ← alloc (mkObject 99 White [] []);
  set_children root [child1; child2];;
  set_children child1 [child3];;
  set_children child2 [child3];;
  r ← deref root;
  o ← deref orphan;
  emit (EvCreated (id r) (id o));;
  ret root.

(** The body of the range loop of [markPhase]: a White child is shaded and
    appended to the worklist [grayObjects]. *)
Definition shadeChild (grayObjects : list loc) (child : loc) : M (list loc) :=
  c ← deref child;
  if decide (color c = White) then
    set_color child Gray;;
    emit (EvChildGray child (id c));;
    ret (grayObjects ++ [child])
  else ret grayObjects.

(** The loop [for len(grayObjects) > 0] of [markPhase]; one unit of fuel per
    iteration. *)
Fixpoint drain (fuel : nat) (grayObjects : list loc) : M unit :=
  match grayObjects with
  | [] => ret tt
  | current :: rest =>
    match fuel with
    | 0 => timeout
    | S fuel' =>
      cur ← deref current;
      emit (EvProcess current (id cur));;
      grayObjects' ← foldM shadeChild rest (children cur);
      set_color current Black;;
      emit (EvBlack current (id cur));;
      drain fuel' grayObjects'
    end
  end.

Definition markPhase (fuel : nat) (root : loc) : M unit :=
  set_color root Gray;;
  r ← deref root;
  emit (EvMarkStart root (id r));;
  drain fuel [root];;
  emit EvMarkDone.

(** The closure [collectAll] of [sweepPhase]; [allObjects] is the captured
    slice it appends to.  One unit of fuel per nested call. *)
Fixpoint collectAll (fuel : nat) (allObjects : list loc) (obj : loc)
  : M (list loc) :=
  match fuel with
  | 0 => timeout
  | S fuel' =>
    o ← deref obj;
    foldM (λ all child, collectAll fuel' (all ++ [child]) child)
          allObjects (children o)
  end.

(** The body of the last loop of [sweepPhase]: print the verdict on one
    object. *)
Definition reportObject (obj : loc) : M unit :=
  o ← deref obj;
  emit (EvSweep obj (id o) (classify (color o))).

Definition sweepPhase (fuel : nat) (root : loc) : M unit :=
  emit EvSweepStart;;
  allObjects ← collectAll fuel [root] root;
  forM_ reportObject allObjects.

(** The closure [dfs] of [initializeColors]; [visited] is the captured map,
    keyed by [id]. *)
Fixpoint dfs (fuel : nat) (visited : gset Z) (obj : loc) : M (gset Z) :=
  match fuel with
  | 0 => timeout
  | S fuel' =>
    o ← deref obj;
    if decide (id o ∈ visited) then ret visited
    else
      set_color obj White;;
      foldM (dfs fuel') ({[id o]} ∪ visited) (children o)
  end.

Definition initializeColors (fuel : nat) (root : loc) : M unit :=
  dfs fuel ∅ root;;
  emit EvInitialized.

(** [simulateThreeColorMarking] of the marking chapter; its three headings
    are the banners 0, 1 and 2. *)
Definition simulateThreeColorMarking (fuel : nat) : M unit :=
  emit (EvBanner 0);;
  root ← createObjectGraph;
  initializeColors fuel root;;
  emit (EvBanner 1);;
  markPhase fuel root;;
  emit (EvBanner 2);;
  sweepPhase fuel root.

(** The recursive [markObject]; one unit of fuel per nested call. *)
Fixpoint markObject (fuel : nat) (obj : loc) : M unit :=
  match fuel with
  | 0 => timeout
  | S fuel' =>
    o ← deref obj;
    if decide (color o ≠ White) then ret tt
    else
      set_color obj Gray;;
      emit (EvMarkGray obj (id o));;
      forM_ (markObject fuel') (children o);;
      set_color obj Black;;
      emit (EvMarkBlack obj (id o))
  end.

(** [obj.children = append(obj.children, child)]. *)
Definition appendChild (obj child : loc) : M unit :=
  o ← deref obj;
  set_children obj (children o ++ [child]).

Definition dijkstraWriteBarrier (obj child : loc) : M unit :=
  o ← deref obj;
  c ← deref child;
  emit (EvBarrier Dijkstra (id o) (id c));;
  (if decide (color o = Black ∧ color c = White) then
     set_color child Gray;;
     emit (EvShade Dijkstra Black child (id c))
   else ret tt);;
  appendChild obj child.

Definition yuasaWriteBarrier (obj child : loc) : M unit :=
  o ← deref obj;
  c ← deref child;
  emit (EvBarrier Yuasa (id o) (id c));;
  (if decide (color o = Gray ∧ color c = White) then
     set_color child Gray;;
     emit (EvShade Yuasa Gray child (id c))
   else ret tt);;
  appendChild obj child.

Definition hybridWriteBarrier (obj child : loc) : M unit :=
  o ← deref obj;
  c ← deref child;
  emit (EvBarrier Hybrid (id o) (id c));;
  (if decide (color o = Black ∧ color c = White) then
     set_color child Gray;;
     emit (EvShade Hybrid Black child (id c))
   else if decide (color o = Gray ∧ color c = White) then
     set_color child Gray;;
     emit (EvShade Hybrid Gray child (id c))
   else ret tt);;
  appendChild obj child.

(** The operations that change colours within a cycle. *)
Inductive Op :=
| OpMarkPhase (fuel : nat) (root : loc)
| OpMarkObject (fuel : nat) (obj : loc)
| OpDijkstra (obj child : loc)
| OpYuasa (obj child : loc)
| OpHybrid (obj child : loc).

Definition runOp (op : Op) : M unit :=
  match op with
  | OpMarkPhase fuel root => markPhase fuel root
  | OpMarkObject fuel obj => markObject fuel obj
  | OpDijkstra obj child => dijkstraWriteBarrier obj child
  | OpYuasa obj child => yuasaWriteBarrier obj child
  | OpHybrid obj child => hybridWriteBarrier obj child
  end.

Definition runBarrier (b : Barrier) (obj child : loc) : M unit :=
  match b with
  | Dijkstra => dijkstraWriteBarrier obj child
  | Yuasa => yuasaWriteBarrier obj child
  | Hybrid => hybridWriteBarrier obj child
  end.

(** ** Notions used to state the properties *)

Definition colorAt (h : gmap nat Object) (l : loc) : option Color :=
  color <$> h !! l.

Definition childrenAt (h : gmap nat Object) (l : loc) : list loc :=
  default [] (children <$> h !! l).

(** The one write that does not look at the colour it replaces: the first
    line of [markPhase], [root.color = Gray].  It moves a colour backwards
    exactly when the phase is started on a root that is already Black. *)
Definition regrays (op : Op) (h : gmap nat Object) : Prop :=
  match op with
  | OpMarkPhase _ root => colorAt h root = Some Black
  | _ => False
  end.

(** ... and [l] is that root: the one object whose colour such a phase
    writes backwards. *)
Definition regrayed (op : Op) (h : gmap nat Object) (l : loc) : Prop :=
  match op with
  | OpMarkPhase _ root => l = root ∧ colorAt h root = Some Black
  | _ => False
  end.

(** [b] can be reached from [a] by following [children] pointers. *)
Inductive reach (h : gmap nat Object) : loc → loc → Prop :=
| reach_refl l : reach h l l
| reach_step a o b c :
    h !! a = Some o → b ∈ children o → reach h b c → reach h a c.

(** [l] can be reached from one of the objects [cs]. *)
Definition reachFrom (h : gmap nat Object) (cs : list loc) (l : loc) : Prop :=
  ∃ c, c ∈ cs ∧ reach h c l.

(** No object holds a nil pointer among its children. *)
Definition closed (h : gmap nat Object) : Prop :=
  map_Forall (λ _ o, Forall (λ c, is_Some (h !! c)) (children o)) h.

#[global] Instance closed_dec h : Decision (closed h).
Proof. unfold closed. apply _. Defined.

(** All objects the root reaches are White, as at the start of a cycle. *)
Definition fresh_cycle (h : gmap nat Object) (root : loc) : Prop :=
  ∀ l o, reach h root l → h !! l = Some o → color o = White.

(** No two objects carry the same [id]. *)
Definition ids_distinct (h : gmap nat Object) : Prop :=
  ∀ l l' o o', h !! l = Some o → h !! l' = Some o' → id o = id o' → l = l'.

(** Number of objects whose [id] is not in [visited]. *)
Definition unvisited (visited : gset Z) (h : gmap nat Object) : nat :=
  size (filter (λ p, id p.2 ∉ visited) h).

(** Number of White objects of a heap. *)
Definition whites (h : gmap nat Object) : nat :=
  size (filter (λ p, color p.2 = White) h).

(** Two objects that differ at most in their colour. *)
Definition recolor (o o' : Object) : Prop :=
  id o = id o' ∧ data o = data o' ∧ children o = children o'.

(** ... and the colour has not moved backwards. *)
Definition fwd (o o' : Object) : Prop :=
  recolor o o' ∧ color_le (color o) (color o').

(** The colour has not moved backwards (other fields may differ). *)
Definition colfwd (o o' : Object) : Prop :=
  color_le (color o) (color o').

(** A colour other than White has not become White. *)
Definition keepNW (o o' : Object) : Prop :=
  color o ≠ White → color o' ≠ White.

(** The colour may differ, but a White object is still White. *)
Definition whiten (o o' : Object) : Prop :=
  recolor o o' ∧ (color o = White → color o' = White).

(** A relation on objects, lifted to heaps with the same addresses. *)
Definition lift (P : relation Object) (h h' : gmap nat Object) : Prop :=
  ∀ l, option_Forall2 P (h !! l) (h' !! l).

(** A computation keeps a relation between the heap it starts in and the
    heap it stops in, whatever its outcome. *)
Definition pres (R : relation (gmap nat Object)) {A} (m : M A) : Prop :=
  ∀ h, R h (final (m h)).

(** What a traversal that starts with the set [V] of visited ids and ends
    with [V'] has done: every object newly visited is White, and the ids of
    its children are visited too. *)
Definition dfs_post (V V' : gset Z) (h h' : gmap nat Object) : Prop :=
  lift whiten h h' ∧ V ⊆ V' ∧
  ∀ a oa, h !! a = Some oa → id oa ∈ V' → id oa ∉ V →
          colorAt h' a = Some White ∧
          ∀ b ob, b ∈ children oa → h !! b = Some ob → id ob ∈ V'.

(** The objects a trace reports as taken off the worklist ([markPhase]),
    as entered ([markObject]), and as classified by the sweeper. *)
Definition processed (evs : list Event) : list loc :=
  omap (λ e, match e with EvProcess l _ => Some l | _ => None end) evs.

Definition entered (evs : list Event) : list loc :=
  omap (λ e, match e with EvMarkGray l _ => Some l | _ => None end) evs.

Definition swept (evs : list Event) : list (loc * Verdict) :=
  omap (λ e, match e with EvSweep l _ v => Some (l, v) | _ => None end) evs.

(** The colour test of each barrier: Dijkstra shades under a Black holder,
    Yuasa under a Gray holder, the hybrid barrier under either; the stored
    reference must be White. *)
Definition shades (b : Barrier) (holder child : Color) : bool :=
  match b, holder, child with
  | Dijkstra, Black, White => true
  | Yuasa, Gray, White => true
  | Hybrid, (Black | Gray), White => true
  | _, _, _ => false
  end.

(** The heap a barrier leaves, given the holder [o] and the reference [c]
    it found. *)
Definition barrierHeap (b : Barrier) (obj child : loc) (o c : Object)
    (h : gmap nat Object) : gmap nat Object :=
  <[obj := with_children (children o ++ [child]) o]>
    (if shades b (color o) (color c) then <[child := with_color Gray c]> h
     else h).

(** Modelled from the spec: the phases of the collector state machine
    (section 4.5) and the phases in which the barrier is meant to be active
    (section 4.4).  The source declares no phase and no phase flag: a barrier
    receives the holder and the reference and nothing else. *)
Inductive Phase := Idle | RootScan | ConcurrentMark | MarkTermination | Sweep.

Definition barrier_active (p : Phase) : bool :=
  match p with ConcurrentMark | MarkTermination => true | _ => false end.

(** [n] stores of the same reference into the same holder. *)
Fixpoint storeTimes (n : nat) (b : Barrier) (obj child : loc) : M unit :=
  match n with
  | 0 => ret tt
  | S n' => runBarrier b obj child;; storeTimes n' b obj child
  end.

(** ** Example heaps *)

(** The heap of the literal test of the specification: a root holding [A],
    both already Black, and an unreached White [B]. *)
Definition heapRAB : gmap nat Object :=
  list_to_map [(0, mkObject 10 Black [] [1]);
               (1, mkObject 11 Black [] []);
               (2, mkObject 12 White [] [])].

(** As [heapRAB], with a White object [C] that only [B] refers to. *)
Definition heapRABC : gmap nat Object :=
  list_to_map [(0, mkObject 10 Black [] [1]);
               (1, mkObject 11 Black [] []);
               (2, mkObject 12 White [] [3]);
               (3, mkObject 13 White [] [])].

(** A holder of the given colour whose only field holds a White object,
    and a second White object about to be stored. *)
Definition heapOld (holder : Color) : gmap nat Object :=
  list_to_map [(0, mkObject 1 holder [] [1]);
               (1, mkObject 2 White [] []);
               (2, mkObject 3 White [] [])].

(** Two objects that refer to each other. *)
Definition heapCycle : gmap nat Object :=
  list_to_map [(0, mkObject 1 White [] [1]);
               (1, mkObject 2 White [] [0])].

(** A Black object whose only child is a nil pointer. *)
Definition heapBlackNil : gmap nat Object :=
  list_to_map [(0, mkObject 1 Black [] [7])].

(** A root whose second child is a nil pointer. *)
Definition heapNil : gmap nat Object :=
  list_to_map [(0, mkObject 1 White [] [1; 7]);
               (1, mkObject 2 White [] [])].

(** The heap [createObjectGraph] builds from nothing; its root is at 0 and
    its orphan at 4. *)
Definition heapGraph : gmap nat Object := final (createObjectGraph ∅).

(** ** Further notions *)

(** The three phases [simulateThreeColorMarking] runs on the root it got
    from [createObjectGraph]: reset, mark, sweep. *)
Definition gcCycle (fuel : nat) (root : loc) : M unit :=
  initializeColors fuel root;;
  emit (EvBanner 1);;
  markPhase fuel root;;
  emit (EvBanner 2);;
  sweepPhase fuel root.

(** The strong tri-colour invariant: no Black object holds a White one. *)
Definition no_black_to_white (h : gmap nat Object) : Prop :=
  ∀ a oa b, h !! a = Some oa → color oa = Black → b ∈ children oa →
            colorAt h b ≠ Some White.

(** Every object that was White in [h] and no longer is in [h'] is Black in
    [h'] and holds no White child there. *)
Definition newly_black (h h' : gmap nat Object) : Prop :=
  ∀ a oa, h !! a = Some oa → color oa = White → colorAt h' a ≠ Some White →
          colorAt h' a = Some Black ∧
          ∀ b, b ∈ children oa → ∃ k, colorAt h' b = Some k ∧ k ≠ White.

(** A computation that prints no verdict of the sweeper. *)
Definition no_verdict {A} (m : M A) : Prop :=
  ∀ h, swept (trace (m h)) = [].

(** A computation that prints nothing. *)
Definition silent {A} (m : M A) : Prop :=
  ∀ h, trace (m h) = [].

(** The edges of the heap go down along [rk]: the graph is acyclic. *)
Definition ranked (rk : loc → nat) (h : gmap nat Object) : Prop :=
  ∀ a o b, h !! a = Some o → b ∈ children o → rk b < rk a.

(** A rank for the graph of [createObjectGraph]. *)
Definition graphRank (l : loc) : nat :=
  match l with 0 => 2 | 1 | 2 => 1 | _ => 0 end.

(** There is a path of [n] edges that starts at [a]. *)
Inductive walk (h : gmap nat Object) : loc → nat → Prop :=
| walk_O a : walk h a 0
| walk_S a o b n :
    h !! a = Some o → b ∈ children o → walk h b n → walk h a (S n).

(** [a] lies on a cycle. *)
Definition on_cycle (h : gmap nat Object) (a : loc) : Prop :=
  ∃ o b, h !! a = Some o ∧ b ∈ children o ∧ reach h b a.

(** ** The generational demonstration *)

(** [type Generation int] with [Young = iota], [Old]. *)
Inductive Generation := Young | Old.

#[global] Instance Generation_eq_dec : EqDecision Generation.
Proof. solve_decision. Defined.

(** [type GenObject struct { id int; generation Generation; age int;
    data []byte }] of [demonstrateGenerationalConcepts]; the fields [id] and
    [data] are [gid] and [gdata] here.  The slices [objects] and [alive]
    hold one pointer per object, so a list of records stands for them. *)
Record GenObject := mkGen {
  gid : Z;
  generation : Generation;
  age : Z;
  gdata : list byte
}.

(** A Go [int]: 64 bits, two's complement. *)
Definition wrap64 (z : Z) : Z := ((z + 2 ^ 63) mod 2 ^ 64 - 2 ^ 63)%Z.

(** [obj.id%7 != 0]: the object survives the cycle. *)
Definition survives (o : GenObject) : Prop := Z.rem (gid o) 7 ≠ 0%Z.

#[global] Instance survives_dec o : Decision (survives o).
Proof. unfold survives. apply _. Defined.

(** [obj.age++; if obj.age > 2 { obj.generation = Old }]. *)
Definition grow (o : GenObject) : GenObject :=
  let a := wrap64 (age o + 1) in
  mkGen (gid o) (if decide (2 < a)%Z then Old else generation o) a (gdata o).

(** One pass of the loop over [objects]: the slice [alive] it builds.  The
    slice holds distinct objects, as the one the demonstration allocates
    does, so the update in place through the pointers is a map. *)
Definition generationCycle (objects : list GenObject) : list GenObject :=
  grow <$> filter survives objects.

Definition youngCount (alive : list GenObject) : nat :=
  length (filter (λ o, generation o = Young) alive).

Definition oldCount (alive : list GenObject) : nat :=
  length (filter (λ o, generation o ≠ Young) alive).

(** What one cycle prints: its number, the survivors, the young and the old
    among them. *)
Record GenReport := mkGenReport {
  cycleNo : Z;
  aliveCount : nat;
  youngs : nat;
  olds : nat
}.

(** [n] more turns of the loop [for gcCycle := ...; gcCycle++]. *)
Fixpoint generationLoop (n : nat) (gcCycleNo : Z) (objects : list GenObject)
  : list GenReport :=
  match n with
  | 0 => []
  | S n' =>
    let alive := generationCycle objects in
    mkGenReport gcCycleNo (length alive) (youngCount alive) (oldCount alive)
      :: generationLoop n' (wrap64 (gcCycleNo + 1)) alive
  end.

(** The hundred objects the demonstration starts with. *)
Definition newObjects : list GenObject :=
  (λ i, mkGen (Z.of_nat i) Young 0 (replicate 1024 Byte.x00)) <$> seq 0 100.

Definition demonstrateGenerationalConcepts : list GenReport :=
  generationLoop 5 0 newObjects.

(** ** Basic facts *)

Lemma color_le_refl c : color_le c c.
Proof. unfold color_le. lia. Qed.

Lemma color_le_trans c d e : color_le c d → color_le d e → color_le c e.
Proof. unfold color_le. lia. Qed.

Lemma color_le_Black c : color_le c Black.
Proof. destruct c; unfold color_le; simpl; lia. Qed.

Lemma White_le c : color_le White c.
Proof. unfold color_le; simpl; lia. Qed.

#[global] Instance recolor_preorder : PreOrder recolor.
Proof.
  split.
  - intros o. by repeat split.
  - intros o1 o2 o3 (?&?&?) (?&?&?). repeat split; congruence.
Qed.

#[global] Instance fwd_preorder : PreOrder fwd.
Proof.
  split.
  - intros o. split; [reflexivity | apply color_le_refl].
  - intros o1 o2 o3 [? ?] [? ?]. split; [by etrans | by eapply color_le_trans].
Qed.

#[global] Instance colfwd_preorder : PreOrder colfwd.
Proof.
  split.
  - intros o. apply color_le_refl.
  - intros o1 o2 o3. apply color_le_trans.
Qed.

#[global] Instance keepNW_preorder : PreOrder keepNW.
Proof.
  split.
  - intros o H. exact H.
  - intros o1 o2 o3 H1 H2 H. apply H2, H1, H.
Qed.

#[global] Instance lift_preorder P `{!PreOrder P} : PreOrder (lift P).
Proof.
  split.
  - intros h l. destruct (h !! l); constructor. reflexivity.
  - intros h1 h2 h3 H12 H23 l. specialize (H12 l). specialize (H23 l).
    destruct H12; inversion H23; subst; constructor. by etrans.
Qed.

Lemma fwd_colfwd o o' : fwd o o' → colfwd o o'.
Proof. by intros [? ?]. Qed.

Lemma fwd_recolor o o' : fwd o o' → recolor o o'.
Proof. by intros [? ?]. Qed.

Lemma colfwd_keepNW o o' : colfwd o o' → keepNW o o'.
Proof.
  unfold colfwd, keepNW, color_le.
  destruct (color o), (color o'); simpl; intros; try done; lia.
Qed.

Lemma lift_impl (P Q : relation Object) h h' :
  (∀ o o', P o o' → Q o o') → lift P h h' → lift Q h h'.
Proof. intros HPQ H l. destruct (H l); constructor; auto. Qed.

Lemma lift_lookup P h h' l o :
  lift P h h' → h !! l = Some o → ∃ o', h' !! l = Some o' ∧ P o o'.
Proof. intros H Hl. specialize (H l). rewrite Hl in H. inversion H; eauto. Qed.

Lemma lift_lookup_r P h h' l o' :
  lift P h h' → h' !! l = Some o' → ∃ o, h !! l = Some o ∧ P o o'.
Proof. intros H Hl. specialize (H l). rewrite Hl in H. inversion H; eauto. Qed.

Lemma lift_insert P `{!Reflexive P} h l o o' :
  h !! l = Some o → P o o' → lift P h (<[l := o']> h).
Proof.
  intros Hl HP l'. destruct (decide (l = l')) as [<-|Hne].
  - rewrite lookup_insert_eq, Hl. by constructor.
  - rewrite lookup_insert_ne by done. destruct (h !! l'); by constructor.
Qed.

Lemma recolor_with_color c o : recolor o (with_color c o).
Proof. by repeat split. Qed.

(** ** Running the monad *)

(** A run that printed nothing reports no object. *)
Ltac no_events :=
  simpl; split; [constructor | by intros ? ?%elem_of_nil].


Lemma run_bind {A B} (m : M A) (f : A → M B) h :
  (m ≫= f) h = bind m f h.
Proof. reflexivity. Qed.

Lemma bind_Done {A B} (m : M A) (f : A → M B) h a :
  result (m h) = Done a →
  (m ≫= f) h =
  mkRun (result (f a (final (m h)))) (final (f a (final (m h))))
        (trace (m h) ++ trace (f a (final (m h)))).
Proof. intros H. rewrite run_bind. unfold bind. by rewrite H. Qed.

Section Preservation.
Context (R : relation (gmap nat Object)) `{!PreOrder R}.

Lemma pres_ret {A} (a : A) : pres R (ret a).
Proof. intros h. simpl. reflexivity. Qed.

Lemma pres_mret {A} (a : A) : pres R (mret a : M A).
Proof. apply pres_ret. Qed.

Lemma pres_timeout {A} : pres R (@timeout A).
Proof. intros h. simpl. reflexivity. Qed.

Lemma pres_emit e : pres R (emit e).
Proof. intros h. simpl. reflexivity. Qed.

Lemma pres_deref l : pres R (deref l).
Proof. intros h. unfold deref. destruct (h !! l); simpl; reflexivity. Qed.

Lemma pres_bind {A B} (m : M A) (f : A → M B) :
  pres R m → (∀ a, pres R (f a)) → pres R (m ≫= f).
Proof.
  intros Hm Hf h. rewrite run_bind. unfold bind.
  specialize (Hm h). destruct (result (m h)) as [a| |]; simpl; [|done..].
  etrans; [exact Hm | apply Hf].
Qed.

Lemma pres_forM {A} (body : A → M unit) xs :
  (∀ x, x ∈ xs → pres R (body x)) → pres R (forM_ body xs).
Proof.
  induction xs as [|x xs IH]; intros Hb; simpl.
  - apply pres_mret.
  - apply pres_bind; [apply Hb; left | intros _; apply IH].
    intros y Hy. apply Hb. by right.
Qed.

Lemma pres_foldM {A B} (body : B → A → M B) acc xs :
  (∀ b x, x ∈ xs → pres R (body b x)) → pres R (foldM body acc xs).
Proof.
  revert acc. induction xs as [|x xs IH]; intros acc Hb; simpl.
  - apply pres_mret.
  - apply pres_bind; [apply Hb; left | intros acc'; apply IH].
    intros b y Hy. apply Hb. by right.
Qed.
End Preservation.

Lemma pres_impl (R Q : relation (gmap nat Object)) {A} (m : M A) :
  (∀ h h', R h h' → Q h h') → pres R m → pres Q m.
Proof. intros HRQ Hm h. apply HRQ, Hm. Qed.

Lemma run_eta {A} (r : Run A) : mkRun (result r) (final r) (trace r) = r.
Proof. by destruct r. Qed.

Lemma bind_ret {A B} (a : A) (f : A → M B) h : (ret a ≫= f) h = f a h.
Proof. rewrite run_bind. unfold bind. simpl. apply run_eta. Qed.

Lemma bind_deref_Some {B} l o (f : Object → M B) h :
  h !! l = Some o → (deref l ≫= f) h = f o h.
Proof.
  intros Hl. rewrite run_bind. unfold bind, deref. rewrite Hl. simpl.
  apply run_eta.
Qed.

Lemma bind_deref_None {B} l (f : Object → M B) h :
  h !! l = None → (deref l ≫= f) h = mkRun Panic h [].
Proof. intros Hl. rewrite run_bind. unfold bind, deref. by rewrite Hl. Qed.

Lemma bind_set_color_Some {B} l c o (f : unit → M B) h :
  h !! l = Some o →
  (set_color l c ≫= f) h = f tt (<[l := with_color c o]> h).
Proof.
  intros Hl. rewrite run_bind. unfold bind, set_color. rewrite Hl. simpl.
  apply run_eta.
Qed.

Lemma bind_set_color_None {B} l c (f : unit → M B) h :
  h !! l = None → (set_color l c ≫= f) h = mkRun Panic h [].
Proof. intros Hl. rewrite run_bind. unfold bind, set_color. by rewrite Hl. Qed.

Lemma bind_emit {B} e (f : unit → M B) h :
  (emit e ≫= f) h =
  mkRun (result (f tt h)) (final (f tt h)) (e :: trace (f tt h)).
Proof. rewrite run_bind. unfold bind. reflexivity. Qed.

Lemma pres_set_color P `{!Reflexive P} l c :
  (∀ o, P o (with_color c o)) → pres (lift P) (set_color l c).
Proof.
  intros HP h. unfold set_color. destruct (h !! l) as [o|] eqn:Hl; simpl.
  - by eapply lift_insert.
  - intros l'. destruct (h !! l'); by constructor.
Qed.

(** ** The sweeper writes nothing *)

Lemma collectAll_frame fuel all obj : pres eq (collectAll fuel all obj).
Proof.
  revert all obj. induction fuel as [|fuel IH]; intros all obj; simpl.
  - apply pres_timeout; apply _.
  - apply pres_bind; [apply _ | apply pres_deref; apply _ |].
    intros o. apply pres_foldM; [apply _|]. intros b x _. apply IH.
Qed.

Lemma sweepPhase_frame fuel root : pres eq (sweepPhase fuel root).
Proof.
  unfold sweepPhase.
  apply pres_bind; [apply _ | apply pres_emit; apply _ |]. intros _.
  apply pres_bind; [apply _ | apply collectAll_frame |]. intros all.
  apply pres_forM; [apply _|]. intros x _. unfold reportObject.
  apply pres_bind; [apply _ | apply pres_deref; apply _ |]. intros o.
  apply pres_emit; apply _.
Qed.

(** ** Marking only moves colours forward *)

Lemma fwd_Black o : fwd o (with_color Black o).
Proof. split; [apply recolor_with_color | apply color_le_Black]. Qed.

Lemma fwd_White o c : color o = White → fwd o (with_color c o).
Proof.
  intros Hw. split; [apply recolor_with_color|].
  unfold color_le. rewrite Hw. simpl. lia.
Qed.

Lemma shadeChild_fwd g child : pres (lift fwd) (shadeChild g child).
Proof.
  intros h. unfold shadeChild.
  destruct (h !! child) as [c|] eqn:Hc.
  - rewrite (bind_deref_Some _ c) by done. case_decide as Hw.
    + rewrite (bind_set_color_Some _ _ c) by done. rewrite bind_emit. simpl.
      eapply lift_insert; [apply _ | done | by apply fwd_White].
    + simpl. reflexivity.
  - rewrite bind_deref_None by done. simpl. reflexivity.
Qed.

Lemma drain_fwd fuel g : pres (lift fwd) (drain fuel g).
Proof.
  revert g. induction fuel as [|fuel IH]; intros [|current rest]; simpl;
    try (apply pres_ret; apply _); try (apply pres_timeout; apply _).
  apply pres_bind; [apply _ | apply pres_deref; apply _ |]. intros cur.
  apply pres_bind; [apply _ | apply pres_emit; apply _ |]. intros _.
  apply pres_bind; [apply _ | |].
  { apply pres_foldM; [apply _|]. intros b x _. apply shadeChild_fwd. }
  intros g'.
  apply pres_bind; [apply _ | |].
  { apply pres_set_color; [apply _|]. apply fwd_Black. }
  intros _.
  apply pres_bind; [apply _ | apply pres_emit; apply _ |]. intros _.
  apply IH.
Qed.

Lemma markObject_fwd fuel obj : pres (lift fwd) (markObject fuel obj).
Proof.
  revert obj. induction fuel as [|fuel IH]; intros obj; simpl.
  - apply pres_timeout; apply _.
  - intros h. destruct (h !! obj) as [o|] eqn:Ho.
    + rewrite (bind_deref_Some _ o) by done. case_decide as Hw.
      * simpl. reflexivity.
      * assert (color o = White) as Hw' by (by destruct (color o)).
        revert h Ho.
        change (∀ h, h !! obj = Some o → lift fwd h
          (final ((set_color obj Gray;; emit (EvMarkGray obj (id o));;
                   forM_ (markObject fuel) (children o);;
                   set_color obj Black;; emit (EvMarkBlack obj (id o))) h))).
        intros h Ho. rewrite (bind_set_color_Some _ _ o) by done.
        etrans; [eapply (lift_insert fwd); [done | by apply (fwd_White o Gray)]|].
        apply pres_bind; [apply _ | apply pres_emit; apply _ |]. intros _.
        apply pres_bind; [apply _ | |].
        { apply pres_forM; [apply _|]. intros x _. apply IH. }
        intros _.
        apply pres_bind; [apply _ | |].
        { apply pres_set_color; [apply _|]. apply fwd_Black. }
        intros _. apply pres_emit; apply _.
    + rewrite bind_deref_None by done. simpl. reflexivity.
Qed.

(** ** What a barrier does *)

Lemma appendChild_run obj child o h :
  h !! obj = Some o →
  appendChild obj child h =
  mkRun (Done tt) (<[obj := with_children (children o ++ [child]) o]> h) [].
Proof.
  intros Ho. unfold appendChild. rewrite (bind_deref_Some _ o) by done.
  unfold set_children. by rewrite Ho.
Qed.

Lemma shaded_holder_lookup (obj child : loc) (o c : Object) (h : gmap nat Object) :
  h !! obj = Some o → h !! child = Some c → color o ≠ color c →
  <[child := with_color Gray c]> h !! obj = Some o.
Proof.
  intros Ho Hc Hne. rewrite lookup_insert_ne; [done|].
  intros ->. rewrite Ho in Hc. by simplify_eq.
Qed.

Lemma bind_assoc {A B C} (m : M A) (f : A → M B) (g : B → M C) h :
  ((m ≫= f) ≫= g) h = (m ≫= λ a, f a ≫= g) h.
Proof.
  unfold mbind, M_bind, bind.
  destruct (m h) as [[a| |] h1 t1]; simpl; try done.
  destruct (f a h1) as [[b'| |] h2 t2]; simpl; try done.
  by rewrite app_assoc.
Qed.

Lemma shade_then_append b hc obj child o c h :
  h !! obj = Some o → h !! child = Some c → color o ≠ color c →
  let r := ((set_color child Gray;; emit (EvShade b hc child (id c)));;
            appendChild obj child) h in
  result r = Done tt ∧
  final r = <[obj := with_children (children o ++ [child]) o]>
              (<[child := with_color Gray c]> h).
Proof.
  intros Ho Hc Hne. cbv zeta.
  rewrite bind_assoc, (bind_set_color_Some _ _ c) by done.
  rewrite bind_emit. simpl.
  by erewrite appendChild_run by (by apply shaded_holder_lookup).
Qed.

Lemma skip_then_append obj child o h :
  h !! obj = Some o →
  let r := (ret tt;; appendChild obj child) h in
  result r = Done tt ∧
  final r = <[obj := with_children (children o ++ [child]) o]> h.
Proof.
  intros Ho. cbv zeta. rewrite bind_ret. by erewrite appendChild_run by done.
Qed.

Lemma runBarrier_ok b obj child o c h :
  h !! obj = Some o → h !! child = Some c →
  result (runBarrier b obj child h) = Done tt ∧
  final (runBarrier b obj child h) = barrierHeap b obj child o c h.
Proof.
  intros Ho Hc. unfold barrierHeap.
  destruct b; simpl;
    [unfold dijkstraWriteBarrier | unfold yuasaWriteBarrier
    | unfold hybridWriteBarrier];
    rewrite (bind_deref_Some _ o) by done;
    rewrite (bind_deref_Some _ c) by done;
    rewrite bind_emit; simpl;
    repeat case_decide; destruct_and?.
  all: try match goal with
    | Ho' : color ?x = _, Hc' : color ?y = White |- _ =>
        rewrite Ho', Hc'; apply shade_then_append; [done|done|congruence]
    end.
  all: replace (if _ : bool then _ else h) with h;
    [by apply skip_then_append|];
    destruct (color o), (color c); naive_solver.
Qed.

Lemma runBarrier_panic b obj child h :
  h !! obj = None ∨ h !! child = None →
  result (runBarrier b obj child h) = Panic ∧
  final (runBarrier b obj child h) = h ∧
  trace (runBarrier b obj child h) = [].
Proof.
  intros Hn.
  destruct b; simpl;
    [unfold dijkstraWriteBarrier | unfold yuasaWriteBarrier
    | unfold hybridWriteBarrier];
    (destruct (h !! obj) as [o|] eqn:Ho;
     [ rewrite (bind_deref_Some _ o) by done;
       destruct Hn as [?|Hc]; [done|]; by rewrite bind_deref_None
     | by rewrite bind_deref_None ]).
Qed.

(** The colours a barrier leaves: only the stored reference can change, from
    White to Gray, and only when the colour test holds. *)
Lemma barrierHeap_color b obj child o c h l :
  h !! obj = Some o → h !! child = Some c →
  colorAt (barrierHeap b obj child o c h) l =
  if decide (l = child ∧ shades b (color o) (color c) = true)
  then Some Gray else colorAt h l.
Proof.
  intros Ho Hc. unfold barrierHeap, colorAt.
  destruct (shades b (color o) (color c)) eqn:Hs.
  - assert (color o ≠ color c) as Hne.
    { destruct b, (color o), (color c); simpl in Hs; done. }
    destruct (decide (l = obj)) as [->|Hlo].
    + rewrite lookup_insert_eq. simpl. rewrite Ho. simpl.
      case_decide as Hd; [|done]. destruct Hd as [-> _].
      rewrite Ho in Hc. by simplify_eq.
    + rewrite lookup_insert_ne by done.
      destruct (decide (l = child)) as [->|Hlc].
      * rewrite lookup_insert_eq. simpl. by rewrite decide_True.
      * rewrite lookup_insert_ne by done.
        rewrite decide_False; [done | by intros [? _]].
  - rewrite decide_False by (by intros [_ ?]).
    destruct (decide (l = obj)) as [->|Hlo].
    + rewrite lookup_insert_eq. by rewrite Ho.
    + by rewrite lookup_insert_ne.
Qed.

(** ** Counting White objects *)

Lemma size_delete_S {A} (m : gmap nat A) i x :
  m !! i = Some x → size m = S (size (delete i m)).
Proof.
  intros Hi. rewrite <- (insert_delete_id m i x) at 1 by done.
  apply map_size_insert_None, lookup_delete_eq.
Qed.

Lemma whites_le_size h : whites h ≤ size h.
Proof. apply map_subseteq_size, map_filter_subseteq. Qed.

Lemma whites_lt_size h l o :
  h !! l = Some o → color o ≠ White → whites h < size h.
Proof.
  intros Hl Hc. unfold whites.
  rewrite <- (map_filter_delete_not _ h l).
  - pose proof (map_subseteq_size _ _
      (map_filter_subseteq (λ p : nat * Object, color p.2 = White) (delete l h))).
    rewrite (size_delete_S h l o) by done. lia.
  - intros y Hy. simpl. congruence.
Qed.

Lemma whites_shade h l o c :
  h !! l = Some o → color o = White → c ≠ White →
  S (whites (<[l := with_color c o]> h)) = whites h.
Proof.
  intros Hl Hw Hc. unfold whites.
  rewrite map_filter_insert_False by done.
  rewrite map_filter_delete.
  symmetry. eapply size_delete_S. apply map_lookup_filter_Some. split; done.
Qed.

Lemma whites_keepNW h h' : lift keepNW h h' → whites h' ≤ whites h.
Proof.
  intros H. unfold whites. rewrite <- !size_dom.
  apply subseteq_size. intros l. rewrite !elem_of_dom.
  intros [o' Ho']. apply map_lookup_filter_Some in Ho' as [Ho' Hw]. simpl in Hw.
  destruct (lift_lookup_r _ _ _ _ _ H Ho') as (o & Ho & Hk).
  exists o. apply map_lookup_filter_Some. split; [done|]. simpl.
  destruct (decide (color o = White)) as [|Hn]; [done|]. by apply Hk in Hn.
Qed.

Lemma lift_fwd_keepNW h h' : lift fwd h h' → lift keepNW h h'.
Proof. apply lift_impl. intros o o' H. by apply colfwd_keepNW, fwd_colfwd. Qed.

Lemma lift_fwd_colfwd h h' : lift fwd h h' → lift colfwd h h'.
Proof. apply lift_impl, fwd_colfwd. Qed.

Lemma lift_fwd_recolor h h' : lift fwd h h' → lift recolor h h'.
Proof. apply lift_impl, fwd_recolor. Qed.

Lemma lift_size P h h' : lift P h h' → size h' = size h.
Proof.
  intros H. rewrite <- !size_dom. f_equal. apply set_eq. intros l.
  rewrite !elem_of_dom. specialize (H l). destruct H; split; intros [? ?]; done.
Qed.

Lemma colorAt_Some h l c :
  colorAt h l = Some c ↔ ∃ o, h !! l = Some o ∧ color o = c.
Proof.
  unfold colorAt. destruct (h !! l) as [o|]; simpl; split.
  - intros [= <-]. eauto.
  - intros (o' & [= <-] & <-). done.
  - done.
  - intros (? & ? & _). done.
Qed.

Lemma colorAt_insert h l l' o :
  colorAt (<[l := o]> h) l' = if decide (l = l') then Some (color o) else colorAt h l'.
Proof.
  unfold colorAt. case_decide as Hd.
  - subst. by rewrite lookup_insert_eq.
  - by rewrite lookup_insert_ne.
Qed.

Lemma fwd_colorAt_Black h h' l :
  lift fwd h h' → colorAt h l = Some Black → colorAt h' l = Some Black.
Proof.
  intros H Hb. apply colorAt_Some in Hb as (o & Ho & Hc).
  destruct (lift_lookup _ _ _ _ _ H Ho) as (o' & Ho' & _ & Hle).
  apply colorAt_Some. exists o'. split; [done|].
  unfold color_le in Hle. rewrite Hc in Hle. destruct (color o'); simpl in *; [lia..|done].
Qed.

Lemma fwd_colorAt_nonWhite h h' l :
  lift fwd h h' → is_Some (h !! l) → colorAt h l ≠ Some White →
  colorAt h' l ≠ Some White.
Proof.
  intros H [o Ho] Hn Hw. apply colorAt_Some in Hw as (o' & Ho' & Hc').
  destruct (lift_lookup _ _ _ _ _ H Ho) as (o'' & Ho'' & _ & Hle).
  simplify_eq. apply Hn, colorAt_Some. exists o. split; [done|].
  unfold color_le in Hle. rewrite Hc' in Hle. destruct (color o); simpl in *; [done|lia..].
Qed.

(** ** Scanning the children of one object *)

Lemma shadeChild_run g child h :
  shadeChild g child h =
  match h !! child with
  | None => mkRun Panic h []
  | Some c =>
    if decide (color c = White)
    then mkRun (Done (g ++ [child])) (<[child := with_color Gray c]> h)
               [EvChildGray child (id c)]
    else mkRun (Done g) h []
  end.
Proof.
  unfold shadeChild. destruct (h !! child) as [c|] eqn:Hc.
  - rewrite (bind_deref_Some _ c) by done. case_decide; [|done].
    rewrite (bind_set_color_Some _ _ c) by done. by rewrite bind_emit.
  - by rewrite bind_deref_None.
Qed.

Lemma scan_spec cs g h :
  let r := foldM shadeChild g cs h in
  result r ≠ OutOfFuel ∧
  processed (trace r) = [] ∧
  ((∀ c, c ∈ cs → is_Some (h !! c)) → result r ≠ Panic) ∧
  ∀ g', result r = Done g' →
    ∃ new, g' = g ++ new ∧ NoDup new ∧
      (∀ l, l ∈ new ↔ l ∈ cs ∧ colorAt h l = Some White) ∧
      (∀ l, colorAt (final r) l =
            if decide (l ∈ new) then Some Gray else colorAt h l) ∧
      whites (final r) + length new = whites h.
Proof.
  revert g h. induction cs as [|c cs IH]; intros g h; cbv zeta.
  - simpl. split_and!; try done. intros g' [= <-]. exists [].
    split_and!; [by rewrite app_nil_r | constructor | | | simpl; lia].
    + intros l. split; [by intros ?%elem_of_nil | by intros [?%elem_of_nil _]].
    + intros l. rewrite decide_False; [done | apply not_elem_of_nil].
  - change (foldM shadeChild g (c :: cs) h)
      with ((shadeChild g c ≫= λ acc', foldM shadeChild acc' cs) h).
    rewrite run_bind. unfold bind. rewrite shadeChild_run.
    destruct (h !! c) as [oc|] eqn:Hc; simpl.
    2:{ split_and!; try done. intros Hall.
        destruct (Hall c) as [? ?]; [left | congruence]. }
    case_decide as Hw; simpl.
    + set (h1 := <[c := with_color Gray oc]> h).
      destruct (IH (g ++ [c]) h1) as (IH1 & IH2 & IH3 & IH4).
      assert (∀ l, colorAt h1 l = if decide (c = l) then Some Gray else colorAt h l)
        as Hcol by (intros l; unfold h1; apply colorAt_insert).
      split_and!; [done | done | |].
      * intros Hall. apply IH3. intros c' Hc'. unfold h1.
        destruct (decide (c = c')) as [<-|Hne].
        -- rewrite lookup_insert_eq. eauto.
        -- rewrite lookup_insert_ne by done. apply Hall. by right.
      * intros g' Hg'. destruct (IH4 g' Hg') as (new & -> & Hnd & Hin & Hc' & Hwh).
        assert (c ∉ new) as Hcn.
        { intros Hcin. apply Hin in Hcin as [_ Hcw]. rewrite Hcol in Hcw.
          by rewrite decide_True in Hcw. }
        exists (c :: new). split_and!.
        -- by rewrite <- app_assoc.
        -- by constructor.
        -- intros l. rewrite elem_of_cons, Hin, Hcol. split.
           ++ intros [->|[Hl Hlw]].
              ** split; [left|]. apply colorAt_Some. eauto.
              ** case_decide; [done|]. split; [by right | done].
           ++ intros [[->|Hl]%elem_of_cons Hlw]; [by left|].
              destruct (decide (l = c)) as [->|Hne]; [by left|].
              right. split; [done|]. by rewrite decide_False.
        -- intros l. rewrite Hc', Hcol.
           destruct (decide (l = c)) as [->|Hne].
           ++ rewrite (decide_True (P := c ∈ c :: new)) by left.
              rewrite decide_False by done. by rewrite decide_True.
           ++ rewrite (decide_False (P := c = l)) by done.
              destruct (decide (l ∈ new)).
              ** rewrite decide_True; [done | by right].
              ** rewrite decide_False; [done|]. by intros [?|?]%elem_of_cons.
        -- simpl. pose proof (whites_shade h c oc Gray Hc Hw). fold h1 in H.
           specialize (H ltac:(done)). lia.
    + destruct (IH g h) as (IH1 & IH2 & IH3 & IH4).
      split_and!; [done | done | |].
      * intros Hall. apply IH3. intros c' Hc'. apply Hall. by right.
      * intros g' Hg'. destruct (IH4 g' Hg') as (new & -> & Hnd & Hin & Hc' & Hwh).
        exists new. split_and!; [done | done | | done | done].
        intros l. rewrite Hin, elem_of_cons.
        split; [intros [? ?]; split; [by right | done]|].
        intros [[->|Hl] Hlw]; [|done].
        apply colorAt_Some in Hlw as (o' & Ho' & Hw'). congruence.
Qed.

(** ** One iteration of the marking loop *)

Lemma drain_nil fuel h : drain fuel [] h = mkRun (Done tt) h [].
Proof. by destruct fuel. Qed.

Lemma drain_nil_pointer fuel current rest h :
  h !! current = None →
  drain (S fuel) (current :: rest) h = mkRun Panic h [].
Proof. intros Hc. simpl. by rewrite bind_deref_None. Qed.

Lemma drain_step fuel current rest h cur :
  h !! current = Some cur →
  let r1 := foldM shadeChild rest (children cur) h in
  drain (S fuel) (current :: rest) h =
  match result r1 with
  | Done g' =>
    match final r1 !! current with
    | Some o' =>
      let r2 := drain fuel g' (<[current := with_color Black o']> (final r1)) in
      mkRun (result r2) (final r2)
            (EvProcess current (id cur) ::
             trace r1 ++ EvBlack current (id cur) :: trace r2)
    | None => mkRun Panic (final r1) (EvProcess current (id cur) :: trace r1)
    end
  | Panic => mkRun Panic (final r1) (EvProcess current (id cur) :: trace r1)
  | OutOfFuel =>
    mkRun OutOfFuel (final r1) (EvProcess current (id cur) :: trace r1)
  end.
Proof.
  intros Hc. cbv zeta. simpl drain.
  rewrite (bind_deref_Some _ cur) by done. rewrite bind_emit.
  rewrite run_bind. unfold bind.
  destruct (result (foldM shadeChild rest (children cur) h)) as [g'| |];
    simpl; [|done..].
  destruct (final (foldM shadeChild rest (children cur) h) !! current)
    as [o'|] eqn:Ho'.
  - rewrite (bind_set_color_Some _ _ o') by done. by rewrite bind_emit.
  - rewrite bind_set_color_None by done. simpl. by rewrite app_nil_r.
Qed.

Lemma whites_blacken h l o :
  h !! l = Some o → whites (<[l := with_color Black o]> h) ≤ whites h.
Proof.
  intros Hl. apply whites_keepNW.
  eapply lift_insert; [apply _ | done | done].
Qed.

(** The loop stops within [whites h + length g] iterations. *)
Lemma drain_no_timeout fuel g h :
  whites h + length g ≤ fuel → result (drain fuel g h) ≠ OutOfFuel.
Proof.
  revert g h. induction fuel as [|fuel IH]; intros [|current rest] h Hf;
    try (by rewrite drain_nil); simpl in Hf; [lia|].
  destruct (h !! current) as [cur|] eqn:Hc.
  2:{ by rewrite drain_nil_pointer. }
  rewrite (drain_step _ _ _ _ cur) by done. cbv zeta.
  destruct (scan_spec (children cur) rest h) as (Hnt & _ & _ & Hd).
  destruct (result (foldM shadeChild rest (children cur) h)) as [g'| |];
    [|done..].
  destruct (Hd g' eq_refl) as (new & -> & _ & _ & _ & Hw).
  destruct (final (foldM shadeChild rest (children cur) h) !! current)
    as [o'|] eqn:Ho'; [|done].
  simpl. apply IH. pose proof (whites_blacken _ _ _ Ho').
  rewrite length_app. lia.
Qed.

Lemma drain_head_Black fuel current rest h :
  result (drain fuel (current :: rest) h) = Done tt →
  colorAt (final (drain fuel (current :: rest) h)) current = Some Black.
Proof.
  destruct fuel as [|fuel]; [done|].
  destruct (h !! current) as [cur|] eqn:Hc.
  2:{ by rewrite drain_nil_pointer. }
  rewrite (drain_step _ _ _ _ cur) by done. cbv zeta.
  destruct (result (foldM shadeChild rest (children cur) h)) as [g'| |];
    [|done..].
  destruct (final (foldM shadeChild rest (children cur) h) !! current)
    as [o'|] eqn:Ho'; [|done].
  simpl. intros _. eapply fwd_colorAt_Black; [apply drain_fwd|].
  by rewrite colorAt_insert, decide_True.
Qed.

(** ** The marking phase *)

Lemma markPhase_nil_pointer fuel root h :
  h !! root = None → markPhase fuel root h = mkRun Panic h [].
Proof. intros Hr. unfold markPhase. by rewrite bind_set_color_None. Qed.

Lemma markPhase_run fuel root o h :
  h !! root = Some o →
  let r := drain fuel [root] (<[root := with_color Gray o]> h) in
  markPhase fuel root h =
  mkRun (result r) (final r)
        (EvMarkStart root (id o) :: trace r ++
         match result r with Done _ => [EvMarkDone] | _ => [] end).
Proof.
  intros Hr. cbv zeta. unfold markPhase.
  rewrite (bind_set_color_Some _ _ o) by done.
  rewrite (bind_deref_Some _ (with_color Gray o)) by apply lookup_insert_eq.
  rewrite bind_emit. simpl. rewrite run_bind. unfold bind.
  destruct (result (drain fuel [root] (<[root:=with_color Gray o]> h)))
    as [[]| |]; simpl; by rewrite ?app_nil_r.
Qed.

Lemma markPhase_keepNW fuel root : pres (lift keepNW) (markPhase fuel root).
Proof.
  intros h. destruct (h !! root) as [o|] eqn:Hr.
  - rewrite (markPhase_run _ _ o) by done. simpl.
    etrans; [apply (lift_insert keepNW h root o (with_color Gray o));
             [done | by intros ?]|].
    apply lift_fwd_keepNW, drain_fwd.
  - rewrite markPhase_nil_pointer by done. simpl. reflexivity.
Qed.

Lemma markPhase_recolor fuel root : pres (lift recolor) (markPhase fuel root).
Proof.
  intros h. destruct (h !! root) as [o|] eqn:Hr.
  - rewrite (markPhase_run _ _ o) by done. simpl.
    etrans; [apply (lift_insert recolor h root o (with_color Gray o));
             [done | apply recolor_with_color]|].
    apply lift_fwd_recolor, drain_fwd.
  - rewrite markPhase_nil_pointer by done. simpl. reflexivity.
Qed.

(** A completed marking phase has moved no colour backwards: the root, which
    line [root.color = Gray] writes whatever its colour, ends Black. *)
Lemma markPhase_fwd_Done fuel root h :
  result (markPhase fuel root h) = Done tt →
  lift fwd h (final (markPhase fuel root h)).
Proof.
  destruct (h !! root) as [o|] eqn:Hr.
  2:{ by rewrite markPhase_nil_pointer. }
  rewrite (markPhase_run _ _ o) by done. simpl. intros Hd.
  pose proof (drain_fwd fuel [root] (<[root:=with_color Gray o]> h)) as Hf.
  pose proof (drain_head_Black _ _ _ _ Hd) as Hb.
  intros l. specialize (Hf l). destruct (decide (root = l)) as [<-|Hne].
  - rewrite lookup_insert_eq in Hf. rewrite Hr.
    apply colorAt_Some in Hb as (o' & Ho' & Hc'). rewrite Ho' in Hf |- *.
    inversion Hf as [? ? [Hrc _]|]; subst. constructor. split.
    + etrans; [apply (recolor_with_color Gray)|done].
    + rewrite Hc'. apply color_le_Black.
  - by rewrite lookup_insert_ne in Hf.
Qed.

(** ** Barriers and colours *)

Lemma runBarrier_colfwd b obj child : pres (lift colfwd) (runBarrier b obj child).
Proof.
  intros h.
  destruct (h !! obj) as [o|] eqn:Ho; [destruct (h !! child) as [c|] eqn:Hc|].
  - destruct (runBarrier_ok b obj child o c h Ho Hc) as [_ ->].
    unfold barrierHeap. destruct (shades b (color o) (color c)) eqn:Hs.
    + assert (color c = White ∧ color o ≠ color c) as [Hw Hne].
      { destruct b, (color o), (color c); simpl in Hs; done. }
      etrans.
      * apply (lift_insert colfwd h child c (with_color Gray c)); [done|].
        unfold colfwd. rewrite Hw. apply White_le.
      * eapply lift_insert; [apply _ | by apply shaded_holder_lookup|].
        apply color_le_refl.
    + eapply lift_insert; [apply _ | done | apply color_le_refl].
  - destruct (runBarrier_panic b obj child h) as (_ & -> & _); [by right|].
    reflexivity.
  - destruct (runBarrier_panic b obj child h) as (_ & -> & _); [by left|].
    reflexivity.
Qed.

Lemma lift_colfwd_keepNW h h' : lift colfwd h h' → lift keepNW h h'.
Proof. apply lift_impl, colfwd_keepNW. Qed.

Lemma runOp_keepNW op : pres (lift keepNW) (runOp op).
Proof.
  destruct op as [fuel root|fuel obj|obj child|obj child|obj child]; simpl.
  - apply markPhase_keepNW.
  - eapply pres_impl; [apply lift_fwd_keepNW | apply markObject_fwd].
  - eapply pres_impl; [apply lift_colfwd_keepNW|].
    apply (runBarrier_colfwd Dijkstra).
  - eapply pres_impl; [apply lift_colfwd_keepNW|].
    apply (runBarrier_colfwd Yuasa).
  - eapply pres_impl; [apply lift_colfwd_keepNW|].
    apply (runBarrier_colfwd Hybrid).
Qed.

(** Started on a root that is not Black, the marking phase moves no colour
    backwards, wherever it stops. *)
Lemma markPhase_fwd_fresh_root fuel root h :
  colorAt h root ≠ Some Black → lift fwd h (final (markPhase fuel root h)).
Proof.
  intros Hnb. destruct (h !! root) as [o|] eqn:Hr.
  2:{ rewrite markPhase_nil_pointer by done. reflexivity. }
  rewrite (markPhase_run _ _ o) by done. simpl.
  etrans; [|apply drain_fwd].
  apply (lift_insert fwd h root o (with_color Gray o)); [done|].
  split; [apply recolor_with_color|].
  unfold colorAt in Hnb. rewrite Hr in Hnb. simpl in Hnb.
  unfold color_le. destruct (color o); simpl; [lia | lia | done].
Qed.

Lemma runOp_colfwd op h :
  result (runOp op h) = Done tt ∨ ¬ regrays op h →
  lift colfwd h (final (runOp op h)).
Proof.
  destruct op as [fuel root|fuel obj|obj child|obj child|obj child]; simpl;
    intros Hd.
  - apply lift_fwd_colfwd. destruct Hd as [Hd|Hd].
    + by apply markPhase_fwd_Done.
    + by apply markPhase_fwd_fresh_root.
  - apply lift_fwd_colfwd, markObject_fwd.
  - apply (runBarrier_colfwd Dijkstra).
  - apply (runBarrier_colfwd Yuasa).
  - apply (runBarrier_colfwd Hybrid).
Qed.

Lemma runBarrier_colorAt b obj child o c h l :
  h !! obj = Some o → h !! child = Some c →
  colorAt (final (runBarrier b obj child h)) l =
  if decide (l = child ∧ shades b (color o) (color c) = true)
  then Some Gray else colorAt h l.
Proof.
  intros Ho Hc. destruct (runBarrier_ok b obj child o c h Ho Hc) as [_ ->].
  by apply barrierHeap_color.
Qed.

Lemma barrierHeap_holder b obj child o c h :
  barrierHeap b obj child o c h !! obj =
  Some (with_children (children o ++ [child]) o).
Proof. unfold barrierHeap. apply lookup_insert_eq. Qed.

Lemma runBarrier_childrenAt b obj child o c h :
  h !! obj = Some o → h !! child = Some c →
  childrenAt (final (runBarrier b obj child h)) obj = children o ++ [child].
Proof.
  intros Ho Hc. destruct (runBarrier_ok b obj child o c h Ho Hc) as [_ ->].
  unfold childrenAt. by rewrite barrierHeap_holder.
Qed.

Lemma shades_White_child b co cc : shades b co cc = true → cc = White ∧ co ≠ cc.
Proof. destruct b, co, cc; simpl; done. Qed.

Lemma shades_not_White b co cc : cc ≠ White → shades b co cc = false.
Proof. destruct b, co, cc; simpl; done. Qed.

(** After a store, the reference is no longer White under a holder that
    shades, so the colour test of a repeated store fails. *)
Lemma barrierHeap_settled b obj child o c h :
  h !! obj = Some o → h !! child = Some c →
  ∃ o1 c1, barrierHeap b obj child o c h !! obj = Some o1 ∧
           barrierHeap b obj child o c h !! child = Some c1 ∧
           children o1 = children o ++ [child] ∧
           shades b (color o1) (color c1) = false.
Proof.
  intros Ho Hc. exists (with_children (children o ++ [child]) o).
  rewrite barrierHeap_holder.
  pose proof (barrierHeap_color b obj child o c h child Ho Hc) as Hcol.
  unfold colorAt in Hcol.
  destruct (barrierHeap b obj child o c h !! child) as [c1|] eqn:Hc1.
  2:{ simpl in Hcol. rewrite Hc in Hcol. by case_decide. }
  exists c1. split_and!; [done..|]. simpl in Hcol. rewrite Hc in Hcol.
  simpl in Hcol. case_decide as Hd.
  - apply shades_not_White. injection Hcol as ->. done.
  - injection Hcol as ->. destruct (shades b (color o) (color c)) eqn:Hs; [|done].
    naive_solver.
Qed.

Lemma storeTimes_settled b obj child n h o c :
  h !! obj = Some o → h !! child = Some c →
  shades b (color o) (color c) = false →
  result (storeTimes n b obj child h) = Done tt ∧
  (∀ l, colorAt (final (storeTimes n b obj child h)) l = colorAt h l) ∧
  childrenAt (final (storeTimes n b obj child h)) obj =
    children o ++ replicate n child.
Proof.
  revert h o c. induction n as [|n IH]; intros h o c Ho Hc Hs.
  - simpl. unfold childrenAt. rewrite Ho. simpl. by rewrite app_nil_r.
  - change (storeTimes (S n) b obj child)
      with (runBarrier b obj child ≫= λ _, storeTimes n b obj child).
    destruct (runBarrier_ok b obj child o c h Ho Hc) as [Hr Hf].
    rewrite (bind_Done _ _ _ tt) by done. simpl.
    destruct (barrierHeap_settled b obj child o c h Ho Hc)
      as (o1 & c1 & Ho1 & Hc1 & Hch & Hs1).
    rewrite <- Hf in Ho1, Hc1.
    destruct (IH _ o1 c1 Ho1 Hc1 Hs1) as (IH1 & IH2 & IH3).
    split_and!; [done | |].
    + intros l. rewrite IH2, (runBarrier_colorAt b obj child o c) by done.
      rewrite decide_False; [done|]. intros [_ ?]. congruence.
    + rewrite IH3, Hch, <- app_assoc. done.
Qed.

(** ** Properties of the write barriers *)

(** C2, as the code has it: the hybrid barrier shades only the reference
    being stored, and only under a Black or a Gray holder; every other
    object, whatever the holder's fields held before, keeps its colour, and
    the store appends to the holder's children without overwriting any. *)
Theorem hybrid_shades_new_value_only obj child o c h :
  h !! obj = Some o → h !! child = Some c →
  result (hybridWriteBarrier obj child h) = Done tt ∧
  (∀ l, l ≠ child →
        colorAt (final (hybridWriteBarrier obj child h)) l = colorAt h l) ∧
  colorAt (final (hybridWriteBarrier obj child h)) child =
    (if decide ((color o = Black ∨ color o = Gray) ∧ color c = White)
     then Some Gray else Some (color c)) ∧
  childrenAt (final (hybridWriteBarrier obj child h)) obj =
    children o ++ [child].
Proof.
  intros Ho Hc.
  destruct (runBarrier_ok Hybrid obj child o c h Ho Hc) as [Hr _].
  split_and!; [done | | |].
  - intros l Hl. rewrite (runBarrier_colorAt Hybrid obj child o c) by done.
    rewrite decide_False; [done | by intros [? _]].
  - rewrite (runBarrier_colorAt Hybrid obj child o c) by done.
    unfold colorAt. rewrite Hc. simpl.
    destruct (color o), (color c); simpl; repeat case_decide;
      destruct_and?; destruct_or?; try done; exfalso; intuition congruence.
  - by apply (runBarrier_childrenAt Hybrid obj child o c).
Qed.

Lemma hybrid_shades_new_value_only_witness :
  heapOld Gray !! 0 = Some (mkObject 1 Gray [] [1]) ∧
  heapOld Gray !! 2 = Some (mkObject 3 White [] []) ∧
  colorAt (final (hybridWriteBarrier 0 2 (heapOld Gray))) 1 = Some White ∧
  colorAt (final (hybridWriteBarrier 0 2 (heapOld Gray))) 2 = Some Gray ∧
  childrenAt (final (hybridWriteBarrier 0 2 (heapOld Gray))) 0 = [1; 2].
Proof.
  assert (heapOld Gray !! 0 = Some (mkObject 1 Gray [] [1])) as H0
    by reflexivity.
  assert (heapOld Gray !! 2 = Some (mkObject 3 White [] [])) as H2
    by reflexivity.
  destruct (hybrid_shades_new_value_only 0 2 _ _ (heapOld Gray) H0 H2)
    as (_ & Hother & Hnew & Hch).
  split_and!; [done | done | | exact Hnew | exact Hch].
  rewrite (Hother 1) by lia. reflexivity.
Defined.

(** The hybrid barrier does not shade the value a field of the holder held
    before the store: under a White holder it shades nothing at all, and
    under a Black holder it shades the new value and leaves the old one
    White. *)
Lemma hybrid_leaves_old_value_white :
  childrenAt (heapOld White) 0 = [1] ∧
  colorAt (heapOld White) 1 = Some White ∧
  result (hybridWriteBarrier 0 2 (heapOld White)) = Done tt ∧
  colorAt (final (hybridWriteBarrier 0 2 (heapOld White))) 1 = Some White ∧
  colorAt (final (hybridWriteBarrier 0 2 (heapOld White))) 2 = Some White ∧
  colorAt (final (hybridWriteBarrier 0 2 (heapOld Black))) 1 = Some White ∧
  colorAt (final (hybridWriteBarrier 0 2 (heapOld Black))) 2 = Some Gray ∧
  childrenAt (final (hybridWriteBarrier 0 2 (heapOld Black))) 0 = [1; 2].
Proof. vm_compute. repeat split. Qed.


(** C7, as the code has it: a barrier leaves every colour as it was exactly
    when its colour test fails; nothing else is consulted. *)
Theorem barrier_noop_iff_test_fails b obj child o c h :
  h !! obj = Some o → h !! child = Some c →
  (∀ l, colorAt (final (runBarrier b obj child h)) l = colorAt h l) ↔
  shades b (color o) (color c) = false.
Proof.
  intros Ho Hc. split.
  - intros Hall. specialize (Hall child).
    rewrite (runBarrier_colorAt b obj child o c) in Hall by done.
    destruct (shades b (color o) (color c)) eqn:Hs; [|done].
    rewrite decide_True in Hall by done.
    apply shades_White_child in Hs as [Hw _].
    unfold colorAt in Hall. rewrite Hc in Hall. simpl in Hall. congruence.
  - intros Hs l. rewrite (runBarrier_colorAt b obj child o c) by done.
    rewrite decide_False; [done|]. intros [_ ?]. congruence.
Qed.

Lemma barrier_noop_iff_test_fails_witness :
  heapOld White !! 0 = Some (mkObject 1 White [] [1]) ∧
  heapOld White !! 2 = Some (mkObject 3 White [] []) ∧
  ((∀ l, colorAt (final (runBarrier Dijkstra 0 2 (heapOld White))) l =
         colorAt (heapOld White) l) ↔
   shades Dijkstra White White = false).
Proof.
  split_and!; [reflexivity | reflexivity |].
  apply (barrier_noop_iff_test_fails Dijkstra 0 2
           (mkObject 1 White [] [1]) (mkObject 3 White [] []) (heapOld White));
    reflexivity.
Defined.

(** Every barrier variant changes a colour in a phase in which the barrier
    is meant to be inactive: the code reads no phase. *)
Lemma barrier_acts_when_inactive :
  barrier_active Idle = false ∧ barrier_active Sweep = false ∧
  colorAt heapRAB 2 = Some White ∧
  colorAt (final (dijkstraWriteBarrier 1 2 heapRAB)) 2 = Some Gray ∧
  colorAt (heapOld Gray) 2 = Some White ∧
  colorAt (final (yuasaWriteBarrier 0 2 (heapOld Gray))) 2 = Some Gray ∧
  colorAt (heapOld Black) 2 = Some White ∧
  colorAt (final (hybridWriteBarrier 0 2 (heapOld Black))) 2 = Some Gray.
Proof. vm_compute. repeat split. Qed.

(** C8, as the code has it: storing the same reference again changes no
    colour, so the reference is promoted at most once, but every store
    appends the reference to the holder's children once more. *)
Theorem repeated_store_colours_and_children b obj child o c h n :
  h !! obj = Some o → h !! child = Some c →
  result (storeTimes (S n) b obj child h) = Done tt ∧
  (∀ l, colorAt (final (storeTimes (S n) b obj child h)) l =
        colorAt (final (runBarrier b obj child h)) l) ∧
  childrenAt (final (storeTimes (S n) b obj child h)) obj =
    children o ++ replicate (S n) child.
Proof.
  intros Ho Hc.
  change (storeTimes (S n) b obj child)
    with (runBarrier b obj child ≫= λ _, storeTimes n b obj child).
  destruct (runBarrier_ok b obj child o c h Ho Hc) as [Hr Hf].
  rewrite (bind_Done _ _ _ tt) by done. simpl.
  destruct (barrierHeap_settled b obj child o c h Ho Hc)
    as (o1 & c1 & Ho1 & Hc1 & Hch & Hs1).
  rewrite <- Hf in Ho1, Hc1.
  destruct (storeTimes_settled b obj child n _ o1 c1 Ho1 Hc1 Hs1)
    as (H1 & H2 & H3).
  split_and!; [done | done |].
  rewrite H3, Hch, <- app_assoc. done.
Qed.

Lemma repeated_store_colours_and_children_witness :
  heapRAB !! 1 = Some (mkObject 11 Black [] []) ∧
  heapRAB !! 2 = Some (mkObject 12 White [] []) ∧
  colorAt (final (storeTimes 3 Dijkstra 1 2 heapRAB)) 2 =
    colorAt (final (runBarrier Dijkstra 1 2 heapRAB)) 2 ∧
  childrenAt (final (storeTimes 3 Dijkstra 1 2 heapRAB)) 1 = [2; 2; 2].
Proof.
  assert (heapRAB !! 1 = Some (mkObject 11 Black [] [])) as H1 by reflexivity.
  assert (heapRAB !! 2 = Some (mkObject 12 White [] [])) as H2 by reflexivity.
  destruct (repeated_store_colours_and_children Dijkstra 1 2 _ _ heapRAB 2 H1 H2)
    as (_ & Hcol & Hch).
  split_and!; [done | done | apply Hcol | exact Hch].
Defined.

(** Two stores of the same reference do not leave the heap one store
    leaves: the holder's children have grown by a second entry. *)
Lemma second_store_grows_children :
  childrenAt heapRAB 1 = [] ∧
  childrenAt (final (dijkstraWriteBarrier 1 2 heapRAB)) 1 = [2] ∧
  childrenAt (final ((dijkstraWriteBarrier 1 2;; dijkstraWriteBarrier 1 2)
                       heapRAB)) 1 = [2; 2] ∧
  final ((dijkstraWriteBarrier 1 2;; dijkstraWriteBarrier 1 2) heapRAB) ≠
  final (dijkstraWriteBarrier 1 2 heapRAB).
Proof.
  split_and!; [by vm_compute..|].
  intros Heq. apply (f_equal (λ h, childrenAt h 1)) in Heq.
  vm_compute in Heq. discriminate.
Qed.

(** ** Colours never move backwards *)

(** C4, as the code has it: whatever operation runs (the marking phase, the
    recursive marking, a barrier of either variant), every object stays
    allocated and an object that is not White never becomes White again,
    wherever the operation stops; and no object's colour has moved backwards
    along White, Gray, Black when the operation stops, unless the object is
    the root of a marking phase that was started on it when it was already
    Black and that has not returned. *)
Theorem color_monotone op h l o :
  h !! l = Some o →
  ∃ o', final (runOp op h) !! l = Some o' ∧
        (color o ≠ White → color o' ≠ White) ∧
        (result (runOp op h) = Done tt ∨ ¬ regrayed op h l →
         color_le (color o) (color o')).
Proof.
  intros Hl.
  destruct (lift_lookup _ _ _ _ _ (runOp_keepNW op h) Hl) as (o' & Ho' & Hk).
  exists o'. split_and!; [done | exact Hk |].
  intros Hd.
  assert (result (runOp op h) = Done tt ∨ ¬ regrays op h ∨
          ∃ fuel root r, op = OpMarkPhase fuel root ∧ l ≠ root ∧
                         h !! root = Some r) as [Hdone|[Hn|Hroot]].
  { destruct Hd as [Hd|Hd]; [by left|]. right.
    destruct op as [fuel root| | | |]; try (by left; intros []).
    simpl in Hd. destruct (h !! root) as [r|] eqn:Hr.
    - destruct (decide (l = root)) as [->|Hne].
      + left. simpl. intros Hb. apply Hd. by split.
      + right. by exists fuel, root, r.
    - left. simpl. unfold colorAt. by rewrite Hr. }
  - destruct (lift_lookup _ _ _ _ _ (runOp_colfwd op h (or_introl Hdone)) Hl)
      as (o'' & Ho'' & Hle).
    by simplify_eq.
  - destruct (lift_lookup _ _ _ _ _ (runOp_colfwd op h (or_intror Hn)) Hl)
      as (o'' & Ho'' & Hle).
    by simplify_eq.
  - destruct Hroot as (fuel & root & r & -> & Hne & Hr).
    simpl in Ho'. rewrite (markPhase_run fuel root r h Hr) in Ho'.
    cbn [final] in Ho'.
    assert (<[root := with_color Gray r]> h !! l = Some o) as Hl1
      by (by rewrite lookup_insert_ne).
    destruct (lift_lookup _ _ _ _ _
                (drain_fwd fuel [root] (<[root := with_color Gray r]> h)) Hl1)
      as (o'' & Ho'' & _ & Hle).
    by simplify_eq.
Qed.

Lemma color_monotone_witness :
  heapOld Gray !! 0 = Some (mkObject 1 Gray [] [1]) ∧
  ¬ regrayed (OpMarkPhase 3 0) (heapOld Gray) 0 ∧
  ∃ o', final (runOp (OpMarkPhase 3 0) (heapOld Gray)) !! 0 = Some o' ∧
        color o' ≠ White ∧ color_le Gray (color o').
Proof.
  assert (heapOld Gray !! 0 = Some (mkObject 1 Gray [] [1])) as H0
    by reflexivity.
  assert (¬ regrayed (OpMarkPhase 3 0) (heapOld Gray) 0) as Hn
    by (intros [_ Hb]; vm_compute in Hb; discriminate Hb).
  destruct (color_monotone (OpMarkPhase 3 0) (heapOld Gray) 0 _ H0)
    as (o' & Ho' & Hw & Hle).
  split_and!; [exact H0 | exact Hn |].
  exists o'. split_and!; [exact Ho' | | ].
  - apply Hw. discriminate.
  - apply Hle. right. exact Hn.
Defined.

(** A marking phase started on a Black root whose child is a nil pointer
    has written Gray on the root when it panics: the root has gone from
    Black back to Gray. *)
Lemma markPhase_leaves_black_root_gray :
  colorAt heapBlackNil 0 = Some Black ∧
  result (runOp (OpMarkPhase 5 0) heapBlackNil) = Panic ∧
  colorAt (final (runOp (OpMarkPhase 5 0) heapBlackNil)) 0 = Some Gray ∧
  ¬ color_le Black Gray.
Proof.
  split_and!; [reflexivity | reflexivity | reflexivity |].
  unfold color_le. simpl. lia.
Qed.

(** The first line of [markPhase] writes Gray over the root's colour without
    looking at it: on a root that is already Black the loop, had it been cut
    off before its first iteration, would leave the root Gray.  The
    completed phase has turned it Black again. *)
Lemma markPhase_regrays_a_black_root :
  colorAt heapRAB 0 = Some Black ∧
  colorAt (final (markPhase 0 0 heapRAB)) 0 = Some Gray ∧
  result (markPhase 1 0 heapRAB) = Done tt ∧
  colorAt (final (markPhase 1 0 heapRAB)) 0 = Some Black.
Proof. vm_compute. repeat split. Qed.

(** ** The sweeper *)

(** C10: the sweeper leaves the heap exactly as it found it, however far it
    gets: no object is freed, recoloured or relinked. *)
Theorem sweepPhase_leaves_heap fuel root h :
  final (sweepPhase fuel root h) = h ∧
  ∀ l, final (sweepPhase fuel root h) !! l = h !! l ∧
       colorAt (final (sweepPhase fuel root h)) l = colorAt h l ∧
       childrenAt (final (sweepPhase fuel root h)) l = childrenAt h l.
Proof.
  pose proof (sweepPhase_frame fuel root h) as Hf.
  split; [done|]. intros l. by rewrite <- Hf.
Qed.

Lemma reach_inv h a c :
  reach h a c ↔ a = c ∨ ∃ o, h !! a = Some o ∧ reachFrom h (children o) c.
Proof.
  split.
  - intros Hr. destruct Hr as [|a o b c Ha Hb Hr]; [by left|].
    right. exists o. split; [done|]. by exists b.
  - intros [->|(o & Ho & b & Hb & Hr)]; [constructor|]. by econstructor.
Qed.

Lemma reach_trans h a b c : reach h a b → reach h b c → reach h a c.
Proof.
  induction 1 as [|a o b' b Ha Hb' _ IH]; [done|].
  intros Hbc. econstructor; [done..|]. by apply IH.
Qed.

Lemma reach_child h a o b : h !! a = Some o → b ∈ children o → reach h a b.
Proof. intros Ha Hb. econstructor; [done..|]. constructor. Qed.

Lemma reachFrom_nil h l : ¬ reachFrom h [] l.
Proof. intros (c & Hc & _). by apply elem_of_nil in Hc. Qed.

Lemma reachFrom_cons h c cs l :
  reachFrom h (c :: cs) l ↔ reach h c l ∨ reachFrom h cs l.
Proof.
  split.
  - intros (c' & [->|Hc']%elem_of_cons & Hr); [by left|]. right. by exists c'.
  - intros [Hr|(c' & Hc' & Hr)]; [exists c; split; [left|done]|].
    exists c'. split; [by right|done].
Qed.

(** What the traversal of the sweeper collects: every object a path from
    [obj] leads to, once per path. *)
Lemma collectAll_children_spec fuel h
    (IH : ∀ all obj,
       final (collectAll fuel all obj h) = h ∧
       trace (collectAll fuel all obj h) = [] ∧
       ∀ all', result (collectAll fuel all obj h) = Done all' →
         ∃ o new, h !! obj = Some o ∧ all' = all ++ new ∧
                  ∀ l, l ∈ new ↔ reachFrom h (children o) l) cs all :
  let r := foldM (λ all child, collectAll fuel (all ++ [child]) child) all cs h in
  final r = h ∧ trace r = [] ∧
  ∀ all', result r = Done all' →
    ∃ new, all' = all ++ new ∧ ∀ l, l ∈ new ↔ reachFrom h cs l.
Proof.
  revert all. induction cs as [|c cs IHcs]; intros all; cbv zeta.
  - simpl. split_and!; [done..|]. intros all' [= <-]. exists [].
    split; [by rewrite app_nil_r|]. intros l. split.
    + by intros ?%elem_of_nil.
    + by intros ?%reachFrom_nil.
  - change (foldM ?f all (c :: cs) h)
      with ((f all c ≫= λ acc', foldM f acc' cs) h).
    rewrite run_bind. unfold bind.
    destruct (IH (all ++ [c]) c) as (Hf1 & Ht1 & Hd1).
    destruct (result (collectAll fuel (all ++ [c]) c h)) as [a1| |] eqn:Hr1;
      simpl; [|by rewrite Hf1, Ht1..].
    rewrite Hf1, Ht1.
    destruct (IHcs a1) as (Hf2 & Ht2 & Hd2). split_and!; [done..|].
    intros all' Hall'.
    destruct (Hd1 a1 eq_refl) as (oc & new1 & Hoc & -> & Hnew1).
    destruct (Hd2 all' Hall') as (new2 & -> & Hnew2).
    exists ([c] ++ new1 ++ new2). split; [by rewrite <- !app_assoc|].
    intros l. rewrite reachFrom_cons, reach_inv, !elem_of_app, list_elem_of_singleton.
    rewrite Hnew1, Hnew2. split.
    + intros [->|[?|?]]; [by left; left | left; right; eauto | by right].
    + intros [[->|(o' & Ho' & Hr)]|?]; [by left | | by right; right].
      right; left. by simplify_eq.
Qed.

Lemma collectAll_spec fuel h all obj :
  final (collectAll fuel all obj h) = h ∧
  trace (collectAll fuel all obj h) = [] ∧
  ∀ all', result (collectAll fuel all obj h) = Done all' →
    ∃ o new, h !! obj = Some o ∧ all' = all ++ new ∧
             ∀ l, l ∈ new ↔ reachFrom h (children o) l.
Proof.
  revert all obj. induction fuel as [|fuel IH]; intros all obj.
  - simpl. done.
  - simpl collectAll. destruct (h !! obj) as [o|] eqn:Ho.
    + rewrite (bind_deref_Some _ o) by done.
      destruct (collectAll_children_spec fuel h IH (children o) all)
        as (Hf & Ht & Hd).
      split_and!; [done..|]. intros all' Hall'.
      destruct (Hd all' Hall') as (new & -> & Hnew). by exists o, new.
    + rewrite bind_deref_None by done. done.
Qed.

Lemma reportObject_run obj h :
  reportObject obj h =
  match h !! obj with
  | Some o => mkRun (Done tt) h [EvSweep obj (id o) (classify (color o))]
  | None => mkRun Panic h []
  end.
Proof.
  unfold reportObject. destruct (h !! obj) as [o|] eqn:Ho.
  - by rewrite (bind_deref_Some _ o).
  - by rewrite bind_deref_None.
Qed.

Lemma report_spec xs h :
  let r := forM_ reportObject xs h in
  final r = h ∧ result r ≠ OutOfFuel ∧
  (∀ l v, (l, v) ∈ swept (trace r) →
          l ∈ xs ∧ ∃ o, h !! l = Some o ∧ v = classify (color o)) ∧
  (result r = Done tt →
   ∀ l, l ∈ xs → ∃ o, h !! l = Some o ∧ (l, classify (color o)) ∈ swept (trace r)).
Proof.
  induction xs as [|x xs IH]; cbv zeta.
  - simpl. split_and!; [done..| |].
    + by intros l v ?%elem_of_nil.
    + by intros _ l ?%elem_of_nil.
  - change (forM_ reportObject (x :: xs))
      with (reportObject x ≫= λ _, forM_ reportObject xs).
    rewrite run_bind. unfold bind. rewrite reportObject_run.
    destruct (h !! x) as [o|] eqn:Hx; simpl.
    2:{ split_and!; [done..| |done]. by intros l v ?%elem_of_nil. }
    destruct IH as (Hf & Hnt & Hin & Hall). split_and!; [done..| |].
    + intros l v [[= -> ->]|Hlv]%elem_of_cons.
      * split; [left | eauto].
      * destruct (Hin l v Hlv) as [? ?]. split; [by right | done].
    + intros Hd l [->|Hl]%elem_of_cons.
      * exists o. split; [done | left].
      * destruct (Hall Hd l Hl) as (o' & Ho' & Hin'). exists o'.
        split; [done | by right].
Qed.

Lemma sweepPhase_run fuel root h :
  sweepPhase fuel root h =
  match result (collectAll fuel [root] root h) with
  | Done all =>
    let r := forM_ reportObject all h in
    mkRun (result r) (final r) (EvSweepStart :: trace r)
  | Panic => mkRun Panic h [EvSweepStart]
  | OutOfFuel => mkRun OutOfFuel h [EvSweepStart]
  end.
Proof.
  unfold sweepPhase. rewrite bind_emit, run_bind. unfold bind.
  destruct (collectAll_spec fuel h [root] root) as (Hf & Ht & _).
  rewrite Hf, Ht.
  by destruct (result (collectAll fuel [root] root h)).
Qed.

(** The verdicts of the sweeper: only on objects the root reaches, by the
    colour they have; and, when the sweeper completes, on all of them. *)
Lemma sweepPhase_spec fuel root h :
  (∀ l v, (l, v) ∈ swept (trace (sweepPhase fuel root h)) →
          reach h root l ∧ ∃ o, h !! l = Some o ∧ v = classify (color o)) ∧
  (result (sweepPhase fuel root h) = Done tt →
   ∀ l, reach h root l →
        ∃ o, h !! l = Some o ∧
             (l, classify (color o)) ∈ swept (trace (sweepPhase fuel root h))).
Proof.
  rewrite sweepPhase_run.
  destruct (collectAll_spec fuel h [root] root) as (_ & _ & Hd).
  destruct (result (collectAll fuel [root] root h)) as [all| |];
    [|split; [by intros l v ?%elem_of_nil | done]..].
  destruct (Hd all eq_refl) as (o & new & Ho & -> & Hnew).
  destruct (report_spec ([root] ++ new) h) as (_ & _ & Hin & Hall).
  assert (∀ l, l ∈ [root] ++ new ↔ reach h root l) as Hreach.
  { intros l. rewrite elem_of_app, list_elem_of_singleton, Hnew, reach_inv.
    split; [intros [->|?]; [by left | right; eauto]|].
    intros [->|(o' & Ho' & Hr)]; [by left|]. right. by simplify_eq. }
  cbv zeta. simpl trace. simpl result. split.
  - intros l v Hlv. destruct (Hin l v Hlv) as [Hl Hv].
    split; [by apply Hreach | done].
  - intros Hdone l Hl. apply Hall; [done | by apply Hreach].
Qed.

Lemma orphan_unreachable : ¬ reach heapGraph 0 4.
Proof.
  intros Hr.
  destruct (sweepPhase_spec 3 0 heapGraph) as [_ Hall].
  destruct (Hall ltac:(by vm_compute) 4 Hr) as (o & Ho & Hin).
  vm_compute in Ho. injection Ho as <-.
  vm_compute in Hin.
  repeat (apply elem_of_cons in Hin as [Hin|Hin]; [discriminate|]).
  by apply elem_of_nil in Hin.
Qed.


(** ** A shaded object survives the cycle *)

Lemma runOps_keepNW ops : pres (lift keepNW) (forM_ runOp ops).
Proof. apply pres_forM; [apply _|]. intros op _. apply runOp_keepNW. Qed.

(** C3: when the Dijkstra barrier fires for a store of a White [b] into a
    Black [a], [b] becomes Gray; whatever operations of the cycle follow, [b]
    is not White when the sweeper runs nor after it, and no verdict of the
    sweeper on [b] is "reclaimed". *)
Theorem barrier_shaded_object_survives a b oa ob h ops fuel root :
  h !! a = Some oa → h !! b = Some ob →
  color oa = Black → color ob = White →
  let h1 := final (dijkstraWriteBarrier a b h) in
  let h2 := final (forM_ runOp ops h1) in
  colorAt h1 b = Some Gray ∧
  (∃ c, colorAt (final (sweepPhase fuel root h2)) b = Some c ∧ c ≠ White) ∧
  (∀ v, (b, v) ∈ swept (trace (sweepPhase fuel root h2)) → v ≠ Reclaimed).
Proof.
  intros Ha Hb Hca Hcb h1 h2.
  assert (colorAt h1 b = Some Gray) as H1.
  { unfold h1. rewrite (runBarrier_colorAt Dijkstra a b oa ob) by done.
    rewrite decide_True; [done|]. by rewrite Hca, Hcb. }
  assert (∃ o2, h2 !! b = Some o2 ∧ color o2 ≠ White) as (o2 & Ho2 & Hc2).
  { apply colorAt_Some in H1 as (o1 & Ho1 & Hc1).
    destruct (lift_lookup _ _ _ _ _ (runOps_keepNW ops h1) Ho1)
      as (o2 & Ho2 & Hk).
    exists o2. split; [done|]. apply Hk. by rewrite Hc1. }
  split_and!; [done | |].
  - exists (color o2). split; [|done].
    rewrite <- (sweepPhase_frame fuel root h2). apply colorAt_Some. eauto.
  - intros v Hv.
    destruct (sweepPhase_spec fuel root h2) as [Hin _].
    destruct (Hin b v Hv) as (_ & o & Ho & ->).
    assert (o = o2) as -> by congruence.
    by destruct (color o2).
Qed.

Lemma barrier_shaded_object_survives_witness :
  heapRAB !! 1 = Some (mkObject 11 Black [] []) ∧
  heapRAB !! 2 = Some (mkObject 12 White [] []) ∧
  let h1 := final (dijkstraWriteBarrier 1 2 heapRAB) in
  let h2 := final (forM_ runOp [OpMarkPhase 3 0] h1) in
  colorAt h1 2 = Some Gray ∧
  (∃ c, colorAt (final (sweepPhase 3 0 h2)) 2 = Some c ∧ c ≠ White) ∧
  (∀ v, (2, v) ∈ swept (trace (sweepPhase 3 0 h2)) → v ≠ Reclaimed).
Proof.
  split_and!; [reflexivity | reflexivity |].
  apply (barrier_shaded_object_survives 1 2
           (mkObject 11 Black [] []) (mkObject 12 White [] []) heapRAB
           [OpMarkPhase 3 0] 3 0); reflexivity.
Defined.

(** ** Termination of marking *)

Lemma markPhase_no_timeout fuel root h :
  size h ≤ fuel → result (markPhase fuel root h) ≠ OutOfFuel.
Proof.
  intros Hf. destruct (h !! root) as [o|] eqn:Hr.
  2:{ by rewrite markPhase_nil_pointer. }
  rewrite (markPhase_run _ _ o) by done. simpl.
  apply drain_no_timeout. simpl.
  pose proof (whites_lt_size (<[root:=with_color Gray o]> h) root
                (with_color Gray o)) as Hlt.
  rewrite lookup_insert_eq in Hlt. specialize (Hlt eq_refl ltac:(done)).
  rewrite map_size_insert_Some in Hlt by eauto. lia.
Qed.

Lemma processed_cons_process l i evs :
  processed (EvProcess l i :: evs) = l :: processed evs.
Proof. reflexivity. Qed.

Lemma processed_app evs1 evs2 :
  processed (evs1 ++ evs2) = processed evs1 ++ processed evs2.
Proof. apply omap_app. Qed.

(** The objects the loop takes off its worklist are pairwise distinct: each
    was Gray on the worklist or White when the loop started, and is Black
    once it has been taken off. *)
Lemma drain_processed fuel g h :
  NoDup g → (∀ l, l ∈ g → colorAt h l = Some Gray) →
  NoDup (processed (trace (drain fuel g h))) ∧
  ∀ l, l ∈ processed (trace (drain fuel g h)) →
       colorAt h l = Some Gray ∨ colorAt h l = Some White.
Proof.
  revert g h. induction fuel as [|fuel IH]; intros [|current rest] h Hnd Hg;
    try (rewrite drain_nil; no_events).
  { no_events. }
  destruct (h !! current) as [cur|] eqn:Hc.
  2:{ rewrite drain_nil_pointer by done. no_events. }
  assert (colorAt h current = Some Gray) as Hcg by (apply Hg; left).
  apply NoDup_cons in Hnd as [Hcr Hndr].
  rewrite (drain_step _ _ _ _ cur) by done. cbv zeta.
  destruct (scan_spec (children cur) rest h) as (_ & Hp1 & _ & Hd).
  assert (∀ (t : list Event),
    (NoDup (processed (EvProcess current (id cur) ::
              trace (foldM shadeChild rest (children cur) h) ++ t)) ∧
     (∀ l, l ∈ processed (EvProcess current (id cur) ::
              trace (foldM shadeChild rest (children cur) h) ++ t) →
           colorAt h l = Some Gray ∨ colorAt h l = Some White)) ↔
    (current ∉ processed t) ∧ NoDup (processed t) ∧
    (∀ l, l ∈ processed t → colorAt h l = Some Gray ∨ colorAt h l = Some White))
    as Hshape.
  { intros t. rewrite processed_cons_process, processed_app, Hp1. simpl.
    rewrite NoDup_cons. split.
    - intros [[? ?] Hall]. split_and!; [done..|]. intros l Hl. apply Hall. by right.
    - intros (? & ? & Hall). split; [done|].
      intros l [->|Hl]%elem_of_cons; [by left | by apply Hall]. }
  assert (∀ o : outcome unit,
    let r := mkRun o (final (foldM shadeChild rest (children cur) h))
                   (EvProcess current (id cur) ::
                    trace (foldM shadeChild rest (children cur) h)) in
    NoDup (processed (trace r)) ∧
    ∀ l, l ∈ processed (trace r) →
         colorAt h l = Some Gray ∨ colorAt h l = Some White) as Hstop.
  { intros o. simpl. rewrite <- (app_nil_r (trace _)). apply Hshape. simpl.
    split_and!; [apply not_elem_of_nil | constructor | by intros l ?%elem_of_nil]. }
  destruct (result (foldM shadeChild rest (children cur) h)) as [g'| |];
    [|apply (Hstop Panic) | apply (Hstop OutOfFuel)].
  destruct (final (foldM shadeChild rest (children cur) h) !! current)
    as [o'|] eqn:Ho'; [|apply (Hstop Panic)].
  destruct (Hd g' eq_refl) as (new & -> & Hndn & Hnew & Hcol & _).
  set (h1 := final (foldM shadeChild rest (children cur) h)) in *.
  set (h2 := <[current := with_color Black o']> h1).
  assert (∀ l, colorAt h2 l =
            if decide (current = l) then Some Black else colorAt h1 l) as Hcol2.
  { intros l. unfold h2. apply colorAt_insert. }
  assert (current ∉ new) as Hcn.
  { intros Hin. apply Hnew in Hin as [_ Hw]. congruence. }
  destruct (IH (rest ++ new) h2) as [IHnd IHcol].
  { apply NoDup_app. split_and!; [done | | done].
    intros l Hl Hln. apply Hnew in Hln as [_ Hw].
    specialize (Hg l ltac:(by right)). congruence. }
  { intros l Hl. rewrite Hcol2.
    assert (current ≠ l) as Hne.
    { intros <-. apply elem_of_app in Hl as [?|?]; done. }
    rewrite decide_False by done. rewrite Hcol.
    apply elem_of_app in Hl as [Hl|Hl].
    - rewrite decide_False; [apply Hg; by right|].
      intros Hln. apply Hnew in Hln as [_ Hw].
      specialize (Hg l ltac:(by right)). congruence.
    - by rewrite decide_True. }
  simpl trace.
  change (EvBlack current (id cur) :: ?t) with ([EvBlack current (id cur)] ++ t).
  apply Hshape. rewrite processed_app. simpl. split_and!; [|done|].
  - intros Hin. apply IHcol in Hin. rewrite Hcol2, decide_True in Hin by done.
    by destruct Hin.
  - intros l Hl. specialize (IHcol l Hl). rewrite Hcol2 in IHcol.
    case_decide; [by destruct IHcol|]. rewrite Hcol in IHcol.
    case_decide as Hln; [|done]. apply Hnew in Hln as [_ ?]. by right.
Qed.

Lemma markPhase_processed fuel root h :
  NoDup (processed (trace (markPhase fuel root h))).
Proof.
  destruct (h !! root) as [o|] eqn:Hr.
  2:{ rewrite markPhase_nil_pointer by done. constructor. }
  rewrite (markPhase_run _ _ o) by done. simpl trace.
  change (EvMarkStart root (id o) :: ?t) with ([EvMarkStart root (id o)] ++ t).
  rewrite !processed_app.
  replace (processed match result _ with Done _ => [EvMarkDone] | _ => [] end)
    with (@nil loc) by (by destruct (result _)).
  simpl. rewrite app_nil_r.
  apply drain_processed.
  - apply NoDup_singleton.
  - intros l ->%list_elem_of_singleton. by rewrite colorAt_insert, decide_True.
Qed.

(** One call of the recursive marking on a White object. *)
Lemma markObject_step fuel obj o h :
  h !! obj = Some o → color o = White →
  let r1 := forM_ (markObject fuel) (children o)
                  (<[obj := with_color Gray o]> h) in
  markObject (S fuel) obj h =
  match result r1 with
  | Done _ =>
    match final r1 !! obj with
    | Some o' =>
      mkRun (Done tt) (<[obj := with_color Black o']> (final r1))
            (EvMarkGray obj (id o) :: trace r1 ++ [EvMarkBlack obj (id o)])
    | None => mkRun Panic (final r1) (EvMarkGray obj (id o) :: trace r1)
    end
  | Panic => mkRun Panic (final r1) (EvMarkGray obj (id o) :: trace r1)
  | OutOfFuel => mkRun OutOfFuel (final r1) (EvMarkGray obj (id o) :: trace r1)
  end.
Proof.
  intros Ho Hw. cbv zeta. simpl markObject.
  rewrite (bind_deref_Some _ o) by done.
  rewrite decide_False by (rewrite Hw; by intros ?).
  rewrite (bind_set_color_Some _ _ o) by done. rewrite bind_emit.
  rewrite run_bind. unfold bind.
  destruct (result (forM_ (markObject fuel) (children o)
                          (<[obj:=with_color Gray o]> h))) as [[]| |];
    simpl; [|done..].
  destruct (final (forM_ (markObject fuel) (children o)
                         (<[obj:=with_color Gray o]> h)) !! obj)
    as [o'|] eqn:Ho'.
  - by rewrite (bind_set_color_Some _ _ o') by done.
  - rewrite bind_set_color_None by done. simpl. by rewrite app_nil_r.
Qed.

Lemma markObject_skip fuel obj o h :
  h !! obj = Some o → color o ≠ White →
  markObject (S fuel) obj h = mkRun (Done tt) h [].
Proof.
  intros Ho Hw. simpl markObject. rewrite (bind_deref_Some _ o) by done.
  by rewrite decide_True.
Qed.

Lemma markObject_nil_pointer fuel obj h :
  h !! obj = None → markObject (S fuel) obj h = mkRun Panic h [].
Proof. intros Ho. simpl markObject. by rewrite bind_deref_None. Qed.

Lemma forM_cons {A} (body : A → M unit) x xs h :
  forM_ body (x :: xs) h = (body x ≫= λ _, forM_ body xs) h.
Proof. reflexivity. Qed.

Lemma markObject_children_no_timeout fuel
    (IH : ∀ obj h, whites h < fuel → result (markObject fuel obj h) ≠ OutOfFuel)
    xs h :
  whites h < fuel → result (forM_ (markObject fuel) xs h) ≠ OutOfFuel.
Proof.
  revert h. induction xs as [|x xs IHxs]; intros h Hw; [done|].
  rewrite forM_cons, run_bind. unfold bind.
  pose proof (IH x h Hw) as Hx.
  pose proof (whites_keepNW _ _ (lift_fwd_keepNW _ _ (markObject_fwd fuel x h))).
  destruct (result (markObject fuel x h)) as [[]| |]; simpl; [|done..].
  apply IHxs. lia.
Qed.

(** The recursion is never deeper than the number of White objects. *)
Lemma markObject_no_timeout fuel obj h :
  whites h < fuel → result (markObject fuel obj h) ≠ OutOfFuel.
Proof.
  revert obj h. induction fuel as [|fuel IH]; intros obj h Hw; [lia|].
  destruct (h !! obj) as [o|] eqn:Ho.
  2:{ by rewrite markObject_nil_pointer. }
  destruct (decide (color o = White)) as [Hc|Hc].
  2:{ by rewrite (markObject_skip _ _ o). }
  rewrite (markObject_step _ _ o) by done. cbv zeta.
  pose proof (whites_shade h obj o Gray Ho Hc ltac:(done)) as Hs.
  pose proof (markObject_children_no_timeout fuel IH (children o)
                (<[obj:=with_color Gray o]> h) ltac:(lia)) as Hch.
  destruct (result (forM_ (markObject fuel) (children o)
                          (<[obj:=with_color Gray o]> h))) as [[]| |];
    [|done..].
  by destruct (final _ !! obj).
Qed.

Lemma entered_app evs1 evs2 :
  entered (evs1 ++ evs2) = entered evs1 ++ entered evs2.
Proof. apply omap_app. Qed.

Lemma fwd_colorAt_White h h' l :
  lift fwd h h' → colorAt h' l = Some White → colorAt h l = Some White.
Proof.
  intros H Hw. apply colorAt_Some in Hw as (o' & Ho' & Hc').
  destruct (lift_lookup_r _ _ _ _ _ H Ho') as (o & Ho & _ & Hle).
  apply colorAt_Some. exists o. split; [done|].
  unfold color_le in Hle. rewrite Hc' in Hle.
  destruct (color o); simpl in *; [done | lia..].
Qed.

Lemma fwd_colorAt_stays_nonWhite h h' l c :
  lift fwd h h' → colorAt h l = Some c → c ≠ White →
  colorAt h' l ≠ Some White.
Proof.
  intros H Hc Hn Hw. apply (fwd_colorAt_White _ _ _ H) in Hw. congruence.
Qed.

Lemma markObject_children_entered fuel
    (IH : ∀ obj h,
       NoDup (entered (trace (markObject fuel obj h))) ∧
       ∀ l, l ∈ entered (trace (markObject fuel obj h)) →
            colorAt h l = Some White ∧
            colorAt (final (markObject fuel obj h)) l ≠ Some White) xs h :
  NoDup (entered (trace (forM_ (markObject fuel) xs h))) ∧
  ∀ l, l ∈ entered (trace (forM_ (markObject fuel) xs h)) →
       colorAt h l = Some White ∧
       colorAt (final (forM_ (markObject fuel) xs h)) l ≠ Some White.
Proof.
  revert h. induction xs as [|x xs IHxs]; intros h.
  { no_events. }
  rewrite forM_cons, run_bind. unfold bind.
  destruct (IH x h) as [Hnd1 Hin1].
  destruct (result (markObject fuel x h)) as [[]| |]; simpl; [|done..].
  set (h1 := final (markObject fuel x h)) in *.
  destruct (IHxs h1) as [Hnd2 Hin2].
  pose proof (markObject_fwd fuel x h : lift fwd h h1) as Hf1.
  pose proof (pres_forM (lift fwd) (markObject fuel) xs
                (λ y _, markObject_fwd fuel y) h1) as Hf2.
  rewrite entered_app. split.
  - apply NoDup_app. split_and!; [done | | done].
    intros l Hl1 Hl2. apply Hin1 in Hl1 as [_ Hn]. apply Hin2 in Hl2 as [Hw _].
    done.
  - intros l [Hl|Hl]%elem_of_app.
    + destruct (Hin1 l Hl) as [Hw Hn]. split; [done|].
      destruct (colorAt h1 l) as [c|] eqn:Hc.
      * eapply fwd_colorAt_stays_nonWhite; [exact Hf2 | exact Hc | congruence].
      * intros Hw'. apply (fwd_colorAt_White _ _ _ Hf2) in Hw'. congruence.
    + destruct (Hin2 l Hl) as [Hw Hn]. split; [|done].
      by eapply fwd_colorAt_White.
Qed.

(** The objects the recursive marking enters are pairwise distinct: each was
    White when the call started and is not White when it stops. *)
Lemma markObject_entered fuel obj h :
  NoDup (entered (trace (markObject fuel obj h))) ∧
  ∀ l, l ∈ entered (trace (markObject fuel obj h)) →
       colorAt h l = Some White ∧
       colorAt (final (markObject fuel obj h)) l ≠ Some White.
Proof.
  revert obj h. induction fuel as [|fuel IH]; intros obj h.
  { no_events. }
  destruct (h !! obj) as [o|] eqn:Ho.
  2:{ rewrite markObject_nil_pointer by done. no_events. }
  destruct (decide (color o = White)) as [Hc|Hc].
  2:{ rewrite (markObject_skip _ _ o) by done. no_events. }
  pose proof (markObject_fwd (S fuel) obj h) as Hfwd.
  rewrite (markObject_step _ _ o) in Hfwd |- * by done. cbv zeta in Hfwd |- *.
  set (h1 := <[obj := with_color Gray o]> h) in *.
  destruct (markObject_children_entered fuel IH (children o) h1) as [Hnd Hin].
  assert (∀ l, colorAt h1 l = if decide (obj = l) then Some Gray else colorAt h l)
    as Hcol1 by (intros l; apply colorAt_insert).
  assert (colorAt h obj = Some White) as Hobj by (apply colorAt_Some; eauto).
  set (r1 := forM_ (markObject fuel) (children o) h1) in *.
  pose proof (pres_forM (lift fwd) (markObject fuel) (children o)
                (λ y _, markObject_fwd fuel y) h1 : lift fwd h1 (final r1)) as Hf1.
  assert (obj ∉ entered (trace r1)) as Hni.
  { intros Hi. apply Hin in Hi as [Hw _]. rewrite Hcol1, decide_True in Hw; done. }
  assert (colorAt (final r1) obj ≠ Some White) as Hobj1.
  { apply (fwd_colorAt_stays_nonWhite h1 (final r1) obj Gray); [exact Hf1 | | done].
    by rewrite Hcol1, decide_True. }
  assert (∀ (oc : outcome unit) hf t,
    entered t = [] →
    colorAt hf obj ≠ Some White →
    (∀ l, l ≠ obj → colorAt hf l = colorAt (final r1) l) →
    let r := mkRun oc hf (EvMarkGray obj (id o) :: trace r1 ++ t) in
    NoDup (entered (trace r)) ∧
    ∀ l, l ∈ entered (trace r) →
         colorAt h l = Some White ∧ colorAt (final r) l ≠ Some White) as Hgen.
  { intros oc hf t Ht Hhf Hsame. simpl.
    change (EvMarkGray obj ?i :: ?t') with ([EvMarkGray obj i] ++ t').
    rewrite !entered_app, Ht, app_nil_r. simpl.
    split; [by constructor|].
    intros l [->|Hl]%elem_of_cons; [done|].
    destruct (Hin l Hl) as [Hw Hn].
    assert (l ≠ obj) as Hne by (by intros ->).
    rewrite Hcol1, decide_False in Hw by done.
    split; [done|]. by rewrite Hsame. }
  assert (∀ oc : outcome unit,
    let r := mkRun oc (final r1) (EvMarkGray obj (id o) :: trace r1) in
    NoDup (entered (trace r)) ∧
    ∀ l, l ∈ entered (trace r) →
         colorAt h l = Some White ∧ colorAt (final r) l ≠ Some White) as Hstop.
  { intros oc. rewrite <- (app_nil_r (trace r1)). by apply Hgen. }
  destruct (result r1) as [[]| |]; [|apply (Hstop Panic)|apply (Hstop OutOfFuel)].
  destruct (final r1 !! obj) as [o'|] eqn:Ho'; [|apply (Hstop Panic)].
  apply Hgen; [done | |].
  - by rewrite colorAt_insert, decide_True.
  - intros l Hne. by rewrite colorAt_insert, decide_False.
Qed.

(** ** Marking does not panic on a graph without nil pointers *)

Lemma closed_lookup h l o c :
  closed h → h !! l = Some o → c ∈ children o → is_Some (h !! c).
Proof.
  intros Hcl Hl Hc. specialize (Hcl l o Hl). simpl in Hcl.
  rewrite Forall_forall in Hcl. by apply Hcl.
Qed.

Lemma lift_is_Some P h h' l : lift P h h' → is_Some (h !! l) → is_Some (h' !! l).
Proof. intros H [o Ho]. destruct (lift_lookup _ _ _ _ _ H Ho) as (o' & -> & _). eauto. Qed.

Lemma closed_recolor h h' : closed h → lift recolor h h' → closed h'.
Proof.
  intros Hcl H l o' Ho'. simpl.
  destruct (lift_lookup_r _ _ _ _ _ H Ho') as (o & Ho & _ & _ & Hch).
  rewrite <- Hch. apply Forall_forall. intros c Hc.
  eapply lift_is_Some; [exact H|]. by eapply closed_lookup.
Qed.

Lemma closed_fwd h h' : closed h → lift fwd h h' → closed h'.
Proof. intros Hcl H. eapply closed_recolor; [done|]. by apply lift_fwd_recolor. Qed.

Lemma scan_fwd g cs : pres (lift fwd) (foldM shadeChild g cs).
Proof. apply pres_foldM; [apply _|]. intros b x _. apply shadeChild_fwd. Qed.

Lemma blacken_fwd h l o :
  h !! l = Some o → lift fwd h (<[l := with_color Black o]> h).
Proof. intros Hl. eapply lift_insert; [apply _ | done | apply fwd_Black]. Qed.

Lemma drain_no_panic fuel g h :
  closed h → (∀ l, l ∈ g → is_Some (h !! l)) →
  result (drain fuel g h) ≠ Panic.
Proof.
  revert g h. induction fuel as [|fuel IH]; intros [|current rest] h Hcl Hg;
    try (by rewrite drain_nil); [done|].
  destruct (Hg current ltac:(left)) as [cur Hc].
  rewrite (drain_step _ _ _ _ cur) by done. cbv zeta.
  destruct (scan_spec (children cur) rest h) as (_ & _ & Hnp & Hd).
  specialize (Hnp (λ c Hc', closed_lookup h current cur c Hcl Hc Hc')).
  pose proof (scan_fwd rest (children cur) h) as Hf1.
  destruct (result (foldM shadeChild rest (children cur) h)) as [g'| |];
    [|done..].
  destruct (Hd g' eq_refl) as (new & -> & _ & Hnew & _ & _).
  destruct (lift_lookup _ _ _ _ _ Hf1 Hc) as (o' & Ho' & _).
  rewrite Ho'. simpl.
  pose proof (blacken_fwd _ _ _ Ho') as Hf2.
  apply IH.
  - eapply closed_fwd; [|exact Hf2]. by eapply closed_fwd.
  - intros l Hl. eapply lift_is_Some; [exact Hf2|].
    eapply lift_is_Some; [exact Hf1|].
    apply elem_of_app in Hl as [Hl|Hl]; [apply Hg; by right|].
    apply Hnew in Hl as [Hl _]. by eapply closed_lookup.
Qed.

Lemma markPhase_no_panic fuel root h :
  closed h → is_Some (h !! root) → result (markPhase fuel root h) ≠ Panic.
Proof.
  intros Hcl [o Hr]. rewrite (markPhase_run _ _ o) by done. simpl.
  assert (lift fwd h (<[root := with_color Gray o]> h) ∨
          lift recolor h (<[root := with_color Gray o]> h)) as [H|H].
  { right. eapply lift_insert; [apply _ | done | apply recolor_with_color]. }
  - apply drain_no_panic; [by eapply closed_fwd|].
    intros l ->%list_elem_of_singleton. rewrite lookup_insert_eq. eauto.
  - apply drain_no_panic; [by eapply closed_recolor|].
    intros l ->%list_elem_of_singleton. rewrite lookup_insert_eq. eauto.
Qed.

Lemma markObject_children_no_panic fuel
    (IH : ∀ obj h, closed h → is_Some (h !! obj) →
                   result (markObject fuel obj h) ≠ Panic) xs h :
  closed h → (∀ x, x ∈ xs → is_Some (h !! x)) →
  result (forM_ (markObject fuel) xs h) ≠ Panic.
Proof.
  revert h. induction xs as [|x xs IHxs]; intros h Hcl Hxs; [done|].
  rewrite forM_cons, run_bind. unfold bind.
  pose proof (IH x h Hcl (Hxs x ltac:(left))) as Hx.
  pose proof (markObject_fwd fuel x h) as Hf.
  destruct (result (markObject fuel x h)) as [[]| |]; simpl; [|done..].
  apply IHxs; [by eapply closed_fwd|].
  intros y Hy. eapply lift_is_Some; [exact Hf|]. apply Hxs. by right.
Qed.

Lemma markObject_no_panic fuel obj h :
  closed h → is_Some (h !! obj) → result (markObject fuel obj h) ≠ Panic.
Proof.
  revert obj h. induction fuel as [|fuel IH]; intros obj h Hcl [o Ho]; [done|].
  destruct (decide (color o = White)) as [Hc|Hc].
  2:{ by rewrite (markObject_skip _ _ o). }
  rewrite (markObject_step _ _ o) by done. cbv zeta.
  assert (lift fwd h (<[obj := with_color Gray o]> h)) as Hf0.
  { eapply lift_insert; [apply _ | done | by apply fwd_White]. }
  pose proof (markObject_children_no_panic fuel IH (children o)
                (<[obj := with_color Gray o]> h)) as Hch.
  pose proof (pres_forM (lift fwd) (markObject fuel) (children o)
                (λ y _, markObject_fwd fuel y) (<[obj := with_color Gray o]> h))
    as Hf1.
  destruct (result (forM_ (markObject fuel) (children o)
                          (<[obj:=with_color Gray o]> h))) as [[]| |];
    [| |done].
  - destruct (lift_is_Some _ _ _ obj Hf1) as [o' ->]; [|done].
    rewrite lookup_insert_eq. eauto.
  - apply Hch; [by eapply closed_fwd|].
    intros x Hx. eapply lift_is_Some; [exact Hf0|]. by eapply closed_lookup.
Qed.

(** C9: on every heap, cyclic or not, the marking phase and the recursive
    marking stop within a budget of one step per object; neither takes an
    object off the worklist, or enters an object, twice; and on a graph
    without nil pointers both return normally. *)
Theorem marking_terminates h fuel l :
  size h < fuel →
  (result (markPhase fuel l h) ≠ OutOfFuel ∧
   NoDup (processed (trace (markPhase fuel l h)))) ∧
  (result (markObject fuel l h) ≠ OutOfFuel ∧
   NoDup (entered (trace (markObject fuel l h)))) ∧
  (closed h → is_Some (h !! l) →
   result (markPhase fuel l h) = Done tt ∧
   result (markObject fuel l h) = Done tt).
Proof.
  intros Hf.
  assert (result (markPhase fuel l h) ≠ OutOfFuel) as Hp
    by (apply markPhase_no_timeout; lia).
  assert (result (markObject fuel l h) ≠ OutOfFuel) as Ho.
  { apply markObject_no_timeout. pose proof (whites_le_size h). lia. }
  split_and!; [done | apply markPhase_processed | done
              | apply markObject_entered |].
  intros Hcl Hl.
  pose proof (markPhase_no_panic fuel l h Hcl Hl).
  pose proof (markObject_no_panic fuel l h Hcl Hl).
  split.
  - by destruct (result (markPhase fuel l h)) as [[]| |].
  - by destruct (result (markObject fuel l h)) as [[]| |].
Qed.

Lemma heapCycle_closed : closed heapCycle.
Proof.
  apply (bool_decide_unpack _). by vm_compute.
Qed.

Lemma marking_terminates_witness :
  size heapCycle < 3 ∧
  result (markPhase 3 0 heapCycle) = Done tt ∧
  result (markObject 3 0 heapCycle) = Done tt ∧
  NoDup (processed (trace (markPhase 3 0 heapCycle))) ∧
  NoDup (entered (trace (markObject 3 0 heapCycle))).
Proof.
  assert (size heapCycle < 3) as Hs by (vm_compute; lia).
  destruct (marking_terminates heapCycle 3 0 Hs)
    as ((_ & Hnd1) & (_ & Hnd2) & Hdone).
  destruct (Hdone heapCycle_closed (mk_is_Some _ _ eq_refl)) as [H1 H2].
  split_and!; done.
Defined.

(** Both markers on the two-object cycle: each object is handled once and
    both end Black. *)
Lemma marking_on_a_cycle :
  processed (trace (markPhase 3 0 heapCycle)) = [0; 1] ∧
  colorAt (final (markPhase 3 0 heapCycle)) 0 = Some Black ∧
  colorAt (final (markPhase 3 0 heapCycle)) 1 = Some Black ∧
  entered (trace (markObject 3 0 heapCycle)) = [0; 1] ∧
  colorAt (final (markObject 3 0 heapCycle)) 0 = Some Black ∧
  colorAt (final (markObject 3 0 heapCycle)) 1 = Some Black.
Proof. vm_compute. repeat split. Qed.

(** ** Marking completeness *)

Lemma reach_recolor_1 h h' a b : lift recolor h h' → reach h a b → reach h' a b.
Proof.
  intros H. induction 1 as [|a o b' b Ha Hb' _ IH]; [constructor|].
  destruct (lift_lookup _ _ _ _ _ H Ha) as (o' & Ho' & _ & _ & Hch).
  econstructor; [exact Ho' | by rewrite <- Hch | done].
Qed.

Lemma recolor_sym h h' : lift recolor h h' → lift recolor h' h.
Proof.
  intros H l. specialize (H l).
  destruct H as [o o' (?&?&?)|]; constructor. by repeat split.
Qed.

Lemma reach_recolor h h' a b : lift recolor h h' → reach h a b ↔ reach h' a b.
Proof.
  intros H. split; apply reach_recolor_1; [done | by apply recolor_sym].
Qed.

Lemma reach_fwd h h' a b : lift fwd h h' → reach h a b ↔ reach h' a b.
Proof. intros H. by apply reach_recolor, lift_fwd_recolor. Qed.

Lemma reach_allocated h a b :
  closed h → is_Some (h !! a) → reach h a b → is_Some (h !! b).
Proof.
  intros Hcl Ha Hr. induction Hr as [|a o b' b Hao Hb' _ IH]; [done|].
  apply IH. by eapply closed_lookup.
Qed.

(** With an empty worklist the invariant of the loop makes every reachable
    object Black. *)
Lemma tricolor_done h root :
  closed h → is_Some (h !! root) → colorAt h root ≠ Some White →
  (∀ a o b, reach h root a → h !! a = Some o → color o = Black →
            b ∈ children o → colorAt h b ≠ Some White) →
  (∀ a, reach h root a → colorAt h a ≠ Some Gray) →
  ∀ l, reach h root l → colorAt h l = Some Black.
Proof.
  intros Hcl Hroot Hnw HI1 HI2.
  assert (∀ a, reach h root a → colorAt h a ≠ Some White →
               colorAt h a = Some Black) as Hblack.
  { intros a Ha Hw.
    destruct (reach_allocated h root a Hcl Hroot Ha) as [o Ho].
    specialize (HI2 a Ha). unfold colorAt in *. rewrite Ho in *. simpl in *.
    destruct (color o); done. }
  assert (∀ a l, reach h a l → reach h root a → colorAt h a = Some Black →
                 colorAt h l = Some Black) as Hind.
  { intros a l Hr. induction Hr as [|a o b c Hao Hb _ IH]; [done|].
    intros Hra Hba. apply colorAt_Some in Hba as (o' & Ho' & Hc').
    assert (o' = o) as -> by congruence.
    assert (reach h root b) as Hrb.
    { eapply reach_trans; [exact Hra|]. by eapply reach_child. }
    apply IH; [done|]. apply Hblack; [done|].
    exact (HI1 a o b Hra Hao Hc' Hb). }
  intros l Hl. apply (Hind root l Hl); [constructor|].
  apply Hblack; [constructor | done].
Qed.

(** The marking loop, started in a state that satisfies the tri-colour
    invariant (no Black object refers to a White one, every Gray object is
    on the worklist), completes and leaves every reachable object Black. *)
Lemma drain_complete root fuel g h :
  closed h → whites h + length g ≤ fuel →
  (∀ l, l ∈ g → is_Some (h !! l)) →
  is_Some (h !! root) → colorAt h root ≠ Some White →
  (∀ a o b, reach h root a → h !! a = Some o → color o = Black →
            b ∈ children o → colorAt h b ≠ Some White) →
  (∀ a, reach h root a → colorAt h a = Some Gray → a ∈ g) →
  result (drain fuel g h) = Done tt ∧
  ∀ l, reach h root l → colorAt (final (drain fuel g h)) l = Some Black.
Proof.
  revert g h. induction fuel as [|fuel IH];
    intros [|current rest] h Hcl Hm Hg Hroot Hnw HI1 HI2;
    try (rewrite drain_nil; simpl; split; [done|];
         apply tricolor_done; try done;
         intros a Ha Hga; by apply HI2, elem_of_nil in Hga).
  { simpl in Hm. lia. }
  destruct (Hg current ltac:(left)) as [cur Hc].
  rewrite (drain_step _ _ _ _ cur) by done. cbv zeta.
  destruct (scan_spec (children cur) rest h) as (Hnt & _ & Hnp & Hd).
  specialize (Hnp (λ c Hc', closed_lookup h current cur c Hcl Hc Hc')).
  pose proof (scan_fwd rest (children cur) h) as Hf1.
  destruct (result (foldM shadeChild rest (children cur) h)) as [g'| |];
    [|done..].
  destruct (Hd g' eq_refl) as (new & -> & _ & Hnew & Hcol & Hwh).
  set (h1 := final (foldM shadeChild rest (children cur) h)) in *.
  destruct (lift_lookup _ _ _ _ _ Hf1 Hc) as (o' & Ho' & Hrc & _).
  rewrite Ho'. simpl.
  set (h2 := <[current := with_color Black o']> h1).
  pose proof (blacken_fwd _ _ _ Ho' : lift fwd h1 h2) as Hf2.
  assert (lift fwd h h2) as Hf by (by etrans).
  assert (∀ l, colorAt h2 l =
            if decide (current = l) then Some Black
            else if decide (l ∈ new) then Some Gray else colorAt h l) as Hcol2.
  { intros l. unfold h2. rewrite colorAt_insert. case_decide; [done|]. apply Hcol. }
  assert (∀ a b, reach h2 a b ↔ reach h a b) as Hreach.
  { intros a b. symmetry. by apply reach_fwd. }
  destruct (IH (rest ++ new) h2) as [Hdone Hall].
  - by eapply closed_fwd.
  - pose proof (whites_blacken _ _ _ Ho'). fold h2 in H.
    rewrite length_app. simpl in Hm. lia.
  - intros l Hl. eapply lift_is_Some; [exact Hf|].
    apply elem_of_app in Hl as [Hl|Hl]; [apply Hg; by right|].
    apply Hnew in Hl as [Hl _]. by eapply closed_lookup.
  - by eapply lift_is_Some.
  - apply (fwd_colorAt_nonWhite h h2 root Hf Hroot Hnw).
  - intros a oa b Ha Hoa Hba Hb. apply Hreach in Ha.
    destruct (lift_lookup_r _ _ _ _ _ Hf Hoa) as (oa0 & Hoa0 & (_ & _ & Hch) & _).
    rewrite <- Hch in Hb.
    assert (is_Some (h !! b)) as Hbs by (by eapply closed_lookup).
    destruct (decide (current = a)) as [<-|Hne].
    + simplify_eq. rewrite Hcol2. case_decide; [done|]. case_decide as Hbn; [done|].
      intros Hw. apply Hbn, Hnew. done.
    + assert (colorAt h2 a = Some Black) as Hca
        by (apply colorAt_Some; eauto).
      rewrite Hcol2, decide_False in Hca by done. case_decide; [done|].
      apply colorAt_Some in Hca as (oa1 & Hoa1 & Hc1). simplify_eq.
      apply (fwd_colorAt_nonWhite h h2 b Hf Hbs).
      by eapply HI1.
  - intros a Ha Hga. apply Hreach in Ha. rewrite Hcol2 in Hga.
    case_decide as Hca; [done|]. apply elem_of_app.
    case_decide as Han; [by right|]. left.
    apply HI2 in Hga; [|done]. apply elem_of_cons in Hga as [->|?]; done.
  - split; [done|]. intros l Hl. apply Hall. by apply Hreach.
Qed.

Lemma markPhase_complete fuel root h :
  closed h → is_Some (h !! root) → fresh_cycle h root → size h ≤ fuel →
  result (markPhase fuel root h) = Done tt ∧
  ∀ l, reach h root l →
       colorAt (final (markPhase fuel root h)) l = Some Black.
Proof.
  intros Hcl [o Hr] Hfresh Hf.
  rewrite (markPhase_run _ _ o) by done. cbv zeta.
  set (h1 := <[root := with_color Gray o]> h).
  assert (lift recolor h h1) as Hrc.
  { eapply lift_insert; [apply _ | done | apply recolor_with_color]. }
  assert (∀ l, colorAt h1 l = if decide (root = l) then Some Gray else colorAt h l)
    as Hcol1 by (intros l; apply colorAt_insert).
  assert (∀ a, reach h1 root a → a ≠ root → colorAt h1 a = Some White) as Hw.
  { intros a Ha Hne. apply (reach_recolor h h1) in Ha; [|done].
    rewrite Hcol1, decide_False by done.
    destruct (reach_allocated h root a Hcl (mk_is_Some _ _ Hr) Ha) as [oa Hoa].
    apply colorAt_Some. exists oa. split; [done|]. by eapply Hfresh. }
  destruct (drain_complete root fuel [root] h1) as [Hdone Hall].
  - by eapply closed_recolor.
  - pose proof (whites_lt_size h1 root (with_color Gray o)) as Hlt.
    unfold h1 in Hlt at 1. rewrite lookup_insert_eq in Hlt.
    specialize (Hlt eq_refl ltac:(done)).
    rewrite (lift_size _ _ _ Hrc) in Hlt. simpl. lia.
  - intros l ->%list_elem_of_singleton. by eapply lift_is_Some.
  - by eapply lift_is_Some.
  - by rewrite Hcol1, decide_True.
  - intros a oa b Ha Hoa Hba _.
    assert (colorAt h1 a = Some Black) as Hca by (apply colorAt_Some; eauto).
    destruct (decide (a = root)) as [->|Hne].
    + by rewrite Hcol1, decide_True in Hca.
    + rewrite (Hw a Ha Hne) in Hca. done.
  - intros a Ha Hga. destruct (decide (a = root)) as [->|Hne]; [left|].
    rewrite (Hw a Ha Hne) in Hga. done.
  - simpl. rewrite Hdone. split; [done|].
    intros l Hl. apply Hall. by apply (reach_recolor h h1).
Qed.

Lemma heapGraph_closed : closed heapGraph.
Proof. apply (bool_decide_unpack _). by vm_compute. Qed.

Lemma heapGraph_fresh : fresh_cycle heapGraph 0.
Proof.
  intros l o _ Hl.
  assert (map_Forall (λ _ o, color o = White) heapGraph) as Hall
    by (apply (bool_decide_unpack _); by vm_compute).
  exact (Hall l o Hl).
Qed.

(** Without the White start the phase is not complete: an object that is
    Gray before the phase starts is never put on the worklist, so what only
    it refers to stays White. *)
Lemma markPhase_skips_behind_gray :
  let h1 := final (dijkstraWriteBarrier 1 2 heapRABC) in
  reach h1 0 3 ∧
  result (markPhase 4 0 h1) = Done tt ∧
  colorAt (final (markPhase 4 0 h1)) 3 = Some White.
Proof.
  cbv zeta. split; [|by vm_compute].
  eapply reach_step; [by vm_compute | left |].
  eapply reach_step; [by vm_compute | left |].
  eapply reach_step; [by vm_compute | left |].
  constructor.
Qed.

(** ** Resetting the colours *)

#[global] Instance whiten_preorder : PreOrder whiten.
Proof.
  split.
  - intros o. split; [reflexivity | done].
  - intros o1 o2 o3 [? ?] [? ?]. split; [by etrans | auto].
Qed.

Lemma lift_whiten_recolor h h' : lift whiten h h' → lift recolor h h'.
Proof. apply lift_impl. by intros o o' [? _]. Qed.

Lemma whiten_colorAt h h' l :
  lift whiten h h' → colorAt h l = Some White → colorAt h' l = Some White.
Proof.
  intros H Hw. apply colorAt_Some in Hw as (o & Ho & Hc).
  destruct (lift_lookup _ _ _ _ _ H Ho) as (o' & Ho' & _ & Hk).
  apply colorAt_Some. exists o'. auto.
Qed.

Lemma ids_distinct_recolor h h' :
  ids_distinct h → lift recolor h h' → ids_distinct h'.
Proof.
  intros Hd H l l' o o' Hl Hl' Hid.
  destruct (lift_lookup_r _ _ _ _ _ H Hl) as (o0 & Ho0 & Hid0 & _).
  destruct (lift_lookup_r _ _ _ _ _ H Hl') as (o0' & Ho0' & Hid0' & _).
  eapply Hd; [done..|]. congruence.
Qed.

Lemma unvisited_dom (V : gset Z) (h : gmap nat Object) (l : loc) :
  l ∈ dom (filter (λ p : nat * Object, id p.2 ∉ V) h) ↔
  ∃ o, h !! l = Some o ∧ id o ∉ V.
Proof.
  rewrite elem_of_dom. unfold is_Some.
  setoid_rewrite map_lookup_filter_Some. simpl. done.
Qed.

Lemma unvisited_recolor V h h' :
  lift recolor h h' → unvisited V h' = unvisited V h.
Proof.
  intros H. unfold unvisited. rewrite <- !size_dom. f_equal.
  apply set_eq. intros l. rewrite !unvisited_dom. split.
  - intros (o' & Ho' & Hn).
    destruct (lift_lookup_r _ _ _ _ _ H Ho') as (o & Ho & Hid & _).
    exists o. split; [done|]. by rewrite Hid.
  - intros (o & Ho & Hn).
    destruct (lift_lookup _ _ _ _ _ H Ho) as (o' & Ho' & Hid & _).
    exists o'. split; [done|]. by rewrite <- Hid.
Qed.

Lemma unvisited_mono (V V' : gset Z) h :
  V ⊆ V' → unvisited V' h ≤ unvisited V h.
Proof.
  intros Hsub. unfold unvisited. rewrite <- !size_dom. apply subseteq_size.
  intros l. rewrite !unvisited_dom. intros (o & Ho & Hn).
  exists o. split; [done|]. intros Hin. by apply Hn, Hsub.
Qed.

Lemma unvisited_visit (V : gset Z) h l o :
  h !! l = Some o → id o ∉ V →
  unvisited ({[id o]} ∪ V) h < unvisited V h.
Proof.
  intros Hl Hn. unfold unvisited. rewrite <- !size_dom. apply subset_size.
  apply elem_of_subset. split.
  - intros a. rewrite !unvisited_dom. intros (oa & Hoa & Hna).
    exists oa. split; [done|]. intros Hin. apply Hna, elem_of_union. by right.
  - intros Hall. specialize (Hall l). rewrite !unvisited_dom in Hall.
    destruct Hall as (o' & Ho' & Hn'); [by exists o|].
    assert (o' = o) as -> by congruence.
    apply Hn', elem_of_union. left. by apply elem_of_singleton.
Qed.

Lemma unvisited_le_size V h : unvisited V h ≤ size h.
Proof. apply map_subseteq_size, map_filter_subseteq. Qed.

Lemma dfs_visited fuel V obj o h :
  h !! obj = Some o → id o ∈ V →
  dfs (S fuel) V obj h = mkRun (Done V) h [].
Proof.
  intros Ho Hin. simpl dfs. rewrite (bind_deref_Some _ o) by done.
  by rewrite decide_True.
Qed.

Lemma dfs_visit fuel V obj o h :
  h !! obj = Some o → id o ∉ V →
  dfs (S fuel) V obj h =
  foldM (dfs fuel) ({[id o]} ∪ V) (children o) (<[obj := with_color White o]> h).
Proof.
  intros Ho Hin. simpl dfs. rewrite (bind_deref_Some _ o) by done.
  rewrite decide_False by done.
  by rewrite (bind_set_color_Some _ _ o) by done.
Qed.

Lemma dfs_post_trans V1 V2 V3 h1 h2 h3 :
  dfs_post V1 V2 h1 h2 → dfs_post V2 V3 h2 h3 → dfs_post V1 V3 h1 h3.
Proof.
  intros (Hw1 & Hs1 & Hp1) (Hw2 & Hs2 & Hp2). split_and!.
  - by etrans.
  - by etrans.
  - intros a oa Ha Hin3 Hn1.
    destruct (lift_lookup _ _ _ _ _ Hw1 Ha) as (oa2 & Ha2 & (Hid & _ & Hch) & _).
    destruct (decide (id oa ∈ V2)) as [Hin2|Hn2].
    + destruct (Hp1 a oa Ha Hin2 Hn1) as [Hwa Hcha]. split.
      * by eapply whiten_colorAt.
      * intros b ob Hb Hob. apply Hs2. by eapply Hcha.
    + rewrite Hid in Hin3, Hn2.
      destruct (Hp2 a oa2 Ha2 Hin3 Hn2) as [Hwa Hcha]. split; [done|].
      intros b ob Hb Hob.
      destruct (lift_lookup _ _ _ _ _ Hw1 Hob) as (ob2 & Hob2 & (Hidb & _) & _).
      rewrite Hidb. eapply Hcha; [|done]. by rewrite <- Hch.
Qed.

Lemma dfs_children_spec fuel
    (IH : ∀ V obj h, closed h → ids_distinct h → is_Some (h !! obj) →
       unvisited V h < fuel →
       ∃ V', result (dfs fuel V obj h) = Done V' ∧
             dfs_post V V' h (final (dfs fuel V obj h)) ∧
             ∀ o, h !! obj = Some o → id o ∈ V') cs V h :
  closed h → ids_distinct h → (∀ c, c ∈ cs → is_Some (h !! c)) →
  unvisited V h < fuel →
  ∃ V', result (foldM (dfs fuel) V cs h) = Done V' ∧
        dfs_post V V' h (final (foldM (dfs fuel) V cs h)) ∧
        ∀ c oc, c ∈ cs → h !! c = Some oc → id oc ∈ V'.
Proof.
  revert V h. induction cs as [|c cs IHcs]; intros V h Hcl Hd Hcs Hf.
  { exists V. simpl. split_and!; [done | | by intros c oc ?%elem_of_nil].
    split_and!; [reflexivity | done | by intros a oa _ ? ?]. }
  change (foldM (dfs fuel) V (c :: cs) h)
    with ((dfs fuel V c ≫= λ acc', foldM (dfs fuel) acc' cs) h).
  destruct (IH V c h Hcl Hd (Hcs c ltac:(left)) Hf) as (V1 & Hr1 & Hp1 & Hc1).
  rewrite (bind_Done _ _ _ V1) by done. simpl.
  set (h1 := final (dfs fuel V c h)) in *.
  pose proof Hp1 as (Hw1 & Hs1 & _).
  pose proof (lift_whiten_recolor _ _ Hw1) as Hrc1.
  destruct (IHcs V1 h1) as (V2 & Hr2 & Hp2 & Hc2).
  - by eapply closed_recolor.
  - by eapply ids_distinct_recolor.
  - intros c' Hc'. eapply lift_is_Some; [exact Hrc1|]. apply Hcs. by right.
  - rewrite (unvisited_recolor _ _ _ Hrc1).
    pose proof (unvisited_mono V V1 h Hs1). lia.
  - exists V2. split_and!; [done | by eapply dfs_post_trans |].
    destruct Hp2 as (_ & Hs2 & _).
    intros c' oc [->|Hc']%elem_of_cons Hoc.
    + apply Hs2. by apply Hc1.
    + destruct (lift_lookup _ _ _ _ _ Hrc1 Hoc) as (oc1 & Hoc1 & Hid & _).
      rewrite Hid. by eapply Hc2.
Qed.

Lemma dfs_spec fuel V obj h :
  closed h → ids_distinct h → is_Some (h !! obj) → unvisited V h < fuel →
  ∃ V', result (dfs fuel V obj h) = Done V' ∧
        dfs_post V V' h (final (dfs fuel V obj h)) ∧
        ∀ o, h !! obj = Some o → id o ∈ V'.
Proof.
  intros Hcl Hd. revert V obj h Hcl Hd.
  induction fuel as [|fuel IH]; intros V obj h Hcl Hd [o Ho] Hf; [lia|].
  destruct (decide (id o ∈ V)) as [Hin|Hn].
  { rewrite (dfs_visited _ _ _ o) by done. exists V. simpl.
    split_and!; [done | | intros o' Ho'; by simplify_eq].
    split_and!; [reflexivity | done | by intros a oa _ ? ?]. }
  rewrite (dfs_visit _ _ _ o) by done.
  set (h1 := <[obj := with_color White o]> h).
  assert (lift whiten h h1) as Hw1.
  { eapply lift_insert; [apply _ | done |]. split; [apply recolor_with_color | done]. }
  pose proof (lift_whiten_recolor _ _ Hw1) as Hrc1.
  destruct (dfs_children_spec fuel IH (children o) ({[id o]} ∪ V) h1)
    as (V' & Hr & (Hw & Hs & Hp) & Hc).
  - by eapply closed_recolor.
  - by eapply ids_distinct_recolor.
  - intros c Hc. eapply lift_is_Some; [exact Hrc1|]. by eapply closed_lookup.
  - rewrite (unvisited_recolor _ _ _ Hrc1).
    pose proof (unvisited_visit V h obj o Ho Hn). lia.
  - assert (id o ∈ V') as Hobj.
    { apply Hs, elem_of_union. left. by apply elem_of_singleton. }
    exists V'. split_and!; [done | | intros o' Ho'; by simplify_eq].
    split_and!.
    + by etrans.
    + intros z Hz. apply Hs, elem_of_union. by right.
    + intros a oa Ha Hin' Hn'.
      destruct (lift_lookup _ _ _ _ _ Hrc1 Ha) as (oa1 & Ha1 & Hid & _ & Hch).
      assert (∀ b ob, b ∈ children oa1 → h !! b = Some ob →
                      ∃ ob1, h1 !! b = Some ob1 ∧ id ob1 = id ob) as Hkids.
      { intros b ob _ Hob.
        destruct (lift_lookup _ _ _ _ _ Hrc1 Hob) as (ob1 & Hob1 & Hidb & _).
        eauto. }
      destruct (decide (id oa = id o)) as [Heq|Hne].
      * assert (a = obj) as -> by (by eapply Hd).
        assert (oa = o) as -> by congruence.
        split.
        -- eapply whiten_colorAt; [exact Hw|].
           unfold h1. by rewrite colorAt_insert, decide_True.
        -- intros b ob Hb Hob.
           destruct (Hkids b ob ltac:(by rewrite <- Hch) Hob)
             as (ob1 & Hob1 & <-).
           by eapply Hc.
      * assert (id oa1 ∉ ({[id o]} ∪ V : gset Z)) as Hn1.
        { rewrite <- Hid. intros [?%elem_of_singleton|?]%elem_of_union; done. }
        rewrite Hid in Hin'.
        destruct (Hp a oa1 Ha1 Hin' Hn1) as [Hwa Hcha]. split; [done|].
        intros b ob Hb Hob. rewrite Hch in Hb.
        destruct (Hkids b ob Hb Hob) as (ob1 & Hob1 & <-).
        by eapply Hcha.
Qed.

(** The reset leaves a graph without nil pointers and with distinct ids in
    the state a cycle starts from: same objects, everything the root reaches
    White. *)
Lemma initializeColors_fresh fuel root h :
  closed h → ids_distinct h → is_Some (h !! root) → size h < fuel →
  result (initializeColors fuel root h) = Done tt ∧
  lift recolor h (final (initializeColors fuel root h)) ∧
  fresh_cycle (final (initializeColors fuel root h)) root.
Proof.
  intros Hcl Hd Hroot Hf. unfold initializeColors.
  destruct (dfs_spec fuel ∅ root h Hcl Hd Hroot) as (V' & Hr & (Hw & _ & Hp) & Hin).
  { pose proof (unvisited_le_size ∅ h). lia. }
  rewrite (bind_Done _ _ _ V') by done. simpl.
  set (h' := final (dfs fuel ∅ root h)) in *.
  pose proof (lift_whiten_recolor _ _ Hw) as Hrc.
  split_and!; [done | done |].
  assert (∀ a l, reach h a l → ∀ oa, h !! a = Some oa → id oa ∈ V' →
                 ∃ ol, h !! l = Some ol ∧ id ol ∈ V') as Hclosed.
  { intros a l Hr'. induction Hr' as [a|a o b c Ha Hb _ IH]; [eauto|].
    intros oa Hoa Hina. assert (oa = o) as -> by congruence.
    destruct (closed_lookup h a o b Hcl Ha Hb) as [ob Hob].
    apply (IH ob Hob).
    destruct (Hp a o Ha Hina ltac:(apply not_elem_of_empty)) as [_ Hkids].
    by eapply Hkids. }
  intros l ol' Hl Hol'. apply (reach_recolor h h') in Hl; [|done].
  destruct Hroot as [oroot Horoot].
  destruct (Hclosed root l Hl oroot Horoot (Hin _ Horoot)) as (ol & Hol & Hinl).
  destruct (Hp l ol Hol Hinl ltac:(apply not_elem_of_empty)) as [Hwl _].
  apply colorAt_Some in Hwl as (ol2 & Hol2 & Hc). congruence.
Qed.

(** The cycle of the program on any graph without nil pointers and with
    distinct ids, whatever colours it starts with: after the reset and the
    marking phase every object the root reaches is Black. *)
Lemma reset_then_mark fuel root h :
  closed h → ids_distinct h → is_Some (h !! root) → size h < fuel →
  let r := (initializeColors fuel root;; markPhase fuel root) h in
  result r = Done tt ∧
  ∀ l, reach h root l → colorAt (final r) l = Some Black.
Proof.
  intros Hcl Hd Hroot Hf.
  destruct (initializeColors_fresh fuel root h Hcl Hd Hroot Hf)
    as (Hr1 & Hrc & Hfresh).
  cbv zeta. rewrite (bind_Done _ _ _ tt) by done. simpl.
  set (h' := final (initializeColors fuel root h)) in *.
  destruct (markPhase_complete fuel root h') as [Hr2 Hall].
  - by eapply closed_recolor.
  - by eapply lift_is_Some.
  - done.
  - rewrite (lift_size _ _ _ Hrc). lia.
  - split; [done|]. intros l Hl. apply Hall. by apply (reach_recolor h h').
Qed.

(** ** When the sweeper returns *)

(** On a graph whose edges go down along some rank (an acyclic graph) the
    traversal of the sweeper stays within a depth of the rank of its start. *)
Lemma collectAll_no_timeout (rk : loc → nat) h fuel all obj :
  (∀ a o b, h !! a = Some o → b ∈ children o → rk b < rk a) →
  rk obj < fuel → result (collectAll fuel all obj h) ≠ OutOfFuel.
Proof.
  intros Hrk. revert all obj. induction fuel as [|fuel IH]; intros all obj Hf;
    [lia|].
  simpl collectAll. destruct (h !! obj) as [o|] eqn:Ho.
  2:{ by rewrite bind_deref_None. }
  rewrite (bind_deref_Some _ o) by done.
  assert (∀ cs, (∀ c, c ∈ cs → c ∈ children o) → ∀ all',
    result (foldM (λ all child, collectAll fuel (all ++ [child]) child)
                  all' cs h) ≠ OutOfFuel) as Hcs.
  { induction cs as [|c cs IHcs]; intros Hsub all'; [done|].
    change (foldM ?f all' (c :: cs) h)
      with ((f all' c ≫= λ acc', foldM f acc' cs) h).
    rewrite run_bind. unfold bind.
    destruct (collectAll_spec fuel h (all' ++ [c]) c) as (Hfin & _ & _).
    assert (rk c < fuel) as Hc.
    { specialize (Hrk obj o c Ho (Hsub c ltac:(left))). lia. }
    pose proof (IH (all' ++ [c]) c Hc).
    destruct (result (collectAll fuel (all' ++ [c]) c h)) as [a1| |];
      simpl; [|done..].
    rewrite Hfin. apply IHcs. intros c' Hc'. apply Hsub. by right. }
  by apply Hcs.
Qed.

Lemma sweepPhase_no_timeout (rk : loc → nat) h fuel root :
  (∀ a o b, h !! a = Some o → b ∈ children o → rk b < rk a) →
  rk root < fuel → result (sweepPhase fuel root h) ≠ OutOfFuel.
Proof.
  intros Hrk Hf. rewrite sweepPhase_run.
  pose proof (collectAll_no_timeout rk h fuel [root] root Hrk Hf).
  destruct (result (collectAll fuel [root] root h)) as [all| |]; [|done..].
  simpl. by destruct (report_spec all h) as (_ & ? & _).
Qed.

(** On a cycle the traversal of the sweeper never returns: [collectAll]
    follows the children without remembering what it has visited. *)
Lemma collectAll_diverges_on_cycle fuel all obj :
  obj < 2 → result (collectAll fuel all obj heapCycle) = OutOfFuel.
Proof.
  revert all obj. induction fuel as [|fuel IH]; intros all obj Hobj; [done|].
  simpl collectAll.
  destruct obj as [|[|obj]]; [| |lia].
  - rewrite (bind_deref_Some _ (mkObject 1 White [] [1])) by reflexivity.
    simpl. rewrite run_bind. unfold bind. rewrite IH by lia. done.
  - rewrite (bind_deref_Some _ (mkObject 2 White [] [0])) by reflexivity.
    simpl. rewrite run_bind. unfold bind. rewrite IH by lia. done.
Qed.

Lemma sweepPhase_diverges_on_cycle fuel :
  result (sweepPhase fuel 0 heapCycle) = OutOfFuel.
Proof.
  rewrite sweepPhase_run. by rewrite collectAll_diverges_on_cycle by lia.
Qed.

(** ** The program run *)

(** [simulateThreeColorMarking]: what the program prints, and the heap it
    ends in. *)
Lemma simulateThreeColorMarking_run :
  result (simulateThreeColorMarking 5 ∅) = Done tt ∧
  trace (simulateThreeColorMarking 5 ∅) =
    [EvBanner 0; EvCreated 1 99; EvInitialized;
     EvBanner 1; EvMarkStart 0 1;
     EvProcess 0 1; EvChildGray 1 2; EvChildGray 2 3; EvBlack 0 1;
     EvProcess 1 2; EvChildGray 3 4; EvBlack 1 2;
     EvProcess 2 3; EvBlack 2 3;
     EvProcess 3 4; EvBlack 3 4;
     EvMarkDone; EvBanner 2; EvSweepStart;
     EvSweep 0 1 Live; EvSweep 1 2 Live; EvSweep 3 4 Live;
     EvSweep 2 3 Live; EvSweep 3 4 Live] ∧
  colorAt (final (simulateThreeColorMarking 5 ∅)) 4 = Some White.
Proof. vm_compute. repeat split. Qed.

(** ** What the marking loop touches *)

Lemma recolor_same_color_eq (o o' : Object) :
  recolor o o' → color o = color o' → o = o'.
Proof. destruct o, o'. intros (?&?&?) ?. simpl in *. by subst. Qed.

(** Heaps that differ at most in colours and agree on colours are equal. *)
Lemma heap_eq_of_colors h h' :
  lift recolor h h' → (∀ l, colorAt h l = colorAt h' l) → h = h'.
Proof.
  intros H Hc. apply map_eq. intros l. specialize (H l). specialize (Hc l).
  unfold colorAt in Hc. destruct H as [o o' Hr|]; [|done].
  simpl in Hc. f_equal. apply recolor_same_color_eq; [done | congruence].
Qed.

(** Scanning changes the colour of White children only, wherever it stops. *)
Lemma scan_changes cs g h l :
  colorAt (final (foldM shadeChild g cs h)) l = colorAt h l ∨
  (l ∈ cs ∧ colorAt h l = Some White ∧
   colorAt (final (foldM shadeChild g cs h)) l = Some Gray).
Proof.
  revert g h. induction cs as [|c cs IH]; intros g h; [by left|].
  change (foldM shadeChild g (c :: cs) h)
    with ((shadeChild g c ≫= λ acc', foldM shadeChild acc' cs) h).
  rewrite run_bind. unfold bind. rewrite shadeChild_run.
  destruct (h !! c) as [oc|] eqn:Hc; simpl; [|by left].
  case_decide as Hw; simpl.
  - set (h1 := <[c := with_color Gray oc]> h).
    pose proof (scan_fwd (g ++ [c]) cs h1) as Hf.
    destruct (decide (l = c)) as [->|Hne].
    + right. split_and!; [left | apply colorAt_Some; eauto |].
      assert (colorAt h1 c = Some Gray) as Hg
        by (unfold h1; by rewrite colorAt_insert, decide_True).
      destruct (IH (g ++ [c]) h1) as [Heq|(_ & Hw' & _)]; congruence.
    + assert (colorAt h1 l = colorAt h l) as Heq
        by (unfold h1; by rewrite colorAt_insert, decide_False).
      destruct (IH (g ++ [c]) h1) as [->|(Hin & Hw' & Hg)]; [by left|].
      right. split_and!; [by right | congruence | done].
  - destruct (IH g h) as [?|(Hin & Hw' & Hg)]; [by left|].
    right. split_and!; [by right | done | done].
Qed.

(** The footprint of the marking loop, wherever it stops, when its worklist
    holds objects the root reaches: it changes and scans reachable objects
    only, an object is Black afterwards only if it was before or has been
    scanned, and an object that is Gray without being on the worklist stays
    Gray and is not scanned. *)
Lemma drain_footprint root fuel g h :
  (∀ l, l ∈ g → reach h root l) →
  (∀ l, colorAt (final (drain fuel g h)) l ≠ colorAt h l → reach h root l) ∧
  (∀ l, l ∈ processed (trace (drain fuel g h)) → reach h root l) ∧
  (∀ l, colorAt (final (drain fuel g h)) l = Some Black →
        colorAt h l = Some Black ∨ l ∈ processed (trace (drain fuel g h))) ∧
  (∀ l, l ∉ g → colorAt h l = Some Gray →
        colorAt (final (drain fuel g h)) l = Some Gray ∧
        l ∉ processed (trace (drain fuel g h))).
Proof.
  revert g h. induction fuel as [|fuel IH]; intros [|current rest] h Hg;
    try (rewrite drain_nil; simpl; split_and!;
         [done | by intros l ?%elem_of_nil | by left
         | intros l _ ?; split; [done | apply not_elem_of_nil]]).
  { simpl. split_and!;
      [done | by intros l ?%elem_of_nil | by left
      | intros l _ ?; split; [done | apply not_elem_of_nil]]. }
  destruct (h !! current) as [cur|] eqn:Hc.
  2:{ rewrite drain_nil_pointer by done. simpl. split_and!;
        [done | by intros l ?%elem_of_nil | by left
        | intros l _ ?; split; [done | apply not_elem_of_nil]]. }
  assert (reach h root current) as Hrc by (apply Hg; left).
  rewrite (drain_step _ _ _ _ cur) by done. cbv zeta.
  destruct (scan_spec (children cur) rest h) as (_ & Hp1 & _ & Hd).
  pose proof (scan_fwd rest (children cur) h) as Hf1.
  pose proof (scan_changes (children cur) rest h) as Hch.
  set (r1 := foldM shadeChild rest (children cur) h) in *.
  assert (∀ l, l ∈ children cur → reach h root l) as Hkids.
  { intros l Hl. eapply reach_trans; [exact Hrc|]. by eapply reach_child. }
  assert (∀ (oc : outcome unit),
    let r := mkRun oc (final r1) (EvProcess current (id cur) :: trace r1) in
    (∀ l, colorAt (final r) l ≠ colorAt h l → reach h root l) ∧
    (∀ l, l ∈ processed (trace r) → reach h root l) ∧
    (∀ l, colorAt (final r) l = Some Black →
          colorAt h l = Some Black ∨ l ∈ processed (trace r)) ∧
    (∀ l, l ∉ current :: rest → colorAt h l = Some Gray →
          colorAt (final r) l = Some Gray ∧ l ∉ processed (trace r))) as Hstop.
  { intros oc. cbn [final trace result]. rewrite processed_cons_process, Hp1.
    split_and!.
    - intros l Hl. destruct (Hch l) as [?|(Hin & _)]; [done | by apply Hkids].
    - by intros l ->%list_elem_of_singleton.
    - intros l Hl. left. destruct (Hch l) as [<-|(_ & _ & ?)]; [done | congruence].
    - intros l Hl Hgl. split.
      + destruct (Hch l) as [->|(_ & ? & _)]; [done | congruence].
      + intros ->%list_elem_of_singleton. apply Hl. left. }
  destruct (result r1) as [g'| |] eqn:Hr1;
    [|apply (Hstop Panic) | apply (Hstop OutOfFuel)].
  destruct (final r1 !! current) as [o'|] eqn:Ho'; [|apply (Hstop Panic)].
  destruct (Hd g' eq_refl) as (new & -> & _ & Hnew & Hcol & _).
  set (h2 := <[current := with_color Black o']> (final r1)).
  assert (lift fwd h h2) as Hf.
  { etrans; [exact Hf1 | by apply blacken_fwd]. }
  assert (∀ l, colorAt h2 l =
            if decide (current = l) then Some Black
            else if decide (l ∈ new) then Some Gray else colorAt h l) as Hcol2.
  { intros l. unfold h2. rewrite colorAt_insert. case_decide; [done|]. apply Hcol. }
  destruct (IH (rest ++ new) h2) as (IHa & IHb & IHc & IHd).
  { intros l Hl. apply (reach_fwd h h2); [done|].
    apply elem_of_app in Hl as [Hl|Hl]; [apply Hg; by right|].
    apply Hnew in Hl as [Hl _]. by apply Hkids. }
  set (r2 := drain fuel (rest ++ new) h2) in *.
  cbn [final trace result].
  change (EvBlack current (id cur) :: trace r2)
    with ([EvBlack current (id cur)] ++ trace r2).
  rewrite processed_cons_process, !processed_app, Hp1.
  change (processed [EvBlack current (id cur)]) with (@nil loc).
  rewrite !app_nil_l.
  split_and!.
  - intros l Hl. destruct (decide (colorAt (final r2) l = colorAt h2 l)) as [Heq|Hne].
    + rewrite Heq, Hcol2 in Hl. case_decide; [by subst|].
      case_decide as Hn; [|done]. apply Hnew in Hn as [? _]. by apply Hkids.
    + apply (reach_fwd h h2); [done|]. by apply IHa.
  - intros l [->|Hl]%elem_of_cons; [done|].
    apply (reach_fwd h h2); [done|]. by apply IHb.
  - intros l Hl. destruct (IHc l Hl) as [Hb|Hp]; [|right; by right].
    rewrite Hcol2 in Hb. case_decide; [subst; right; left|].
    case_decide; [done|]. by left.
  - intros l Hl Hgl.
    assert (current ≠ l) as Hne by (intros <-; apply Hl; left).
    assert (l ∉ new) as Hn by (intros [_ ?]%Hnew; congruence).
    destruct (IHd l) as [Hg2 Hp2].
    { intros [?|?]%elem_of_app; [apply Hl; by right | done]. }
    { by rewrite Hcol2, decide_False, decide_False. }
    split; [done|]. intros [?|?]%elem_of_cons; done.
Qed.

Lemma fwd_nonWhite h h' l :
  lift fwd h h' → colorAt h l ≠ Some White → colorAt h' l ≠ Some White.
Proof. intros H Hn Hw. by apply Hn, (fwd_colorAt_White h h'). Qed.

Lemma recolor_lookup_eq h h' l :
  lift recolor h h' → colorAt h' l = colorAt h l → h' !! l = h !! l.
Proof.
  intros H Hc. specialize (H l). unfold colorAt in Hc.
  destruct H as [o o' Hr|]; [|done]. simpl in Hc. f_equal. symmetry.
  apply recolor_same_color_eq; [done | congruence].
Qed.

Lemma markPhase_processed_eq fuel root o h :
  h !! root = Some o →
  processed (trace (markPhase fuel root h)) =
  processed (trace (drain fuel [root] (<[root := with_color Gray o]> h))).
Proof.
  intros Hr. rewrite (markPhase_run _ _ o) by done. simpl trace.
  change (EvMarkStart root (id o) :: ?t) with ([EvMarkStart root (id o)] ++ t).
  rewrite !processed_app.
  replace (processed match result _ with Done _ => [EvMarkDone] | _ => [] end)
    with (@nil loc) by (by destruct (result _)).
  simpl. by rewrite app_nil_r.
Qed.

Lemma markPhase_footprint fuel root o h :
  h !! root = Some o →
  let h1 := <[root := with_color Gray o]> h in
  lift recolor h h1 ∧
  (∀ l, colorAt h1 l = if decide (root = l) then Some Gray else colorAt h l) ∧
  (∀ a b, reach h1 a b ↔ reach h a b) ∧
  final (markPhase fuel root h) = final (drain fuel [root] h1).
Proof.
  intros Hr h1.
  assert (lift recolor h h1) as Hrc.
  { eapply lift_insert; [apply _ | done | apply recolor_with_color]. }
  split_and!; [done | | |].
  - intros l. apply colorAt_insert.
  - intros a b. symmetry. by apply reach_recolor.
  - by rewrite (markPhase_run _ _ o).
Qed.

(** X1: the marking phase leaves every object that the root does not reach
    exactly as it was, wherever the phase stops. *)
Theorem markPhase_leaves_unreachable fuel root h l :
  ¬ reach h root l → final (markPhase fuel root h) !! l = h !! l.
Proof.
  intros Hn. destruct (h !! root) as [o|] eqn:Hr.
  2:{ by rewrite markPhase_nil_pointer. }
  destruct (markPhase_footprint fuel root o h Hr) as (Hrc & Hcol & Hreach & Hfin).
  apply recolor_lookup_eq; [apply markPhase_recolor|].
  rewrite Hfin.
  destruct (drain_footprint root fuel [root] (<[root := with_color Gray o]> h))
    as (Hframe & _).
  { intros l' ->%list_elem_of_singleton. constructor. }
  destruct (decide (colorAt (final (drain fuel [root]
              (<[root := with_color Gray o]> h))) l =
            colorAt (<[root := with_color Gray o]> h) l)) as [->|Hne].
  - rewrite Hcol, decide_False; [done|]. intros <-. apply Hn. constructor.
  - exfalso. by apply Hn, Hreach, Hframe.
Qed.

Lemma markPhase_leaves_unreachable_witness :
  ¬ reach heapGraph 0 4 ∧
  final (markPhase 4 0 heapGraph) !! 4 = heapGraph !! 4.
Proof.
  split; [exact orphan_unreachable|].
  exact (markPhase_leaves_unreachable 4 0 heapGraph 4 orphan_unreachable).
Defined.

(** X2: apart from its root the marking phase scans only objects that were
    White when it started; an object that is Gray at the start (one a
    barrier has shaded, say) is never scanned and is still Gray when the
    phase stops. *)
Theorem markPhase_scans_white_only fuel root h :
  (∀ l, l ∈ processed (trace (markPhase fuel root h)) →
        l = root ∨ colorAt h l = Some White) ∧
  (∀ l, l ≠ root → colorAt h l = Some Gray →
        colorAt (final (markPhase fuel root h)) l = Some Gray).
Proof.
  destruct (h !! root) as [o|] eqn:Hr.
  2:{ rewrite markPhase_nil_pointer by done. simpl.
      split; [by intros l ?%elem_of_nil | done]. }
  destruct (markPhase_footprint fuel root o h Hr) as (Hrc & Hcol & Hreach & Hfin).
  rewrite (markPhase_processed_eq _ _ o), Hfin by done.
  set (h1 := <[root := with_color Gray o]> h) in *.
  destruct (drain_footprint root fuel [root] h1) as (_ & _ & _ & Hgray).
  { intros l' ->%list_elem_of_singleton. constructor. }
  destruct (drain_processed fuel [root] h1) as [_ Hproc].
  { apply NoDup_singleton. }
  { intros l ->%list_elem_of_singleton. by rewrite Hcol, decide_True. }
  assert (∀ l, l ≠ root → colorAt h l = Some Gray →
               colorAt (final (drain fuel [root] h1)) l = Some Gray ∧
               l ∉ processed (trace (drain fuel [root] h1))) as Hg.
  { intros l Hne Hgl. apply Hgray.
    - by intros ->%list_elem_of_singleton.
    - by rewrite Hcol, decide_False. }
  split.
  - intros l Hl. destruct (decide (l = root)) as [|Hne]; [by left|]. right.
    specialize (Hproc l Hl). rewrite Hcol, decide_False in Hproc by done.
    destruct Hproc as [Hgl|?]; [|done]. by destruct (Hg l Hne Hgl).
  - intros l Hne Hgl. by destruct (Hg l Hne Hgl).
Qed.

(** X3: on a graph without nil pointers whose reachable objects are all
    White the marking phase scans exactly the objects the root reaches,
    each of them once. *)
Theorem markPhase_scans_reachable_once fuel root h :
  closed h → is_Some (h !! root) → fresh_cycle h root → size h ≤ fuel →
  NoDup (processed (trace (markPhase fuel root h))) ∧
  ∀ l, l ∈ processed (trace (markPhase fuel root h)) ↔ reach h root l.
Proof.
  intros Hcl [o Hr] Hfresh Hf. split; [apply markPhase_processed|].
  destruct (markPhase_complete fuel root h Hcl (mk_is_Some _ _ Hr) Hfresh Hf)
    as [_ Hall].
  destruct (markPhase_footprint fuel root o h Hr) as (Hrc & Hcol & Hreach & Hfin).
  rewrite (markPhase_processed_eq _ _ o) by done. rewrite Hfin in Hall.
  set (h1 := <[root := with_color Gray o]> h) in *.
  destruct (drain_footprint root fuel [root] h1) as (_ & Hsub & Hblack & _).
  { intros l' ->%list_elem_of_singleton. constructor. }
  intros l. split.
  - intros Hl. by apply Hreach, Hsub.
  - intros Hl. destruct (Hblack l (Hall l Hl)) as [Hb|?]; [|done].
    rewrite Hcol in Hb. case_decide; [done|].
    destruct (reach_allocated h root l Hcl (mk_is_Some _ _ Hr) Hl) as [ol Hol].
    apply colorAt_Some in Hb as (ol' & Hol' & Hc). simplify_eq.
    by rewrite (Hfresh l ol' Hl Hol') in Hc.
Qed.

Lemma markPhase_scans_reachable_once_witness :
  closed heapGraph ∧ is_Some (heapGraph !! 0) ∧ fresh_cycle heapGraph 0 ∧
  size heapGraph ≤ 5 ∧
  NoDup (processed (trace (markPhase 5 0 heapGraph))) ∧
  ∀ l, l ∈ processed (trace (markPhase 5 0 heapGraph)) ↔ reach heapGraph 0 l.
Proof.
  assert (is_Some (heapGraph !! 0)) as H0 by exact (mk_is_Some _ _ eq_refl).
  assert (size heapGraph ≤ 5) as Hs by (vm_compute; lia).
  split_and!; [exact heapGraph_closed | exact H0 | exact heapGraph_fresh
              | exact Hs | |];
    apply (markPhase_scans_reachable_once 5 0 heapGraph heapGraph_closed H0
             heapGraph_fresh Hs).
Defined.

(** ** Marking twice *)

Lemma scan_Done_allocated cs g h g' :
  result (foldM shadeChild g cs h) = Done g' →
  ∀ c, c ∈ cs → is_Some (h !! c).
Proof.
  revert g h. induction cs as [|c cs IH]; intros g h Hd c' Hc';
    [by apply elem_of_nil in Hc'|].
  change (foldM shadeChild g (c :: cs) h)
    with ((shadeChild g c ≫= λ acc', foldM shadeChild acc' cs) h) in Hd.
  rewrite run_bind in Hd. unfold bind in Hd. rewrite shadeChild_run in Hd.
  destruct (h !! c) as [oc|] eqn:Hc; [|done].
  apply elem_of_cons in Hc' as [->|Hc']; [eauto|].
  case_decide; simpl in Hd.
  - specialize (IH _ _ Hd c' Hc').
    apply lookup_insert_is_Some in IH as [<-|[_ ?]]; eauto.
  - by eapply IH.
Qed.

(** Scanning children none of which is White does nothing. *)
Lemma scan_noop cs g h :
  (∀ c, c ∈ cs → ∃ k, colorAt h c = Some k ∧ k ≠ White) →
  foldM shadeChild g cs h = mkRun (Done g) h [].
Proof.
  induction cs as [|c cs IH]; intros Hcs; [done|].
  change (foldM shadeChild g (c :: cs) h)
    with ((shadeChild g c ≫= λ acc', foldM shadeChild acc' cs) h).
  rewrite run_bind. unfold bind. rewrite shadeChild_run.
  destruct (Hcs c ltac:(left)) as (k & Hk & Hn).
  apply colorAt_Some in Hk as (oc & -> & <-).
  rewrite decide_False by done. simpl. rewrite IH; [done|].
  intros c' Hc'. apply Hcs. by right.
Qed.

(** When the loop has completed, the children of the object it took first
    are allocated and not White. *)
Lemma drain_head_children fuel current rest cur h :
  h !! current = Some cur →
  result (drain fuel (current :: rest) h) = Done tt →
  ∀ b, b ∈ children cur →
       ∃ k, colorAt (final (drain fuel (current :: rest) h)) b = Some k ∧
            k ≠ White.
Proof.
  intros Hc. destruct fuel as [|fuel]; [done|].
  rewrite (drain_step _ _ _ _ cur) by done. cbv zeta.
  destruct (scan_spec (children cur) rest h) as (_ & _ & _ & Hd).
  pose proof (scan_fwd rest (children cur) h) as Hf1.
  pose proof (scan_Done_allocated (children cur) rest h) as Hal.
  destruct (result (foldM shadeChild rest (children cur) h)) as [g'| |];
    [|done..].
  destruct (Hd g' eq_refl) as (new & -> & _ & Hnew & Hcol & _).
  set (h1 := final (foldM shadeChild rest (children cur) h)) in *.
  destruct (h1 !! current) as [o'|] eqn:Ho'; [|done].
  simpl. intros Hdone b Hb.
  set (h2 := <[current := with_color Black o']> h1).
  assert (lift fwd h (final (drain fuel (rest ++ new) h2))) as Hf
    by (etrans; [exact Hf1|]; etrans; [by apply blacken_fwd | apply drain_fwd]).
  destruct (Hal _ eq_refl b Hb) as [ob Hob].
  destruct (lift_lookup _ _ _ _ _ Hf Hob) as (ob' & Hob' & _).
  exists (color ob'). split; [apply colorAt_Some; eauto|].
  assert (colorAt h1 b ≠ Some White) as Hn1.
  { rewrite Hcol. case_decide as Hin; [done|]. intros Hw. by apply Hin, Hnew. }
  assert (lift fwd h1 (final (drain fuel (rest ++ new) h2))) as Hf2
    by (etrans; [by apply blacken_fwd | apply drain_fwd]).
  pose proof (fwd_nonWhite _ _ b Hf2 Hn1) as Hn.
  intros Hw. apply Hn, colorAt_Some. eauto.
Qed.

(** X4: a second marking phase from the same root, run on the heap a
    completed one left, scans the root only and leaves that heap as it is,
    whatever the colours were at the start. *)
Theorem markPhase_idempotent fuel fuel' root h :
  result (markPhase fuel root h) = Done tt → 0 < fuel' →
  let h1 := final (markPhase fuel root h) in
  result (markPhase fuel' root h1) = Done tt ∧
  final (markPhase fuel' root h1) = h1 ∧
  processed (trace (markPhase fuel' root h1)) = [root].
Proof.
  intros Hd Hf h1.
  destruct (h !! root) as [o|] eqn:Hr.
  2:{ by rewrite markPhase_nil_pointer in Hd. }
  pose proof (markPhase_recolor fuel root h : lift recolor h h1) as Hrc.
  destruct (lift_lookup _ _ _ _ _ Hrc Hr) as (o1 & Ho1 & _ & _ & Hch).
  assert (color o1 = Black ∧
          ∀ b, b ∈ children o1 → ∃ k, colorAt h1 b = Some k ∧ k ≠ White)
    as [Hb Hkids].
  { unfold h1 in *. rewrite (markPhase_run _ _ o) in Hd, Ho1 |- * by done.
    simpl in Hd, Ho1 |- *.
    assert (result (drain fuel [root] (<[root:=with_color Gray o]> h)) = Done tt)
      as Hd' by (by destruct (result (drain _ _ _)) as [[]| |]).
    split.
    - pose proof (drain_head_Black _ _ _ _ Hd') as Hbl.
      apply colorAt_Some in Hbl as (o' & Ho' & Hc'). congruence.
    - intros b Hbin.
      eapply (drain_head_children fuel root [] (with_color Gray o));
        [apply lookup_insert_eq | done | simpl; by rewrite Hch]. }
  destruct fuel' as [|f]; [lia|].
  rewrite (markPhase_processed_eq _ _ o1) by done.
  rewrite (markPhase_run _ _ o1) by done. cbv zeta.
  set (hA := <[root := with_color Gray o1]> h1).
  assert (drain (S f) [root] hA = mkRun (Done tt) h1
            [EvProcess root (id o1); EvBlack root (id o1)]) as ->.
  { rewrite (drain_step _ _ _ _ (with_color Gray o1))
      by (unfold hA; apply lookup_insert_eq).
    cbv zeta. simpl children. rewrite scan_noop.
    - simpl. unfold hA at 1. rewrite lookup_insert_eq.
      rewrite drain_nil. simpl. f_equal. unfold hA.
      rewrite insert_insert_eq.
      apply insert_id. rewrite Ho1. f_equal.
      destruct o1. simpl in *. by subst.
    - intros c Hc. destruct (Hkids c Hc) as (k & Hk & Hn).
      unfold hA. rewrite colorAt_insert. case_decide; [|eauto].
      exists Gray. done. }
  done.
Qed.

Lemma markPhase_idempotent_witness :
  result (markPhase 4 0 heapGraph) = Done tt ∧ 0 < 1 ∧
  final (markPhase 1 0 (final (markPhase 4 0 heapGraph))) =
    final (markPhase 4 0 heapGraph).
Proof.
  assert (result (markPhase 4 0 heapGraph) = Done tt) as Hd by reflexivity.
  assert (0 < 1) as Hf by lia.
  destruct (markPhase_idempotent 4 1 0 heapGraph Hd Hf) as (_ & Hfin & _).
  split_and!; [exact Hd | exact Hf | exact Hfin].
Defined.

(** ** The recursive marking is complete *)

Lemma fwd_nonWhite_Some h h' l k :
  lift fwd h h' → colorAt h l = Some k → k ≠ White →
  ∃ k', colorAt h' l = Some k' ∧ k' ≠ White.
Proof.
  intros H Hk Hn. apply colorAt_Some in Hk as (o & Ho & <-).
  destruct (lift_lookup _ _ _ _ _ H Ho) as (o' & Ho' & Hf).
  exists (color o'). split; [apply colorAt_Some; eauto|].
  exact (colfwd_keepNW o o' (fwd_colfwd o o' Hf) Hn).
Qed.

Lemma newly_black_refl h : newly_black h h.
Proof.
  intros a oa Ha Hw Hn. exfalso. apply Hn, colorAt_Some. eauto.
Qed.

Lemma newly_black_trans h1 h2 h3 :
  lift fwd h1 h2 → lift fwd h2 h3 →
  newly_black h1 h2 → newly_black h2 h3 → newly_black h1 h3.
Proof.
  intros H12 H23 N12 N23 a oa Ha Hw Hn.
  destruct (lift_lookup _ _ _ _ _ H12 Ha) as (oa2 & Ha2 & (_ & _ & Hch) & _).
  destruct (decide (color oa2 = White)) as [Hw2|Hn2].
  - rewrite Hch. by apply N23.
  - destruct (N12 a oa Ha Hw) as [Hb Hkids].
    { intros Hw2. apply colorAt_Some in Hw2 as (? & ? & ?). congruence. }
    split; [by eapply fwd_colorAt_Black|].
    intros b Hb'. destruct (Hkids b Hb') as (k & Hk & Hnk).
    by eapply fwd_nonWhite_Some.
Qed.

Lemma markObject_children_fwd fuel xs :
  pres (lift fwd) (forM_ (markObject fuel) xs).
Proof. apply pres_forM; [apply _|]. intros x _. apply markObject_fwd. Qed.

Lemma markObject_children_post fuel
    (IH : ∀ obj h, result (markObject fuel obj h) = Done tt →
       (∃ k, colorAt (final (markObject fuel obj h)) obj = Some k ∧ k ≠ White) ∧
       newly_black h (final (markObject fuel obj h))) xs h :
  result (forM_ (markObject fuel) xs h) = Done tt →
  (∀ x, x ∈ xs →
        ∃ k, colorAt (final (forM_ (markObject fuel) xs h)) x = Some k ∧
             k ≠ White) ∧
  newly_black h (final (forM_ (markObject fuel) xs h)).
Proof.
  revert h. induction xs as [|x xs IHxs]; intros h.
  { intros _. simpl. split; [by intros x ?%elem_of_nil | apply newly_black_refl]. }
  rewrite forM_cons, run_bind. unfold bind.
  pose proof (markObject_fwd fuel x h) as Hf1.
  specialize (IH x h).
  destruct (result (markObject fuel x h)) as [[]| |]; simpl; [|done..].
  destruct (IH eq_refl) as [Hx N1].
  set (h1 := final (markObject fuel x h)) in *.
  pose proof (markObject_children_fwd fuel xs h1) as Hf2.
  intros Hd. destruct (IHxs h1 Hd) as [Hxs N2]. split.
  - intros y [->|Hy]%elem_of_cons; [|by apply Hxs].
    destruct Hx as (k & Hk & Hn). by eapply fwd_nonWhite_Some.
  - by eapply newly_black_trans.
Qed.

(** What a completed call of the recursive marking has done: its object is
    not White, and what it has taken out of White is Black and holds no
    White child. *)
Lemma markObject_post fuel obj h :
  result (markObject fuel obj h) = Done tt →
  (∃ k, colorAt (final (markObject fuel obj h)) obj = Some k ∧ k ≠ White) ∧
  newly_black h (final (markObject fuel obj h)).
Proof.
  revert obj h. induction fuel as [|fuel IH]; intros obj h; [done|].
  destruct (h !! obj) as [o|] eqn:Ho.
  2:{ by rewrite markObject_nil_pointer. }
  destruct (decide (color o = White)) as [Hw|Hw].
  2:{ rewrite (markObject_skip _ _ o) by done. simpl. intros _. split.
      - exists (color o). split; [apply colorAt_Some; eauto | done].
      - apply newly_black_refl. }
  rewrite (markObject_step _ _ o) by done. cbv zeta.
  set (h1 := <[obj := with_color Gray o]> h).
  pose proof (markObject_children_post fuel IH (children o) h1) as Hpost.
  pose proof (markObject_children_fwd fuel (children o) h1) as Hf1.
  destruct (result (forM_ (markObject fuel) (children o) h1)) as [[]| |];
    [|done..].
  destruct (Hpost eq_refl) as [Hkids N1].
  set (h2 := final (forM_ (markObject fuel) (children o) h1)) in *.
  destruct (h2 !! obj) as [o'|] eqn:Ho'; [|done].
  simpl. intros _.
  set (h3 := <[obj := with_color Black o']> h2).
  assert (lift fwd h2 h3) as Hf2 by (by apply blacken_fwd).
  assert (colorAt h3 obj = Some Black) as Hobj
    by (unfold h3; by rewrite colorAt_insert, decide_True).
  split; [by exists Black|].
  intros a oa Ha Hwa Hna.
  destruct (decide (a = obj)) as [->|Hne].
  - split; [done|]. assert (oa = o) as -> by congruence.
    intros b Hb. destruct (Hkids b Hb) as (k & Hk & Hn).
    by eapply fwd_nonWhite_Some.
  - assert (h1 !! a = Some oa) as Ha1
      by (unfold h1; by rewrite lookup_insert_ne).
    assert (colorAt h3 a = colorAt h2 a) as Heq
      by (unfold h3; by rewrite colorAt_insert, decide_False).
    rewrite Heq in Hna |- *.
    destruct (N1 a oa Ha1 Hwa Hna) as [Hb Hkids'].
    split; [done|]. intros b Hb'.
    destruct (Hkids' b Hb') as (k & Hk & Hn). by eapply fwd_nonWhite_Some.
Qed.

Lemma markObject_returns fuel obj h :
  closed h → is_Some (h !! obj) → size h < fuel →
  result (markObject fuel obj h) = Done tt.
Proof.
  intros Hcl Hobj Hf.
  pose proof (markObject_no_panic fuel obj h Hcl Hobj).
  pose proof (markObject_no_timeout fuel obj h) as Hnt.
  pose proof (whites_le_size h).
  specialize (Hnt ltac:(lia)).
  by destruct (result (markObject fuel obj h)) as [[]| |].
Qed.

Lemma markObject_blackens fuel obj h :
  closed h → is_Some (h !! obj) → fresh_cycle h obj →
  result (markObject fuel obj h) = Done tt →
  ∀ l, reach h obj l → colorAt (final (markObject fuel obj h)) l = Some Black.
Proof.
  intros Hcl Hobj Hfresh Hd.
  destruct (markObject_post fuel obj h Hd) as [(k & Hk & Hn) N].
  set (h' := final (markObject fuel obj h)) in *.
  assert (∀ a, reach h obj a → colorAt h' a ≠ Some White →
               colorAt h' a = Some Black ∧
               ∀ oa b, h !! a = Some oa → b ∈ children oa →
                       colorAt h' b ≠ Some White) as Hstep.
  { intros a Ha Hna.
    destruct (reach_allocated h obj a Hcl Hobj Ha) as [oa Hoa].
    destruct (N a oa Hoa (Hfresh a oa Ha Hoa) Hna) as [Hb Hkids].
    split; [done|]. intros oa' b Hoa' Hb'. assert (oa' = oa) as -> by congruence.
    destruct (Hkids b Hb') as (kb & -> & Hnb). congruence. }
  assert (∀ a l, reach h a l → reach h obj a → colorAt h' a ≠ Some White →
                 colorAt h' l = Some Black) as Hind.
  { intros a l Hr. induction Hr as [a|a o b c Hao Hb _ IH].
    - intros Ha Hna. by destruct (Hstep a Ha Hna).
    - intros Ha Hna. destruct (Hstep a Ha Hna) as [_ Hkids].
      apply IH.
      + eapply reach_trans; [exact Ha|]. by eapply reach_child.
      + by eapply Hkids. }
  intros l Hl. apply (Hind obj l Hl); [constructor|]. congruence.
Qed.

(** X5: started on an object of a graph without nil pointers from which only
    White objects can be reached, the recursive marking returns within a
    depth of one call per object and has turned every object it can reach
    Black. *)
Theorem markObject_complete fuel obj h :
  closed h → is_Some (h !! obj) → fresh_cycle h obj → size h < fuel →
  result (markObject fuel obj h) = Done tt ∧
  ∀ l, reach h obj l → colorAt (final (markObject fuel obj h)) l = Some Black.
Proof.
  intros Hcl Hobj Hfresh Hf.
  pose proof (markObject_returns fuel obj h Hcl Hobj Hf) as Hd.
  split; [exact Hd|].
  intros l Hl. exact (markObject_blackens fuel obj h Hcl Hobj Hfresh Hd l Hl).
Qed.

Lemma markObject_complete_witness :
  closed heapCycle ∧ is_Some (heapCycle !! 0) ∧ fresh_cycle heapCycle 0 ∧
  size heapCycle < 3 ∧
  result (markObject 3 0 heapCycle) = Done tt ∧
  ∀ l, reach heapCycle 0 l →
       colorAt (final (markObject 3 0 heapCycle)) l = Some Black.
Proof.
  assert (is_Some (heapCycle !! 0)) as H0 by exact (mk_is_Some _ _ eq_refl).
  assert (size heapCycle < 3) as Hs by (vm_compute; lia).
  assert (fresh_cycle heapCycle 0) as Hfr.
  { intros l o _ Hl.
    assert (map_Forall (λ _ o, color o = White) heapCycle) as Hall
      by (apply (bool_decide_unpack _); by vm_compute).
    exact (Hall l o Hl). }
  split_and!; [exact heapCycle_closed | exact H0 | exact Hfr | exact Hs | |];
    apply (markObject_complete 3 0 heapCycle heapCycle_closed H0 Hfr Hs).
Defined.

(** X6: a second call of the recursive marking on the object a completed
    call was given returns at once: it prints nothing and changes nothing. *)
Theorem markObject_again_is_noop fuel fuel' obj h :
  result (markObject fuel obj h) = Done tt → 0 < fuel' →
  markObject fuel' obj (final (markObject fuel obj h)) =
  mkRun (Done tt) (final (markObject fuel obj h)) [].
Proof.
  intros Hd Hf. destruct (markObject_post fuel obj h Hd) as [(k & Hk & Hn) _].
  apply colorAt_Some in Hk as (o & Ho & <-).
  destruct fuel' as [|f]; [lia|]. by apply (markObject_skip f obj o).
Qed.

Lemma markObject_again_is_noop_witness :
  result (markObject 3 0 heapCycle) = Done tt ∧ 0 < 1 ∧
  markObject 1 0 (final (markObject 3 0 heapCycle)) =
  mkRun (Done tt) (final (markObject 3 0 heapCycle)) [].
Proof.
  assert (result (markObject 3 0 heapCycle) = Done tt) as Hd by reflexivity.
  assert (0 < 1) as Hf by lia.
  split_and!; [exact Hd | exact Hf |].
  exact (markObject_again_is_noop 3 1 0 heapCycle Hd Hf).
Defined.

Lemma markObject_children_footprint fuel
    (IH : ∀ obj h l,
       colorAt (final (markObject fuel obj h)) l ≠ colorAt h l → reach h obj l)
    xs h l :
  colorAt (final (forM_ (markObject fuel) xs h)) l ≠ colorAt h l →
  reachFrom h xs l.
Proof.
  revert h. induction xs as [|x xs IHxs]; intros h; [done|].
  rewrite forM_cons, run_bind. unfold bind.
  pose proof (markObject_fwd fuel x h) as Hf1.
  specialize (IH x h l).
  destruct (result (markObject fuel x h)) as [[]| |]; simpl;
    [|intros Hne; apply reachFrom_cons; left; by apply IH..].
  set (h1 := final (markObject fuel x h)) in *.
  intros Hne. apply reachFrom_cons.
  destruct (decide (colorAt h1 l = colorAt h l)) as [Heq|Hne1].
  - right. rewrite <- Heq in Hne.
    destruct (IHxs h1 Hne) as (c & Hc & Hr). exists c. split; [done|].
    by apply (reach_fwd h h1).
  - left. by apply IH.
Qed.

(** The recursive marking changes colours of objects it can reach only,
    wherever it stops. *)
Lemma markObject_footprint fuel obj h l :
  colorAt (final (markObject fuel obj h)) l ≠ colorAt h l → reach h obj l.
Proof.
  revert obj h l. induction fuel as [|fuel IH]; intros obj h l; [done|].
  destruct (h !! obj) as [o|] eqn:Ho.
  2:{ by rewrite markObject_nil_pointer. }
  destruct (decide (color o = White)) as [Hw|Hw].
  2:{ by rewrite (markObject_skip _ _ o). }
  rewrite (markObject_step _ _ o) by done. cbv zeta.
  set (h1 := <[obj := with_color Gray o]> h).
  pose proof (markObject_children_footprint fuel IH (children o) h1 l) as Hloop.
  assert (lift recolor h h1) as Hrc.
  { eapply lift_insert; [apply _ | done | apply recolor_with_color]. }
  assert (colorAt (final (forM_ (markObject fuel) (children o) h1)) l ≠
          colorAt h l → reach h obj l) as Hkey.
  { intros Hne. destruct (decide (l = obj)) as [->|Hlo]; [constructor|].
    assert (colorAt h1 l = colorAt h l) as Heq
      by (unfold h1; by rewrite colorAt_insert, decide_False).
    rewrite <- Heq in Hne. destruct (Hloop Hne) as (c & Hc & Hr).
    econstructor; [exact Ho | exact Hc |]. by apply (reach_recolor h h1). }
  destruct (result (forM_ (markObject fuel) (children o) h1)) as [[]| |];
    [|done..].
  destruct (final (forM_ (markObject fuel) (children o) h1) !! obj)
    as [o'|] eqn:Ho'; [|done].
  simpl. rewrite colorAt_insert. case_decide; [subst; constructor | done].
Qed.

(** The marking phase changes colours of objects the root reaches only. *)
Lemma markPhase_changes_reachable fuel root h l :
  colorAt (final (markPhase fuel root h)) l ≠ colorAt h l → reach h root l.
Proof.
  intros Hne. destruct (h !! root) as [o|] eqn:Hr.
  2:{ by rewrite markPhase_nil_pointer in Hne. }
  destruct (markPhase_footprint fuel root o h Hr) as (_ & Hcol & Hreach & Hfin).
  destruct (drain_footprint root fuel [root]
              (<[root := with_color Gray o]> h)) as (Hframe & _).
  { intros l' ->%list_elem_of_singleton. constructor. }
  destruct (decide (l = root)) as [->|Hlr]; [constructor|].
  apply Hreach, Hframe. rewrite <- Hfin, Hcol, decide_False; done.
Qed.

(** X7: the recursive marking leaves every object that its start does not
    reach exactly as it was, wherever it stops. *)
Theorem markObject_leaves_unreachable fuel obj h l :
  ¬ reach h obj l → final (markObject fuel obj h) !! l = h !! l.
Proof.
  intros Hn. apply recolor_lookup_eq.
  - apply lift_fwd_recolor, markObject_fwd.
  - destruct (decide (colorAt (final (markObject fuel obj h)) l = colorAt h l))
      as [|Hne]; [done|].
    exfalso. by apply Hn, (markObject_footprint fuel).
Qed.

Lemma markObject_leaves_unreachable_witness :
  ¬ reach heapGraph 0 4 ∧
  final (markObject 4 0 heapGraph) !! 4 = heapGraph !! 4.
Proof.
  split; [exact orphan_unreachable|].
  exact (markObject_leaves_unreachable 4 0 heapGraph 4 orphan_unreachable).
Defined.

(** X8: on a graph without nil pointers whose reachable objects are all
    White, the worklist marking of [markPhase] and the recursive marking of
    [markObject] leave the same heap. *)
Theorem markers_agree fuel root h :
  closed h → is_Some (h !! root) → fresh_cycle h root → size h < fuel →
  final (markObject fuel root h) = final (markPhase fuel root h).
Proof.
  intros Hcl Hroot Hfresh Hf.
  pose proof (markObject_blackens fuel root h Hcl Hroot Hfresh
                (markObject_returns fuel root h Hcl Hroot Hf)) as Ho.
  destruct (markPhase_complete fuel root h Hcl Hroot Hfresh ltac:(lia))
    as [_ Hp].
  pose proof (lift_fwd_recolor _ _ (markObject_fwd fuel root h)) as Hro.
  pose proof (markPhase_recolor fuel root h) as Hrp.
  apply heap_eq_of_colors.
  - etrans; [apply recolor_sym; exact Hro | exact Hrp].
  - intros l.
    destruct (decide (colorAt (final (markObject fuel root h)) l = colorAt h l))
      as [Heq|Hne].
    + destruct (decide (colorAt (final (markPhase fuel root h)) l = colorAt h l))
        as [Heq'|Hne']; [congruence|].
      pose proof (markPhase_changes_reachable fuel root h l Hne') as Hl.
      by rewrite (Ho l Hl), (Hp l Hl).
    + pose proof (markObject_footprint fuel root h l Hne) as Hl.
      by rewrite (Ho l Hl), (Hp l Hl).
Qed.

Lemma markers_agree_witness :
  closed heapGraph ∧ is_Some (heapGraph !! 0) ∧ fresh_cycle heapGraph 0 ∧
  size heapGraph < 6 ∧
  final (markObject 6 0 heapGraph) = final (markPhase 6 0 heapGraph).
Proof.
  assert (is_Some (heapGraph !! 0)) as H0 by exact (mk_is_Some _ _ eq_refl).
  assert (size heapGraph < 6) as Hs by (vm_compute; lia).
  split_and!; [exact heapGraph_closed | exact H0 | exact heapGraph_fresh
              | exact Hs |].
  exact (markers_agree 6 0 heapGraph heapGraph_closed H0 heapGraph_fresh Hs).
Defined.

(** ** When the sweeper returns, and when it does not *)

Lemma collectAll_children_Done_each fuel h cs all all' :
  result (foldM (λ all child, collectAll fuel (all ++ [child]) child) all cs h)
    = Done all' →
  ∀ c, c ∈ cs → ∃ acc acc', result (collectAll fuel acc c h) = Done acc'.
Proof.
  revert all. induction cs as [|c cs IH]; intros all Hd c' Hc';
    [by apply elem_of_nil in Hc'|].
  change (foldM ?f all (c :: cs) h)
    with ((f all c ≫= λ acc', foldM f acc' cs) h) in Hd.
  rewrite run_bind in Hd. unfold bind in Hd.
  destruct (collectAll_spec fuel h (all ++ [c]) c) as (Hfin & _ & _).
  destruct (result (collectAll fuel (all ++ [c]) c h)) as [a1| |] eqn:Hr1;
    [|done..].
  simpl in Hd. rewrite Hfin in Hd.
  apply elem_of_cons in Hc' as [->|Hc']; [eauto|]. by eapply IH.
Qed.

(** A traversal that returns had more fuel than any path from its start has
    edges. *)
Lemma collectAll_Done_walk fuel h all obj all' n :
  result (collectAll fuel all obj h) = Done all' → walk h obj n → n < fuel.
Proof.
  revert all obj all' n. induction fuel as [|fuel IH];
    intros all obj all' n Hd Hw; [done|].
  destruct Hw as [a|a o b n Ha Hb Hw]; [lia|].
  simpl collectAll in Hd. rewrite (bind_deref_Some _ o) in Hd by done.
  destruct (collectAll_children_Done_each fuel h _ _ _ Hd b Hb)
    as (acc & acc' & Hdb).
  specialize (IH _ _ _ _ Hdb Hw). lia.
Qed.

Lemma walk_prepend h a b n :
  reach h a b → walk h b n → ∃ m, n ≤ m ∧ walk h a m.
Proof.
  induction 1 as [a|a o c b Ha Hc _ IH]; intros Hw; [eauto|].
  destruct (IH Hw) as (m & Hm & Hwm). exists (S m). split; [lia|].
  by econstructor.
Qed.

Lemma walk_on_cycle h a n : on_cycle h a → ∃ m, n ≤ m ∧ walk h a m.
Proof.
  intros (o & b & Ha & Hb & Hr). induction n as [|n (m & Hm & Hw)].
  - exists 0. split; [lia | constructor].
  - destruct (walk_prepend h b a m Hr Hw) as (m' & Hm' & Hw').
    exists (S m'). split; [lia|]. by econstructor.
Qed.

(** X9: when the root reaches an object that lies on a cycle, the sweeper
    does not return, whatever budget it is given: its traversal follows
    children without remembering what it has visited. *)
Theorem sweepPhase_never_returns_on_cycle fuel root a h :
  reach h root a → on_cycle h a →
  result (sweepPhase fuel root h) ≠ Done tt.
Proof.
  intros Hr Hc Hd. rewrite sweepPhase_run in Hd.
  destruct (result (collectAll fuel [root] root h)) as [all| |] eqn:Hall;
    [|done..].
  destruct (walk_on_cycle h a fuel Hc) as (m & Hm & Hw).
  destruct (walk_prepend h root a m Hr Hw) as (m' & Hm' & Hw').
  pose proof (collectAll_Done_walk _ _ _ _ _ _ Hall Hw'). lia.
Qed.

Lemma sweepPhase_never_returns_on_cycle_witness :
  reach heapCycle 0 0 ∧ on_cycle heapCycle 0 ∧
  result (sweepPhase 100 0 heapCycle) ≠ Done tt.
Proof.
  assert (reach heapCycle 0 0) as Hr by constructor.
  assert (on_cycle heapCycle 0) as Hc.
  { exists (mkObject 1 White [] [1]), 1. split_and!; [reflexivity | left |].
    eapply reach_step; [reflexivity | left | constructor]. }
  split_and!; [exact Hr | exact Hc |].
  exact (sweepPhase_never_returns_on_cycle 100 0 0 heapCycle Hr Hc).
Defined.

Lemma collectAll_no_panic fuel h all obj :
  closed h → is_Some (h !! obj) → result (collectAll fuel all obj h) ≠ Panic.
Proof.
  intros Hcl. revert all obj. induction fuel as [|fuel IH];
    intros all obj [o Ho]; [done|].
  simpl collectAll. rewrite (bind_deref_Some _ o) by done.
  assert (∀ cs, (∀ c, c ∈ cs → is_Some (h !! c)) → ∀ all',
    result (foldM (λ all child, collectAll fuel (all ++ [child]) child)
                  all' cs h) ≠ Panic) as Hcs.
  { induction cs as [|c cs IHcs]; intros Hsub all'; [done|].
    change (foldM ?f all' (c :: cs) h)
      with ((f all' c ≫= λ acc', foldM f acc' cs) h).
    rewrite run_bind. unfold bind.
    destruct (collectAll_spec fuel h (all' ++ [c]) c) as (Hfin & _ & _).
    pose proof (IH (all' ++ [c]) c (Hsub c ltac:(left))).
    destruct (result (collectAll fuel (all' ++ [c]) c h)) as [a1| |];
      simpl; [|done..].
    rewrite Hfin. apply IHcs. intros c' Hc'. apply Hsub. by right. }
  apply Hcs. intros c Hc. by eapply closed_lookup.
Qed.

Lemma report_no_panic xs h :
  (∀ l, l ∈ xs → is_Some (h !! l)) →
  result (forM_ reportObject xs h) = Done tt.
Proof.
  induction xs as [|x xs IH]; intros Hxs; [done|].
  rewrite forM_cons, run_bind. unfold bind. rewrite reportObject_run.
  destruct (Hxs x ltac:(left)) as [o ->]. simpl. apply IH.
  intros l Hl. apply Hxs. by right.
Qed.

Lemma sweepPhase_acyclic (rk : loc → nat) fuel root h :
  ranked rk h → closed h → is_Some (h !! root) → rk root < fuel →
  result (sweepPhase fuel root h) = Done tt.
Proof.
  intros Hrk Hcl Hroot Hf.
  rewrite sweepPhase_run.
  pose proof (collectAll_no_timeout rk h fuel [root] root Hrk Hf).
  pose proof (collectAll_no_panic fuel h [root] root Hcl Hroot).
  destruct (collectAll_spec fuel h [root] root) as (_ & _ & Hspec).
  destruct (result (collectAll fuel [root] root h)) as [all| |]; [|done..].
  destruct (Hspec all eq_refl) as (o & new & Ho & -> & Hnew).
  cbn [result]. apply (report_no_panic ([root] ++ new)).
  intros l [->%list_elem_of_singleton|Hl]%elem_of_app; [done|].
  apply Hnew in Hl as (c & Hc & Hr).
  eapply reach_allocated; [done | by eapply closed_lookup | done].
Qed.

(** X10: on a graph without nil pointers whose edges go down along some
    rank (an acyclic graph) the sweeper returns as soon as its budget
    exceeds the rank of the root, with a verdict by colour on every object
    the root reaches. *)
Theorem sweepPhase_returns_on_acyclic (rk : loc → nat) fuel root h :
  ranked rk h → closed h → is_Some (h !! root) → rk root < fuel →
  result (sweepPhase fuel root h) = Done tt ∧
  ∀ l o, reach h root l → h !! l = Some o →
         (l, classify (color o)) ∈ swept (trace (sweepPhase fuel root h)).
Proof.
  intros Hrk Hcl Hroot Hf.
  pose proof (sweepPhase_acyclic rk fuel root h Hrk Hcl Hroot Hf) as Hd.
  split; [exact Hd|]. intros l o Hl Ho.
  destruct (sweepPhase_spec fuel root h) as [_ Hall].
  destruct (Hall Hd l Hl) as (o' & Ho' & Hin). by simplify_eq.
Qed.

Lemma heapGraph_ranked : ranked graphRank heapGraph.
Proof.
  assert (map_Forall (λ a o, Forall (λ b, graphRank b < graphRank a)
            (children o)) heapGraph) as Hall
    by (apply (bool_decide_unpack _); by vm_compute).
  intros a o b Ha Hb. specialize (Hall a o Ha). simpl in Hall.
  rewrite Forall_forall in Hall. by apply Hall.
Qed.

Lemma sweepPhase_returns_on_acyclic_witness :
  ranked graphRank heapGraph ∧ closed heapGraph ∧
  is_Some (heapGraph !! 0) ∧ graphRank 0 < 3 ∧
  result (sweepPhase 3 0 heapGraph) = Done tt.
Proof.
  assert (is_Some (heapGraph !! 0)) as H0 by exact (mk_is_Some _ _ eq_refl).
  assert (graphRank 0 < 3) as Hf by (simpl; lia).
  split_and!; [exact heapGraph_ranked | exact heapGraph_closed | exact H0
              | exact Hf |].
  apply (sweepPhase_returns_on_acyclic graphRank 3 0 heapGraph
           heapGraph_ranked heapGraph_closed H0 Hf).
Defined.

(** ** The whole cycle *)

Lemma swept_app evs1 evs2 : swept (evs1 ++ evs2) = swept evs1 ++ swept evs2.
Proof. apply omap_app. Qed.

Lemma no_verdict_ret {A} (a : A) : no_verdict (ret a).
Proof. by intros h. Qed.

Lemma no_verdict_timeout {A} : no_verdict (@timeout A).
Proof. by intros h. Qed.

Lemma no_verdict_deref l : no_verdict (deref l).
Proof. intros h. unfold deref. by destruct (h !! l). Qed.

Lemma no_verdict_set_color l c : no_verdict (set_color l c).
Proof. intros h. unfold set_color. by destruct (h !! l). Qed.

Lemma no_verdict_bind {A B} (m : M A) (f : A → M B) :
  no_verdict m → (∀ a, no_verdict (f a)) → no_verdict (m ≫= f).
Proof.
  intros Hm Hf h. rewrite run_bind. unfold bind. specialize (Hm h).
  destruct (result (m h)) as [a| |]; simpl; [|done..].
  by rewrite swept_app, Hm, Hf.
Qed.

Lemma no_verdict_forM {A} (body : A → M unit) xs :
  (∀ x, no_verdict (body x)) → no_verdict (forM_ body xs).
Proof.
  intros Hb. induction xs as [|x xs IH]; [apply no_verdict_ret|].
  simpl. by apply no_verdict_bind.
Qed.

Lemma no_verdict_foldM {A B} (body : B → A → M B) acc xs :
  (∀ b x, no_verdict (body b x)) → no_verdict (foldM body acc xs).
Proof.
  intros Hb. revert acc. induction xs as [|x xs IH]; intros acc;
    [apply no_verdict_ret|].
  simpl. by apply no_verdict_bind.
Qed.

Lemma no_verdict_dfs fuel V obj : no_verdict (dfs fuel V obj).
Proof.
  revert V obj. induction fuel as [|fuel IH]; intros V obj;
    [apply no_verdict_timeout|].
  simpl. apply no_verdict_bind; [apply no_verdict_deref|]. intros o.
  case_decide; [apply no_verdict_ret|].
  apply no_verdict_bind; [apply no_verdict_set_color|]. intros _.
  by apply no_verdict_foldM.
Qed.

Lemma no_verdict_initializeColors fuel root :
  no_verdict (initializeColors fuel root).
Proof.
  unfold initializeColors. apply no_verdict_bind; [apply no_verdict_dfs|].
  by intros _ h.
Qed.

Lemma no_verdict_shadeChild g child : no_verdict (shadeChild g child).
Proof. intros h. rewrite shadeChild_run. destruct (h !! child); [|done]. by case_decide. Qed.

Lemma no_verdict_drain fuel g : no_verdict (drain fuel g).
Proof.
  revert g. induction fuel as [|fuel IH]; intros [|current rest]; simpl;
    try apply no_verdict_ret; try apply no_verdict_timeout.
  apply no_verdict_bind; [apply no_verdict_deref|]. intros cur.
  apply no_verdict_bind; [by intros h|]. intros _.
  apply no_verdict_bind;
    [apply no_verdict_foldM; intros; apply no_verdict_shadeChild|]. intros g'.
  apply no_verdict_bind; [apply no_verdict_set_color|]. intros _.
  apply no_verdict_bind; [by intros h|]. intros _. apply IH.
Qed.

Lemma no_verdict_markPhase fuel root : no_verdict (markPhase fuel root).
Proof.
  unfold markPhase.
  apply no_verdict_bind; [apply no_verdict_set_color|]. intros _.
  apply no_verdict_bind; [apply no_verdict_deref|]. intros r.
  apply no_verdict_bind; [by intros h|]. intros _.
  apply no_verdict_bind; [apply no_verdict_drain|]. by intros _ h.
Qed.

Lemma ranked_recolor rk h h' : ranked rk h → lift recolor h h' → ranked rk h'.
Proof.
  intros Hrk H a o' b Ha Hb.
  destruct (lift_lookup_r _ _ _ _ _ H Ha) as (o & Ho & _ & _ & Hch).
  eapply Hrk; [exact Ho|]. by rewrite Hch.
Qed.

(** [simulateThreeColorMarking] builds its graph and runs the cycle on it. *)
Lemma simulateThreeColorMarking_gcCycle fuel :
  simulateThreeColorMarking fuel =
  (emit (EvBanner 0);; root ← createObjectGraph; gcCycle fuel root).
Proof. reflexivity. Qed.

Lemma silent_bind {A B} (m : M A) (f : A → M B) :
  silent m → (∀ a, silent (f a)) → silent (m ≫= f).
Proof.
  intros Hm Hf h. rewrite run_bind. unfold bind. specialize (Hm h).
  destruct (result (m h)) as [a| |]; cbn [trace]; [|done..].
  by rewrite Hm, Hf.
Qed.

Lemma silent_foldM {A B} (body : B → A → M B) acc xs :
  (∀ b x, silent (body b x)) → silent (foldM body acc xs).
Proof.
  intros Hb. revert acc. induction xs as [|x xs IH]; intros acc; [by intros h|].
  simpl. by apply silent_bind.
Qed.

Lemma dfs_silent fuel V obj : silent (dfs fuel V obj).
Proof.
  revert V obj. induction fuel as [|fuel IH]; intros V obj; [by intros h|].
  simpl. apply silent_bind.
  { intros h. unfold deref. by destruct (h !! obj). }
  intros o. case_decide; [by intros h|].
  apply silent_bind.
  { intros h. unfold set_color. by destruct (h !! obj). }
  intros _. by apply silent_foldM.
Qed.

(** X11: on a graph without nil pointers and with distinct ids, whatever
    colours its objects have, the reset returns within one call per object
    and leaves the same objects, changed in colour only, with every object
    that the root reaches White; all it prints is its closing line. *)
Theorem initializeColors_resets fuel root h :
  closed h → ids_distinct h → is_Some (h !! root) → size h < fuel →
  result (initializeColors fuel root h) = Done tt ∧
  lift recolor h (final (initializeColors fuel root h)) ∧
  (∀ l o, reach h root l → final (initializeColors fuel root h) !! l = Some o →
          color o = White) ∧
  trace (initializeColors fuel root h) = [EvInitialized].
Proof.
  intros Hcl Hd Hroot Hf.
  destruct (initializeColors_fresh fuel root h Hcl Hd Hroot Hf)
    as (Hr & Hrc & Hfresh).
  split_and!; [done | done | |].
  - intros l o Hl Ho. eapply Hfresh; [|done]. by apply (reach_recolor h).
  - revert Hr. unfold initializeColors. rewrite run_bind. unfold bind.
    pose proof (dfs_silent fuel ∅ root h) as Hs.
    destruct (result (dfs fuel ∅ root h)) as [V| |]; cbn [result trace];
      [|done..].
    intros _. by rewrite Hs.
Qed.

Lemma heapRAB_closed : closed heapRAB.
Proof. apply (bool_decide_unpack _). by vm_compute. Qed.

Lemma heapRAB_ids : ids_distinct heapRAB.
Proof.
  assert (∀ l o, heapRAB !! l = Some o → id o = Z.of_nat l + 10)%Z as Hid.
  { assert (map_Forall (λ l o, id o = Z.of_nat l + 10)%Z heapRAB) as Hall
      by (apply (bool_decide_unpack _); by vm_compute).
    exact Hall. }
  intros l l' o o' Hl Hl' Heq.
  rewrite (Hid l o Hl), (Hid l' o' Hl') in Heq. lia.
Qed.

Lemma initializeColors_resets_witness :
  closed heapRAB ∧ ids_distinct heapRAB ∧ is_Some (heapRAB !! 0) ∧
  size heapRAB < 4 ∧
  result (initializeColors 4 0 heapRAB) = Done tt ∧
  colorAt (final (initializeColors 4 0 heapRAB)) 1 = Some White.
Proof.
  assert (is_Some (heapRAB !! 0)) as H0 by exact (mk_is_Some _ _ eq_refl).
  assert (size heapRAB < 4) as Hs by (vm_compute; lia).
  destruct (initializeColors_resets 4 0 heapRAB heapRAB_closed heapRAB_ids H0 Hs)
    as (Hr & _ & _ & _).
  split_and!; [exact heapRAB_closed | exact heapRAB_ids | exact H0 | exact Hs
              | exact Hr | reflexivity].
Defined.

(** X12: on an acyclic graph without nil pointers and with distinct ids,
    whatever colours its objects start with, the cycle of reset, mark and
    sweep returns with every object that the root reaches Black, and the
    verdicts it prints are "live", on every reachable object and on no
    other: the cycle never reports an object as reclaimed. *)
Theorem gcCycle_marks_and_reports_live (rk : loc → nat) fuel root h :
  closed h → ids_distinct h → ranked rk h → is_Some (h !! root) →
  size h < fuel → rk root < fuel →
  result (gcCycle fuel root h) = Done tt ∧
  (∀ l, reach h root l → colorAt (final (gcCycle fuel root h)) l = Some Black) ∧
  (∀ l v, (l, v) ∈ swept (trace (gcCycle fuel root h)) →
          reach h root l ∧ v = Live) ∧
  (∀ l, reach h root l → (l, Live) ∈ swept (trace (gcCycle fuel root h))).
Proof.
  intros Hcl Hd Hrk Hroot Hf Hfr.
  destruct (initializeColors_fresh fuel root h Hcl Hd Hroot Hf)
    as (Hr1 & Hrc1 & Hfresh).
  set (h1 := final (initializeColors fuel root h)) in *.
  assert (closed h1) as Hcl1 by (by eapply closed_recolor).
  assert (is_Some (h1 !! root)) as Hroot1 by (by eapply lift_is_Some).
  destruct (markPhase_complete fuel root h1 Hcl1 Hroot1 Hfresh) as [Hr2 Hall].
  { rewrite (lift_size _ _ _ Hrc1). lia. }
  pose proof (markPhase_recolor fuel root h1) as Hrc2.
  set (h2 := final (markPhase fuel root h1)) in *.
  assert (lift recolor h h2) as Hrc by (by etrans).
  assert (∀ l, reach h2 root l ↔ reach h root l) as Hreach.
  { intros l. symmetry. by apply reach_recolor. }
  assert (result (sweepPhase fuel root h2) = Done tt) as Hr3.
  { apply (sweepPhase_acyclic rk);
      [by eapply ranked_recolor | by eapply closed_recolor
      | by eapply lift_is_Some | done]. }
  assert (∀ l o, reach h2 root l → h2 !! l = Some o →
                 (l, classify (color o)) ∈
                   swept (trace (sweepPhase fuel root h2))) as Hrep.
  { intros l o Hl Ho.
    destruct (sweepPhase_spec fuel root h2) as [_ Hall2].
    destruct (Hall2 Hr3 l Hl) as (o' & Ho' & Hin'). by simplify_eq. }
  destruct (sweepPhase_spec fuel root h2) as [Hin _].
  pose proof (sweepPhase_frame fuel root h2) as Hfin.
  assert (gcCycle fuel root h =
          mkRun (Done tt) h2
            (trace (initializeColors fuel root h) ++
             EvBanner 1 :: trace (markPhase fuel root h1) ++
             EvBanner 2 :: trace (sweepPhase fuel root h2))) as ->.
  { unfold gcCycle. rewrite (bind_Done _ _ _ tt) by done. fold h1.
    rewrite bind_emit. cbn [result final trace].
    rewrite (bind_Done _ _ _ tt) by done. fold h2.
    rewrite bind_emit. cbn [result final trace].
    by rewrite Hr3, <- Hfin. }
  cbn [result final trace].
  assert (swept (trace (initializeColors fuel root h) ++
                 EvBanner 1 :: trace (markPhase fuel root h1) ++
                 EvBanner 2 :: trace (sweepPhase fuel root h2)) =
          swept (trace (sweepPhase fuel root h2))) as ->.
  { change (EvBanner 1 :: ?t) with ([EvBanner 1] ++ t).
    change (EvBanner 2 :: ?t) with ([EvBanner 2] ++ t).
    rewrite !swept_app, no_verdict_initializeColors, no_verdict_markPhase.
    done. }
  assert (∀ l, reach h root l → ∃ o, h2 !! l = Some o ∧ color o = Black) as Hb.
  { intros l Hl. apply colorAt_Some, Hall. by apply (reach_recolor h h1). }
  split_and!; [done | | |].
  - intros l Hl. apply colorAt_Some. by apply Hb.
  - intros l v Hlv. destruct (Hin l v Hlv) as (Hl & o & Ho & ->).
    apply Hreach in Hl. split; [done|].
    destruct (Hb l Hl) as (o' & Ho' & Hc). simplify_eq. by rewrite Hc.
  - intros l Hl. destruct (Hb l Hl) as (o & Ho & Hc).
    pose proof (Hrep l o (proj2 (Hreach l) Hl) Ho) as Hlv. by rewrite Hc in Hlv.
Qed.

Lemma heapGraph_ids : ids_distinct heapGraph.
Proof.
  assert (map_Forall (λ (l : nat) o,
            l = match id o with
                | 1%Z => 0 | 2%Z => 1 | 3%Z => 2 | 4%Z => 3 | _ => 4
                end) heapGraph) as Hall
    by (apply (bool_decide_unpack _); by vm_compute).
  intros l l' o o' Hl Hl' Heq.
  rewrite (Hall l o Hl), (Hall l' o' Hl'). by rewrite Heq.
Qed.

Lemma gcCycle_marks_and_reports_live_witness :
  closed heapGraph ∧ ids_distinct heapGraph ∧ ranked graphRank heapGraph ∧
  is_Some (heapGraph !! 0) ∧ size heapGraph < 6 ∧ graphRank 0 < 6 ∧
  result (gcCycle 6 0 heapGraph) = Done tt ∧
  ∀ l, reach heapGraph 0 l → (l, Live) ∈ swept (trace (gcCycle 6 0 heapGraph)).
Proof.
  assert (is_Some (heapGraph !! 0)) as H0 by exact (mk_is_Some _ _ eq_refl).
  assert (size heapGraph < 6) as Hs by (vm_compute; lia).
  assert (graphRank 0 < 6) as Hf by (simpl; lia).
  destruct (gcCycle_marks_and_reports_live graphRank 6 0 heapGraph
              heapGraph_closed heapGraph_ids heapGraph_ranked H0 Hs Hf)
    as (Hr & _ & _ & Hall).
  split_and!; [exact heapGraph_closed | exact heapGraph_ids
              | exact heapGraph_ranked | exact H0 | exact Hs | exact Hf
              | exact Hr | exact Hall].
Defined.

(** ** More on the barriers *)

Lemma barrierHeap_lookup b obj child o c h a :
  h !! obj = Some o → h !! child = Some c →
  barrierHeap b obj child o c h !! a =
  if decide (a = obj) then Some (with_children (children o ++ [child]) o)
  else if decide (a = child ∧ shades b (color o) (color c) = true)
       then Some (with_color Gray c)
       else h !! a.
Proof.
  intros Ho Hc. unfold barrierHeap.
  case_decide as Hao; [subst; apply lookup_insert_eq|].
  rewrite lookup_insert_ne by done.
  destruct (shades b (color o) (color c)) eqn:Hs.
  - case_decide as Hd.
    + destruct Hd as [-> _]. apply lookup_insert_eq.
    + rewrite lookup_insert_ne; [done|]. intros <-. by apply Hd.
  - rewrite decide_False; [done | by intros [_ ?]].
Qed.

(** X13: a barrier panics exactly when the holder or the reference is nil,
    before it has printed or changed anything; otherwise it returns. *)
Theorem barrier_panics_iff_nil b obj child h :
  (result (runBarrier b obj child h) = Panic ↔
   h !! obj = None ∨ h !! child = None) ∧
  (result (runBarrier b obj child h) = Panic →
   final (runBarrier b obj child h) = h ∧
   trace (runBarrier b obj child h) = []) ∧
  (result (runBarrier b obj child h) ≠ Panic →
   result (runBarrier b obj child h) = Done tt).
Proof.
  destruct (h !! obj) as [o|] eqn:Ho; [destruct (h !! child) as [c|] eqn:Hc|].
  - destruct (runBarrier_ok b obj child o c h Ho Hc) as [Hr _].
    rewrite Hr. split_and!; [|done..]. split; [done | by intros [?|?]].
  - destruct (runBarrier_panic b obj child h) as (Hr & Hf & Ht); [by right|].
    rewrite Hr. split_and!; [|done..]. split; [by right | done].
  - destruct (runBarrier_panic b obj child h) as (Hr & Hf & Ht); [by left|].
    rewrite Hr. split_and!; [|done..]. split; [by left | done].
Qed.

(** X14: a barrier touches the holder and the reference only: every other
    object is left exactly as it was, and no object changes its [id] or its
    [data]. *)
Theorem barrier_touches_holder_and_reference b obj child h :
  (∀ l, l ≠ obj → l ≠ child →
        final (runBarrier b obj child h) !! l = h !! l) ∧
  lift (λ o o', id o = id o' ∧ data o = data o')
       h (final (runBarrier b obj child h)).
Proof.
  destruct (h !! obj) as [o|] eqn:Ho; [destruct (h !! child) as [c|] eqn:Hc|].
  - destruct (runBarrier_ok b obj child o c h Ho Hc) as [_ ->]. split.
    + intros l Hlo Hlc. rewrite (barrierHeap_lookup b obj child o c) by done.
      rewrite decide_False by done. rewrite decide_False; [done | by intros [? _]].
    + intros l. rewrite (barrierHeap_lookup b obj child o c) by done.
      case_decide as Hlo; [subst; rewrite Ho; by constructor|].
      case_decide as Hlc; [destruct Hlc as [-> _]; rewrite Hc; by constructor|].
      destruct (h !! l); by constructor.
  - destruct (runBarrier_panic b obj child h) as (_ & -> & _); [by right|].
    split; [done|]. intros l. destruct (h !! l); by constructor.
  - destruct (runBarrier_panic b obj child h) as (_ & -> & _); [by left|].
    split; [done|]. intros l. destruct (h !! l); by constructor.
Qed.

(** X15: the Dijkstra barrier and the hybrid barrier keep the strong
    tri-colour invariant: if no Black object holds a White one before the
    store, none does after it. *)
Theorem barrier_keeps_strong_invariant b obj child h :
  b ≠ Yuasa → no_black_to_white h →
  no_black_to_white (final (runBarrier b obj child h)).
Proof.
  intros Hb Hinv.
  destruct (h !! obj) as [o|] eqn:Ho; [destruct (h !! child) as [c|] eqn:Hc|].
  2:{ destruct (runBarrier_panic b obj child h) as (_ & Hf & _); [by right|].
      by rewrite Hf. }
  2:{ destruct (runBarrier_panic b obj child h) as (_ & Hf & _); [by left|].
      by rewrite Hf. }
  destruct (runBarrier_ok b obj child o c h Ho Hc) as [_ ->].
  assert (∀ l, colorAt h l ≠ Some White →
               colorAt (barrierHeap b obj child o c h) l ≠ Some White) as Hkeep.
  { intros l Hn. rewrite (barrierHeap_color b obj child o c) by done.
    by case_decide. }
  intros a oa x Ha Hca Hx.
  rewrite (barrierHeap_lookup b obj child o c) in Ha by done.
  case_decide as Hao.
  - injection Ha as <-. simpl in Hca, Hx.
    apply elem_of_app in Hx as [Hx|Hx];
      [|apply list_elem_of_singleton in Hx as ->].
    + apply Hkeep. exact (Hinv obj o x Ho Hca Hx).
    + rewrite (barrierHeap_color b obj child o c) by done.
      case_decide as Hd; [done|].
      unfold colorAt. rewrite Hc. simpl. intros [= Hw]. apply Hd.
      split; [done|]. rewrite Hca, Hw. by destruct b.
  - case_decide as Hac.
    + injection Ha as <-. done.
    + apply Hkeep. exact (Hinv a oa x Ha Hca Hx).
Qed.

Lemma heapRAB_invariant : no_black_to_white heapRAB.
Proof.
  assert (map_Forall (λ _ o, Forall (λ x, colorAt heapRAB x ≠ Some White)
            (children o)) heapRAB) as Hall
    by (apply (bool_decide_unpack _); by vm_compute).
  intros a oa x Ha _ Hx. specialize (Hall a oa Ha). simpl in Hall.
  rewrite Forall_forall in Hall. by apply Hall.
Qed.

Lemma barrier_keeps_strong_invariant_witness :
  Dijkstra ≠ Yuasa ∧ no_black_to_white heapRAB ∧
  no_black_to_white (final (runBarrier Dijkstra 1 2 heapRAB)).
Proof.
  assert (Dijkstra ≠ Yuasa) as Hb by discriminate.
  split_and!; [exact Hb | exact heapRAB_invariant |].
  exact (barrier_keeps_strong_invariant Dijkstra 1 2 heapRAB Hb
           heapRAB_invariant).
Defined.

(** X16: the Yuasa barrier as written shades under a Gray holder only: a
    store of a White reference into a Black holder goes through unshaded
    and leaves a Black object holding a White one. *)
Theorem yuasa_breaks_strong_invariant obj child o c h :
  h !! obj = Some o → h !! child = Some c →
  color o = Black → color c = White →
  result (yuasaWriteBarrier obj child h) = Done tt ∧
  colorAt (final (yuasaWriteBarrier obj child h)) obj = Some Black ∧
  child ∈ childrenAt (final (yuasaWriteBarrier obj child h)) obj ∧
  colorAt (final (yuasaWriteBarrier obj child h)) child = Some White ∧
  ¬ no_black_to_white (final (yuasaWriteBarrier obj child h)).
Proof.
  intros Ho Hc Hb Hw.
  destruct (runBarrier_ok Yuasa obj child o c h Ho Hc) as [Hr Hf].
  simpl in Hr, Hf.
  pose proof (runBarrier_colorAt Yuasa obj child o c h) as Hcol.
  pose proof (runBarrier_childrenAt Yuasa obj child o c h Ho Hc) as Hch.
  simpl in Hcol, Hch.
  assert (shades Yuasa (color o) (color c) = false) as Hs by (by rewrite Hb, Hw).
  assert (∀ l, colorAt (final (yuasaWriteBarrier obj child h)) l = colorAt h l)
    as Hsame.
  { intros l. rewrite Hcol by done. rewrite decide_False; [done|].
    rewrite Hb. by intros [_ ?]. }
  assert (colorAt (final (yuasaWriteBarrier obj child h)) obj = Some Black) as H1.
  { rewrite Hsame. apply colorAt_Some. eauto. }
  assert (colorAt (final (yuasaWriteBarrier obj child h)) child = Some White) as H2.
  { rewrite Hsame. apply colorAt_Some. eauto. }
  assert (child ∈ childrenAt (final (yuasaWriteBarrier obj child h)) obj) as H3.
  { rewrite Hch. apply elem_of_app. right. left. }
  split_and!; [done..|].
  intros Hinv. apply colorAt_Some in H1 as (o' & Ho' & Hc').
  unfold childrenAt in H3. rewrite Ho' in H3. simpl in H3.
  by apply (Hinv obj o' child Ho' Hc' H3).
Qed.

Lemma yuasa_breaks_strong_invariant_witness :
  heapRAB !! 1 = Some (mkObject 11 Black [] []) ∧
  heapRAB !! 2 = Some (mkObject 12 White [] []) ∧
  ¬ no_black_to_white (final (yuasaWriteBarrier 1 2 heapRAB)).
Proof.
  assert (heapRAB !! 1 = Some (mkObject 11 Black [] [])) as H1 by reflexivity.
  assert (heapRAB !! 2 = Some (mkObject 12 White [] [])) as H2 by reflexivity.
  split_and!; [exact H1 | exact H2 |].
  apply (yuasa_breaks_strong_invariant 1 2 _ _ heapRAB H1 H2 eq_refl eq_refl).
Defined.

(** X17: the hybrid barrier is the two others put together: it leaves the
    heap the Dijkstra barrier leaves unless the holder is Gray, and the heap
    the Yuasa barrier leaves unless the holder is Black. *)
Theorem hybrid_is_dijkstra_or_yuasa obj child h :
  (colorAt h obj ≠ Some Gray →
   result (hybridWriteBarrier obj child h) =
     result (dijkstraWriteBarrier obj child h) ∧
   final (hybridWriteBarrier obj child h) =
     final (dijkstraWriteBarrier obj child h)) ∧
  (colorAt h obj ≠ Some Black →
   result (hybridWriteBarrier obj child h) =
     result (yuasaWriteBarrier obj child h) ∧
   final (hybridWriteBarrier obj child h) =
     final (yuasaWriteBarrier obj child h)).
Proof.
  destruct (h !! obj) as [o|] eqn:Ho; [destruct (h !! child) as [c|] eqn:Hc|].
  - destruct (runBarrier_ok Hybrid obj child o c h Ho Hc) as [Hr1 Hf1].
    destruct (runBarrier_ok Dijkstra obj child o c h Ho Hc) as [Hr2 Hf2].
    destruct (runBarrier_ok Yuasa obj child o c h Ho Hc) as [Hr3 Hf3].
    simpl in *. rewrite Hr1, Hr2, Hr3, Hf1, Hf2, Hf3.
    unfold colorAt. rewrite Ho. simpl. unfold barrierHeap.
    split; intros Hn; (split; [done|]);
      destruct (color o), (color c); simpl; try done; by destruct Hn.
  - destruct (runBarrier_panic Hybrid obj child h) as (Hr1 & Hf1 & _); [by right|].
    destruct (runBarrier_panic Dijkstra obj child h) as (Hr2 & Hf2 & _); [by right|].
    destruct (runBarrier_panic Yuasa obj child h) as (Hr3 & Hf3 & _); [by right|].
    simpl in *. by rewrite Hr1, Hr2, Hr3, Hf1, Hf2, Hf3.
  - destruct (runBarrier_panic Hybrid obj child h) as (Hr1 & Hf1 & _); [by left|].
    destruct (runBarrier_panic Dijkstra obj child h) as (Hr2 & Hf2 & _); [by left|].
    destruct (runBarrier_panic Yuasa obj child h) as (Hr3 & Hf3 & _); [by left|].
    simpl in *. by rewrite Hr1, Hr2, Hr3, Hf1, Hf2, Hf3.
Qed.

(** ** The generational demonstration *)


Lemma gid_grow o : gid (grow o) = gid o.
Proof. reflexivity. Qed.

Lemma survives_grow o : survives (grow o) ↔ survives o.
Proof. reflexivity. Qed.

Lemma generationCycle_survivors l : Forall survives (generationCycle l).
Proof.
  unfold generationCycle. apply Forall_fmap, Forall_forall.
  intros o Ho. apply list_elem_of_filter in Ho as [Ho _]. exact Ho.
Qed.

Lemma filter_all {A} (P : A → Prop) `{!∀ x, Decision (P x)} (l : list A) :
  Forall P l → filter P l = l.
Proof.
  induction 1 as [|x l Hx _ IH]; [done|].
  by rewrite filter_cons_True, IH.
Qed.

Lemma generationCycle_all l :
  Forall survives l → generationCycle l = grow <$> l.
Proof. intros H. unfold generationCycle. by rewrite filter_all. Qed.

(** X18: a cycle keeps, in their order, exactly the objects whose id is not
    a multiple of 7, and a further cycle drops none of them. *)
Theorem generationCycle_keeps_non_multiples l :
  gid <$> generationCycle l = filter (λ i, Z.rem i 7 ≠ 0%Z) (gid <$> l) ∧
  length (generationCycle (generationCycle l)) = length (generationCycle l).
Proof.
  split.
  - unfold generationCycle. induction l as [|o l IH]; [done|].
    rewrite fmap_cons.
    destruct (decide (survives o)) as [Hs|Hs].
    + rewrite (filter_cons_True survives) by done.
      rewrite (filter_cons_True (λ i, Z.rem i 7 ≠ 0%Z)) by exact Hs.
      rewrite !fmap_cons. by rewrite IH.
    + rewrite (filter_cons_False survives) by done.
      by rewrite (filter_cons_False (λ i, Z.rem i 7 ≠ 0%Z)) by exact Hs.
  - rewrite (generationCycle_all (generationCycle l))
      by apply generationCycle_survivors.
    by rewrite length_fmap.
Qed.



Lemma young_old_count l : youngCount l + oldCount l = length l.
Proof.
  unfold youngCount, oldCount. induction l as [|o l IH]; [done|].
  destruct (decide (generation o = Young)) as [Hy|Hy].
  - rewrite filter_cons_True by done.
    rewrite (filter_cons_False (λ o, generation o ≠ Young)) by (by intros ?).
    simpl. lia.
  - rewrite filter_cons_False by done.
    rewrite (filter_cons_True (λ o, generation o ≠ Young)) by done.
    simpl. lia.
Qed.

(** X20: whatever objects the loop starts with, every cycle reports the
    same number of survivors, the number of objects whose id is not a
    multiple of 7, and the young and the old it counts add up to it. *)
Theorem generationLoop_reports n k l :
  Forall (λ r, aliveCount r = length (filter survives l) ∧
               youngs r + olds r = aliveCount r)
         (generationLoop n k l).
Proof.
  revert k l. induction n as [|n IH]; intros k l; [constructor|].
  simpl. constructor.
  - simpl. split; [|apply young_old_count].
    unfold generationCycle. by rewrite length_fmap.
  - eapply Forall_impl; [apply IH|]. intros r [Ha Hs]. split; [|done].
    rewrite Ha, (filter_all survives) by apply generationCycle_survivors.
    unfold generationCycle. by rewrite length_fmap.
Qed.

(** What the demonstration prints. *)
Lemma demonstrateGenerationalConcepts_run :
  demonstrateGenerationalConcepts =
  [mkGenReport 0 85 85 0; mkGenReport 1 85 85 0; mkGenReport 2 85 0 85;
   mkGenReport 3 85 0 85; mkGenReport 4 85 0 85].
Proof. by vm_compute. Qed.

(** ** Nil pointers *)

(** What a completed run of the marking loop has scanned: everything on its
    worklist and everything it took out of White; and every object it
    scanned has its children allocated and none of them White. *)
Lemma drain_Done_scanned fuel g h :
  result (drain fuel g h) = Done tt →
  (∀ l, l ∈ g → l ∈ processed (trace (drain fuel g h))) ∧
  (∀ l, colorAt h l = Some White →
        colorAt (final (drain fuel g h)) l ≠ Some White →
        l ∈ processed (trace (drain fuel g h))) ∧
  (∀ l o b, l ∈ processed (trace (drain fuel g h)) → h !! l = Some o →
            b ∈ children o →
            is_Some (h !! b) ∧ colorAt (final (drain fuel g h)) b ≠ Some White).
Proof.
  revert g h. induction fuel as [|fuel IH]; intros [|current rest] h;
    try (rewrite drain_nil; simpl; intros _; split_and!;
         [by intros l ?%elem_of_nil | done | by intros l o b ?%elem_of_nil]);
    [done|].
  destruct (h !! current) as [cur|] eqn:Hc.
  2:{ by rewrite drain_nil_pointer. }
  rewrite (drain_step _ _ _ _ cur) by done. cbv zeta.
  destruct (scan_spec (children cur) rest h) as (_ & Hp1 & _ & Hd).
  pose proof (scan_fwd rest (children cur) h) as Hf1.
  pose proof (scan_Done_allocated (children cur) rest h) as Hal.
  destruct (result (foldM shadeChild rest (children cur) h)) as [g'| |];
    [|done..].
  destruct (Hd g' eq_refl) as (new & -> & _ & Hnew & Hcol & _).
  specialize (Hal _ eq_refl).
  set (h1 := final (foldM shadeChild rest (children cur) h)) in *.
  destruct (h1 !! current) as [o'|] eqn:Ho'; [|done].
  set (h2 := <[current := with_color Black o']> h1).
  assert (lift fwd h1 h2) as Hf12 by (by apply blacken_fwd).
  assert (lift fwd h h2) as Hf by (by etrans).
  pose proof (drain_fwd fuel (rest ++ new) h2) as Hf3.
  assert (∀ l, colorAt h2 l =
            if decide (current = l) then Some Black
            else if decide (l ∈ new) then Some Gray else colorAt h l) as Hcol2.
  { intros l. unfold h2. rewrite colorAt_insert. case_decide; [done|]. apply Hcol. }
  specialize (IH (rest ++ new) h2).
  set (r2 := drain fuel (rest ++ new) h2) in *.
  cbn [result final trace]. intros Hd2. destruct (IH Hd2) as (IHg & IHw & IHc).
  change (EvBlack current (id cur) :: trace r2)
    with ([EvBlack current (id cur)] ++ trace r2).
  rewrite processed_cons_process, !processed_app, Hp1.
  change (processed [EvBlack current (id cur)]) with (@nil loc).
  rewrite !app_nil_l.
  split_and!.
  - intros l [->|Hl]%elem_of_cons; [left|]. right.
    apply IHg, elem_of_app. by left.
  - intros l Hw Hn. destruct (decide (current = l)) as [<-|Hne]; [left|].
    right. destruct (decide (l ∈ new)) as [Hin|Hnin].
    + apply IHg, elem_of_app. by right.
    + apply IHw; [|done]. by rewrite Hcol2, decide_False, decide_False.
  - intros l o b [->|Hl]%elem_of_cons Ho Hb.
    + assert (o = cur) as -> by congruence. split; [by apply Hal|].
      assert (colorAt h1 b ≠ Some White) as Hn1.
      { rewrite Hcol. case_decide as Hin; [done|]. intros Hw. by apply Hin, Hnew. }
      apply (fwd_nonWhite h2 (final r2) b Hf3).
      by apply (fwd_nonWhite h1 h2 b Hf12).
    + destruct (lift_lookup _ _ _ _ _ Hf Ho) as (o2 & Ho2 & (_ & _ & Hch) & _).
      rewrite Hch in Hb. destruct (IHc l o2 b Hl Ho2 Hb) as [Hs Hn].
      split; [|done]. apply (lift_is_Some _ _ _ b (recolor_sym _ _
        (lift_fwd_recolor _ _ Hf)) Hs).
Qed.

(** X21: on a heap whose reachable objects are all White, the marking phase
    panics, given a budget of one step per object, as soon as some object
    the root reaches holds a nil pointer among its children. *)
Theorem markPhase_panics_on_nil_child fuel root a o c h :
  fresh_cycle h root → size h ≤ fuel →
  reach h root a → h !! a = Some o → c ∈ children o → h !! c = None →
  result (markPhase fuel root h) = Panic.
Proof.
  intros Hfresh Hf Ha Ho Hc Hnil.
  pose proof (markPhase_no_timeout fuel root h Hf) as Hnt.
  destruct (result (markPhase fuel root h)) as [[]| |] eqn:Hres; [|done..].
  exfalso.
  destruct (h !! root) as [oroot|] eqn:Hr.
  2:{ by rewrite markPhase_nil_pointer in Hres. }
  destruct (markPhase_footprint fuel root oroot h Hr)
    as (Hrc & Hcol & Hreach & Hfin).
  rewrite (markPhase_run _ _ oroot) in Hres by done. simpl in Hres.
  set (h1 := <[root := with_color Gray oroot]> h) in *.
  assert (result (drain fuel [root] h1) = Done tt) as Hd
    by (by destruct (result (drain fuel [root] h1)) as [[]| |]).
  destruct (drain_Done_scanned fuel [root] h1 Hd) as (Hg & Hw & Hkids).
  assert (∀ x y, reach h x y → reach h root x →
                 x ∈ processed (trace (drain fuel [root] h1)) →
                 reach h root y ∧
                 y ∈ processed (trace (drain fuel [root] h1))) as Hind.
  { intros x y Hxy. induction Hxy as [x|x ox b y Hox Hb _ IH]; [done|].
    intros Hrx Hpx.
    destruct (lift_lookup _ _ _ _ _ Hrc Hox) as (ox1 & Hox1 & _ & _ & Hch).
    rewrite Hch in Hb.
    destruct (Hkids x ox1 b Hpx Hox1 Hb) as [[ob1 Hob1] Hnb].
    assert (reach h root b) as Hrb.
    { eapply reach_trans; [exact Hrx|]. eapply reach_child; [exact Hox|].
      by rewrite Hch. }
    apply IH; [done|].
    destruct (decide (b = root)) as [->|Hne]; [apply Hg; left|].
    apply Hw; [|done]. rewrite Hcol, decide_False by done.
    destruct (lift_lookup_r _ _ _ _ _ Hrc Hob1) as (ob & Hob & _).
    apply colorAt_Some. exists ob. split; [done|]. by eapply Hfresh. }
  destruct (Hind root a Ha) as [_ Hpa]; [constructor | apply Hg; left |].
  destruct (lift_lookup _ _ _ _ _ Hrc Ho) as (o1 & Ho1 & _ & _ & Hch).
  rewrite Hch in Hc.
  destruct (Hkids a o1 c Hpa Ho1 Hc) as [Hs _].
  apply (lift_is_Some _ _ _ c (recolor_sym _ _ Hrc)) in Hs.
  rewrite Hnil in Hs. by destruct Hs.
Qed.

Lemma heapNil_fresh : fresh_cycle heapNil 0.
Proof.
  intros l o _ Hl.
  assert (map_Forall (λ _ o, color o = White) heapNil) as Hall
    by (apply (bool_decide_unpack _); by vm_compute).
  exact (Hall l o Hl).
Qed.

Lemma markPhase_panics_on_nil_child_witness :
  fresh_cycle heapNil 0 ∧ size heapNil ≤ 2 ∧ reach heapNil 0 0 ∧
  heapNil !! 0 = Some (mkObject 1 White [] [1; 7]) ∧ 7 ∈ [1; 7] ∧
  heapNil !! 7 = None ∧
  result (markPhase 2 0 heapNil) = Panic.
Proof.
  assert (size heapNil ≤ 2) as Hs by (vm_compute; lia).
  assert (reach heapNil 0 0) as Hr by constructor.
  assert (heapNil !! 0 = Some (mkObject 1 White [] [1; 7])) as H0
    by reflexivity.
  assert (7 ∈ [1; 7]) as H7 by (right; left).
  assert (heapNil !! 7 = None) as Hn by reflexivity.
  split_and!; [exact heapNil_fresh | exact Hs | exact Hr | exact H0
              | exact H7 | exact Hn |].
  exact (markPhase_panics_on_nil_child 2 0 0 _ 7 heapNil heapNil_fresh Hs Hr
           H0 H7 Hn).
Defined.

(** X22: given a nil root, the two markers and the reset panic before they
    have printed or changed anything; the sweeper has printed its heading
    when it panics, and has changed nothing. *)
Theorem nil_root_panics fuel root h :
  h !! root = None →
  markPhase fuel root h = mkRun Panic h [] ∧
  markObject (S fuel) root h = mkRun Panic h [] ∧
  initializeColors (S fuel) root h = mkRun Panic h [] ∧
  sweepPhase (S fuel) root h = mkRun Panic h [EvSweepStart].
Proof.
  intros Hr. split_and!.
  - by apply markPhase_nil_pointer.
  - by apply markObject_nil_pointer.
  - unfold initializeColors. rewrite run_bind. unfold bind. simpl dfs.
    by rewrite bind_deref_None.
  - rewrite sweepPhase_run. simpl collectAll. by rewrite bind_deref_None.
Qed.

Lemma nil_root_panics_witness :
  heapGraph !! 9 = None ∧
  markPhase 3 9 heapGraph = mkRun Panic heapGraph [] ∧
  sweepPhase 4 9 heapGraph = mkRun Panic heapGraph [EvSweepStart].
Proof.
  assert (heapGraph !! 9 = None) as Hn by reflexivity.
  destruct (nil_root_panics 3 9 heapGraph Hn) as (H1 & _ & _ & H4).
  split_and!; [exact Hn | exact H1 | exact H4].
Defined.

(** ** The shade of the Dijkstra barrier *)




(** ** What the sweeper enumerates *)



(** ** Marking, then sweeping *)

(** C1, as the code has it: started on the root of a graph without nil
    pointers whose reachable objects are all White, the marking phase
    returns within one step per object and has turned every reachable
    object Black.  The sweeper that runs next changes nothing and gives no
    verdict other than "live"; on an acyclic graph it returns, as soon as
    its budget exceeds the rank of the root, with that verdict on every
    reachable object. *)
Theorem marking_complete fuel fuel' root h :
  closed h → is_Some (h !! root) → fresh_cycle h root → size h ≤ fuel →
  let hm := final (markPhase fuel root h) in
  result (markPhase fuel root h) = Done tt ∧
  (∀ l, reach h root l → colorAt hm l = Some Black) ∧
  final (sweepPhase fuel' root hm) = hm ∧
  (∀ l v, (l, v) ∈ swept (trace (sweepPhase fuel' root hm)) → v = Live) ∧
  (∀ rk, ranked rk h → rk root < fuel' →
     result (sweepPhase fuel' root hm) = Done tt ∧
     ∀ l, reach h root l →
          (l, Live) ∈ swept (trace (sweepPhase fuel' root hm))).
Proof.
  intros Hcl Hroot Hfresh Hf hm.
  destruct (markPhase_complete fuel root h Hcl Hroot Hfresh Hf) as [Hdone Hall].
  fold hm in Hall.
  pose proof (markPhase_recolor fuel root h) as Hrc. fold hm in Hrc.
  assert (∀ l, reach hm root l ↔ reach h root l) as Hreach.
  { intros l. symmetry. by apply reach_recolor. }
  destruct (sweepPhase_spec fuel' root hm) as [Hin Hrep].
  split_and!; [done | done | | |].
  - symmetry. apply sweepPhase_frame.
  - intros l v Hlv. destruct (Hin l v Hlv) as (Hl & o & Ho & ->).
    apply Hreach, Hall, colorAt_Some in Hl as (o' & Ho' & Hc').
    assert (o' = o) as -> by congruence. by rewrite Hc'.
  - intros rk Hrk Hf'.
    assert (result (sweepPhase fuel' root hm) = Done tt) as Hd.
    { apply (sweepPhase_acyclic rk);
        [by eapply ranked_recolor | by eapply closed_recolor
        | by eapply lift_is_Some | done]. }
    split; [exact Hd|]. intros l Hl. apply Hreach in Hl as Hl'.
    destruct (Hrep Hd l Hl') as (o & Ho & Hlv).
    apply Hall, colorAt_Some in Hl as (o' & Ho' & Hc').
    assert (o' = o) as -> by congruence. by rewrite Hc' in Hlv.
Qed.

Lemma marking_complete_witness :
  closed heapGraph ∧ is_Some (heapGraph !! 0) ∧ fresh_cycle heapGraph 0 ∧
  size heapGraph ≤ 5 ∧ ranked graphRank heapGraph ∧ graphRank 0 < 3 ∧
  let hm := final (markPhase 5 0 heapGraph) in
  result (markPhase 5 0 heapGraph) = Done tt ∧
  (∀ l, reach heapGraph 0 l → colorAt hm l = Some Black) ∧
  result (sweepPhase 3 0 hm) = Done tt ∧
  (∀ l, reach heapGraph 0 l → (l, Live) ∈ swept (trace (sweepPhase 3 0 hm))).
Proof.
  assert (is_Some (heapGraph !! 0)) as H0 by exact (mk_is_Some _ _ eq_refl).
  assert (size heapGraph ≤ 5) as Hs by (vm_compute; lia).
  assert (graphRank 0 < 3) as Hf by (simpl; lia).
  destruct (marking_complete 5 3 0 heapGraph heapGraph_closed H0
              heapGraph_fresh Hs) as (Hd & Hb & _ & _ & Hsweep).
  destruct (Hsweep graphRank heapGraph_ranked Hf) as [Hd' Hlive].
  split_and!; [exact heapGraph_closed | exact H0 | exact heapGraph_fresh
              | exact Hs | exact heapGraph_ranked | exact Hf |].
  cbv zeta. split_and!; [exact Hd | exact Hb | exact Hd' | exact Hlive].
Defined.

(** Without the White start the claim fails: an object that is Gray before
    the phase starts is never put on the worklist, so the White object that
    only it refers to is still White when the completed phase hands over to
    the sweeper, which reports it as reclaimed. *)
Lemma marking_incomplete_behind_gray :
  let h1 := final (dijkstraWriteBarrier 1 2 heapRABC) in
  let hm := final (markPhase 4 0 h1) in
  reach h1 0 3 ∧
  result (markPhase 4 0 h1) = Done tt ∧
  colorAt hm 3 = Some White ∧
  result (sweepPhase 4 0 hm) = Done tt ∧
  swept (trace (sweepPhase 4 0 hm)) =
    [(0, Live); (1, Live); (2, Abnormal); (3, Reclaimed)].
Proof.
  cbv zeta. split; [exact (proj1 markPhase_skips_behind_gray)|].
  split_and!; reflexivity.
Qed.
